(** * A thread-pinning fiber scheduler: model and verification

    Shallow embedding of [thread_locked_scheduler.hpp] and
    [thread_locked_scheduler.cpp]: the per-fiber property
    [thread_locked_props], the scheduling policy [thread_locked_scheduler]
    with its three process-wide statics, and the operations the fiber
    runtime calls on a policy.

    Policies are heap objects named by their address (an index into
    [heap]); the statics and the heap form the [state] that every operation
    threads through.  Undefined behaviour and thrown exceptions are
    [Fault]s.  Every primitive step appends an [event] to the state's
    [trace], so the order of the statements of a member function, and which
    of them run while [s_mutex] is held, can be read off a run. *)

From Stdlib Require Import ZArith Lia Bool.
From stdpp Require Import base option list gmap strings pretty.

Local Open Scope Z_scope.

(** ** Machine integers *)

(** [std::size_t] on the LP64 targets the library is built for. *)
Definition size_t_modulus : Z := 2 ^ 64.
Definition to_size_t (z : Z) : Z := z mod size_t_modulus.

(** [static_cast<std::uint32_t>]. *)
Definition to_uint32 (z : Z) : Z := z mod 2 ^ 32.

(** ** Fiber contexts *)

(** A [boost::fibers::context] as far as the policy looks at it: its
    address, and the runtime's answer to
    [ctx->is_context(boost::fibers::type::pinned_context)].  Which scheduler
    a context is attached to is mutable and lives in the [state]. *)
Record context : Type := Context {
  ctx_id : nat;
  is_pinned_context : bool
}.

(** ** [thread_locked_props] *)

(** [notified] counts the calls of the base class's
    [fiber_properties::notify()]. *)
Record thread_locked_props : Type := Props {
  m_previously_awakened : bool;
  notified : nat
}.

(** The constructor: [m_previously_awakened(false)]. *)
Definition thread_locked_props_ctor : thread_locked_props :=
  {| m_previously_awakened := false; notified := 0 |}.

Definition was_previously_awakened (props : thread_locked_props) : bool :=
  m_previously_awakened props.

Definition set_previously_awakened (props : thread_locked_props)
  : thread_locked_props :=
  if negb (m_previously_awakened props)
  then {| m_previously_awakened := true; notified := S (notified props) |}
  else props.

(** The member functions of [thread_locked_props], as calls. *)
Inductive props_call : Type :=
| call_was_previously_awakened
| call_set_previously_awakened.

Definition run_props_call (c : props_call) (props : thread_locked_props)
  : thread_locked_props :=
  match c with
  | call_was_previously_awakened => props
  | call_set_previously_awakened => set_previously_awakened props
  end.

(** ** Policies and the process state *)

(** The data members of one [thread_locked_scheduler]; the condition
    variable [m_condition] has no state of its own here, signalling it is
    an event. *)
Record thread_locked_scheduler : Type := Scheduler {
  m_local_queue : list context;
  m_flag : bool;
  m_suspend : bool
}.

(** [boost::barrier]: the number of participants, how many are still
    awaited in the current generation, and the generation. *)
Record barrier_t : Type := Barrier {
  b_threshold : Z;
  b_count : Z;
  b_generation : nat
}.

Inductive event : Type :=
| EvLock                                   (* s_mutex.lock() *)
| EvUnlock                                 (* s_mutex.unlock() *)
| EvPushBack (p : nat) (c : context)       (* p->m_local_queue.push_back *)
| EvPopFront (p : nat) (c : context)       (* p->m_local_queue.pop_front *)
| EvDetach (c : context)                   (* c->detach() *)
| EvAttach (p : nat) (c : context)         (* context::active()->attach(c) *)
| EvIncrement (old new : Z)                (* ++ / ++ on s_current_scheduler *)
| EvStore (new : Z)                        (* s_current_scheduler = new *)
| EvMark (c : context)                     (* props.set_previously_awakened() *)
| EvAllocate (n : Z)                       (* s_schedulers gets n null slots *)
| EvSlotRead (i : Z) (p : option nat)      (* s_schedulers[i] read *)
| EvSlotWrite (i : Z) (p : nat)            (* s_schedulers[i] = p *)
| EvFlag (p : nat) (b : bool)              (* p->m_flag = b *)
| EvNotifyAll (p : nat)                    (* p->m_condition.notify_all() *)
| EvArrive (p : nat).                      (* barrier.wait() entered *)

Record state : Type := State {
  s_mutex : bool;                       (* held? *)
  s_current_scheduler : Z;
  s_schedulers : list (option nat);     (* intrusive_ptr; None is nullptr *)
  flag : bool;                          (* the constructor's once_flag *)
  barrier : option barrier_t;           (* the constructor's static barrier *)
  heap : list thread_locked_scheduler;  (* the policy at each address *)
  scheduler_ : gmap nat nat;            (* context id -> owning policy *)
  trace : list event
}.

(** The statics as [thread_locked_scheduler.cpp] initialises them, before
    any policy exists. *)
Definition initial_state : state :=
  {| s_mutex := false; s_current_scheduler := 0; s_schedulers := [];
     flag := false; barrier := None; heap := []; scheduler_ := ∅;
     trace := [] |}.

Definition log (e : event) (st : state) : state :=
  {| s_mutex := s_mutex st; s_current_scheduler := s_current_scheduler st;
     s_schedulers := s_schedulers st; flag := flag st;
     barrier := barrier st; heap := heap st; scheduler_ := scheduler_ st;
     trace := trace st ++ [e] |}.

Definition set_mutex (b : bool) (st : state) : state :=
  {| s_mutex := b; s_current_scheduler := s_current_scheduler st;
     s_schedulers := s_schedulers st; flag := flag st;
     barrier := barrier st; heap := heap st; scheduler_ := scheduler_ st;
     trace := trace st |}.

Definition set_current_scheduler (z : Z) (st : state) : state :=
  {| s_mutex := s_mutex st; s_current_scheduler := z;
     s_schedulers := s_schedulers st; flag := flag st;
     barrier := barrier st; heap := heap st; scheduler_ := scheduler_ st;
     trace := trace st |}.

Definition set_schedulers (l : list (option nat)) (st : state) : state :=
  {| s_mutex := s_mutex st; s_current_scheduler := s_current_scheduler st;
     s_schedulers := l; flag := flag st;
     barrier := barrier st; heap := heap st; scheduler_ := scheduler_ st;
     trace := trace st |}.

Definition set_once (b : bool) (st : state) : state :=
  {| s_mutex := s_mutex st; s_current_scheduler := s_current_scheduler st;
     s_schedulers := s_schedulers st; flag := b;
     barrier := barrier st; heap := heap st; scheduler_ := scheduler_ st;
     trace := trace st |}.

Definition set_barrier (b : option barrier_t) (st : state) : state :=
  {| s_mutex := s_mutex st; s_current_scheduler := s_current_scheduler st;
     s_schedulers := s_schedulers st; flag := flag st;
     barrier := b; heap := heap st; scheduler_ := scheduler_ st;
     trace := trace st |}.

Definition set_heap (h : list thread_locked_scheduler) (st : state) : state :=
  {| s_mutex := s_mutex st; s_current_scheduler := s_current_scheduler st;
     s_schedulers := s_schedulers st; flag := flag st;
     barrier := barrier st; heap := h; scheduler_ := scheduler_ st;
     trace := trace st |}.

Definition set_owner (o : gmap nat nat) (st : state) : state :=
  {| s_mutex := s_mutex st; s_current_scheduler := s_current_scheduler st;
     s_schedulers := s_schedulers st; flag := flag st;
     barrier := barrier st; heap := heap st; scheduler_ := o;
     trace := trace st |}.

(** What [p->m_local_queue] and [p->m_flag] hold, for reading states. *)
Definition local_queue (p : nat) (st : state) : list context :=
  match heap st !! p with
  | Some s => m_local_queue s
  | None => []
  end.

Definition wake_flag (p : nat) (st : state) : bool :=
  match heap st !! p with
  | Some s => m_flag s
  | None => false
  end.

(** The policy a context is attached to, if any. *)
Definition owner (c : context) (st : state) : option nat :=
  scheduler_ st !! ctx_id c.

(** ** The monad of member functions *)

Inductive fault : Type :=
| division_by_zero      (* x % 0 *)
| out_of_range          (* vector index past the end *)
| null_pointer          (* call through nullptr or a dangling policy *)
| relock                (* locking s_mutex while it is held *)
| unlock_unowned        (* unlocking s_mutex while it is free *)
| thrown.               (* an exception leaves the function *)

Inductive outcome (A : Type) : Type :=
| Done (a : A) (st : state)
| Fault (f : fault).
Arguments Done {A} a st.
Arguments Fault {A} f.

Definition M (A : Type) : Type := state -> outcome A.

Definition ret {A} (a : A) : M A := fun st => Done a st.

Definition bind {A B} (m : M A) (k : A -> M B) : M B :=
  fun st =>
    match m st with
    | Done a st' => k a st'
    | Fault f => Fault f
    end.

Definition fail {A} (f : fault) : M A := fun _ => Fault f.

Declare Scope sched_scope.
Delimit Scope sched_scope with sched.
Notation "x <- m ;; k" := (bind m (fun x => k))
  (at level 100, m at next level, right associativity) : sched_scope.
Notation "m ;; k" := (bind m (fun _ => k))
  (at level 100, right associativity) : sched_scope.
Local Open Scope sched_scope.

(** ** Primitive steps *)

(** Calls run one at a time, each from start to end except where it parks
    on the condition variable; so a [lock] that finds the mutex held is made
    by the thread that holds it. *)
Definition lock : M unit := fun st =>
  if s_mutex st then Fault relock
  else Done tt (log EvLock (set_mutex true st)).

Definition unlock : M unit := fun st =>
  if s_mutex st then Done tt (log EvUnlock (set_mutex false st))
  else Fault unlock_unowned.

(** Reading [*p]. *)
Definition deref (p : nat) : M thread_locked_scheduler := fun st =>
  match heap st !! p with
  | Some s => Done s st
  | None => Fault null_pointer
  end.

(** [push_back] on [m_local_queue].  The queue is the fiber library's
    intrusive list over the ready hook of the context: that the context is
    in no queue when it is pushed is for the caller to see to, and is not
    checked here (see [admissible]). *)
Definition push_back (p : nat) (c : context) : M unit :=
  s <- deref p ;;
  fun st =>
    Done tt
      (log (EvPushBack p c)
         (set_heap
            (<[p := {| m_local_queue := m_local_queue s ++ [c];
                       m_flag := m_flag s;
                       m_suspend := m_suspend s |}]> (heap st)) st)).

Definition pop_front (p : nat) : M unit :=
  s <- deref p ;;
  fun st =>
    match m_local_queue s with
    | [] => Fault out_of_range
    | c :: rest =>
        Done tt
          (log (EvPopFront p c)
             (set_heap
                (<[p := {| m_local_queue := rest;
                           m_flag := m_flag s;
                           m_suspend := m_suspend s |}]> (heap st)) st))
    end.

Definition set_flag (p : nat) (b : bool) : M unit :=
  s <- deref p ;;
  fun st =>
    Done tt
      (log (EvFlag p b)
         (set_heap
            (<[p := {| m_local_queue := m_local_queue s;
                       m_flag := b;
                       m_suspend := m_suspend s |}]> (heap st)) st)).

Definition notify_all (p : nat) : M unit := fun st =>
  Done tt (log (EvNotifyAll p) st).

(** [ctx->detach()]: the context belongs to no scheduler any more.  The
    library goes through the scheduler the context is attached to; that
    there is one is for the caller to see to (see [admissible]). *)
Definition detach (c : context) : M unit := fun st =>
  Done tt (log (EvDetach c) (set_owner (delete (ctx_id c) (scheduler_ st)) st)).

(** [context::active()->attach(ctx)] on the thread of policy [p].  The
    library wants a context that is attached to no scheduler; that is for
    the caller to see to (see [admissible]). *)
Definition attach (p : nat) (c : context) : M unit := fun st =>
  Done tt
    (log (EvAttach p c) (set_owner (<[ctx_id c := p]> (scheduler_ st)) st)).

(** [++s_current_scheduler] on the atomic: stores and yields the new value. *)
Definition pre_increment : M Z := fun st =>
  let v := to_size_t (s_current_scheduler st + 1) in
  Done v (log (EvIncrement (s_current_scheduler st) v)
            (set_current_scheduler v st)).

(** [s_current_scheduler++]: stores the new value, yields the old one. *)
Definition post_increment : M Z := fun st =>
  let v := to_size_t (s_current_scheduler st + 1) in
  Done (s_current_scheduler st)
    (log (EvIncrement (s_current_scheduler st) v)
       (set_current_scheduler v st)).

Definition store_current_scheduler (z : Z) : M unit := fun st =>
  Done tt (log (EvStore z) (set_current_scheduler z st)).

Definition load_current_scheduler : M Z := fun st =>
  Done (s_current_scheduler st) st.

(** [std::size(s_schedulers)]. *)
Definition size_schedulers : M Z := fun st =>
  Done (Z.of_nat (length (s_schedulers st))) st.

(** [a % b] on [std::size_t]. *)
Definition rem (a b : Z) : M Z :=
  if b =? 0 then fail division_by_zero else ret (a mod b).

(** [s_schedulers[i]], read; [None] is the null pointer. *)
Definition read_slot (i : Z) : M (option nat) := fun st =>
  match s_schedulers st !! Z.to_nat i with
  | None => Fault out_of_range
  | Some p => Done p (log (EvSlotRead i p) st)
  end.

(** [s_schedulers[i] = p]. *)
Definition write_slot (i : Z) (p : nat) : M unit := fun st =>
  match s_schedulers st !! Z.to_nat i with
  | None => Fault out_of_range
  | Some _ =>
      Done tt
        (log (EvSlotWrite i p)
           (set_schedulers (<[Z.to_nat i := Some p]> (s_schedulers st)) st))
  end.

(** [m_local_queue.empty()]. *)
Definition empty (q : list context) : bool :=
  match q with
  | [] => true
  | _ :: _ => false
  end.

(** ** [thread_locked_scheduler]: the operations after construction *)

(** [accept]: the [lock_guard] is released at the closing brace. *)
Definition accept (self : nat) (ctx : context) : M unit :=
  lock ;;
  push_back self ctx ;;
  unlock.

(** [awakened].  The [unique_lock] still owns the mutex at the end of the
    first two branches and releases it there; the third branch has
    unlocked it by hand.  [props] is the reference parameter: its new
    value is the result. *)
Definition awakened (self : nat) (ctx : context) (props : thread_locked_props)
  : M thread_locked_props :=
  lock ;;
  if is_pinned_context ctx then
    push_back self ctx ;;
    unlock ;;
    ret props
  else
    detach ctx ;;
    if was_previously_awakened props then
      push_back self ctx ;;
      unlock ;;
      ret props
    else
      v <- pre_increment ;;
      n <- size_schedulers ;;
      r <- rem v n ;;
      store_current_scheduler r ;;
      unlock ;;
      (fun st => Done (set_previously_awakened props) (log (EvMark ctx) st)) ;;
      i <- load_current_scheduler ;;
      next <- read_slot i ;;
      match next with
      | Some target => accept target ctx
      | None => fail null_pointer
      end ;;
      ret (set_previously_awakened props).

(** [pick_next]: [None] is the null pointer.  With an empty queue the
    [unique_lock] is released on return. *)
Definition pick_next (self : nat) : M (option context) :=
  lock ;;
  s <- deref self ;;
  match m_local_queue s with
  | ctx :: _ =>
      pop_front self ;;
      unlock ;;
      (if negb (is_pinned_context ctx) then attach self ctx else ret tt) ;;
      ret (Some ctx)
  | [] =>
      unlock ;;
      ret None
  end.

Definition has_ready_fibers (self : nat) : M bool :=
  lock ;;
  s <- deref self ;;
  unlock ;;
  ret (negb (empty (m_local_queue s))).

Definition notify (self : nat) : M unit :=
  lock ;;
  set_flag self true ;;
  unlock ;;
  notify_all self.

(** ** Construction *)

(** The storage of the new policy, with the member initialisers
    [m_local_queue{}], [m_flag{false}], [m_suspend{false}]; yields [this]. *)
Definition allocate_policy : M nat := fun st =>
  Done (length (heap st))
    (set_heap
       (heap st ++
          [{| m_local_queue := []; m_flag := false; m_suspend := false |}])
       st).

(** [static boost::barrier barrier{static_cast<std::uint32_t>(thread_count)}]:
    initialised by the first constructor to get here; [boost::barrier]
    throws on a count of zero. *)
Definition barrier_init (thread_count : Z) : M unit := fun st =>
  match barrier st with
  | Some _ => Done tt st
  | None =>
      let n := to_uint32 thread_count in
      if n =? 0 then Fault thrown
      else Done tt
             (set_barrier
                (Some {| b_threshold := n; b_count := n; b_generation := 0 |})
                st)
  end.

(** [std::call_once(flag, f)]. *)
Definition call_once (f : M unit) : M unit := fun st =>
  if flag st then Done tt st
  else (f ;; fun st' => Done tt (set_once true st')) st.

(** [scheduler_list_t{n, nullptr}.swap(s_schedulers)]. *)
Definition allocate_schedulers (n : Z) : M unit := fun st =>
  Done tt
    (log (EvAllocate n) (set_schedulers (replicate (Z.to_nat n) None) st)).

(** [barrier.wait()], as far as the arrival: the last participant of a
    generation opens the next one.  That the earlier ones stay blocked until
    then is not part of this model. *)
Definition barrier_wait (p : nat) : M unit := fun st =>
  match barrier st with
  | None => Fault null_pointer
  | Some b =>
      let b' :=
        if b_count b - 1 =? 0
        then {| b_threshold := b_threshold b; b_count := b_threshold b;
                b_generation := S (b_generation b) |}
        else {| b_threshold := b_threshold b; b_count := b_count b - 1;
                b_generation := b_generation b |} in
      Done tt (log (EvArrive p) (set_barrier (Some b') st))
  end.

(** The constructor; [thread_count] is a [std::size_t].  Yields [this]. *)
Definition thread_locked_scheduler_ctor
    (thread_count : Z) (main_scheduler : bool) : M nat :=
  this <- allocate_policy ;;
  barrier_init thread_count ;;
  call_once (allocate_schedulers (to_size_t (thread_count - 1))) ;;
  (if negb main_scheduler then
     i <- post_increment ;;
     write_slot i this
   else ret tt) ;;
  barrier_wait this ;;
  ret this.

(** A pool: one constructor per thread, every one with the same
    [thread_count]; [mains] gives the [main_scheduler] argument of each, in
    the order in which the constructors run. *)
Fixpoint construct (thread_count : Z) (mains : list bool) : M (list nat) :=
  match mains with
  | [] => ret []
  | m :: rest =>
      p <- thread_locked_scheduler_ctor thread_count m ;;
      ps <- construct thread_count rest ;;
      ret (p :: ps)
  end.

(** ** Idle wait *)

(** [std::chrono::steady_clock::time_point], in ticks. *)
Definition time_point_max : Z := 2 ^ 63 - 1.

(** What other threads may call on the policies while this one is parked
    on its condition variable. *)
Inductive call : Type :=
| call_accept (p : nat) (ctx : context)
| call_awakened (p : nat) (ctx : context) (props : thread_locked_props)
| call_pick_next (p : nat)
| call_has_ready_fibers (p : nat)
| call_notify (p : nat).

Definition run_call (c : call) : M unit :=
  match c with
  | call_accept p ctx => accept p ctx
  | call_awakened p ctx props => awakened p ctx props ;; ret tt
  | call_pick_next p => pick_next p ;; ret tt
  | call_has_ready_fibers p => has_ready_fibers p ;; ret tt
  | call_notify p => notify p
  end.

Fixpoint run_calls (cs : list call) : M unit :=
  match cs with
  | [] => ret tt
  | c :: rest => run_call c ;; run_calls rest
  end.

(** One return of the condition variable's primitive wait: the calls other
    threads made while the mutex was released, and what the steady clock
    reads when the waiter has the mutex again. *)
Record wakeup : Type := Wakeup {
  meanwhile : list call;
  clock : Z
}.

(** [m_condition.wait(lock)]. *)
Definition cv_wait (w : wakeup) : M unit :=
  unlock ;;
  run_calls (meanwhile w) ;;
  lock.

(** [m_condition.wait_until(lock, tp)]: [true] is [cv_status::timeout]. *)
Definition cv_wait_until (tp : Z) (w : wakeup) : M bool :=
  cv_wait w ;;
  ret (tp <=? clock w).

(** [m_condition.wait(lock, pred)] with [pred] reading [m_flag], which the
    standard defines as [while (!pred()) wait(lock);].  The result is the
    part of the environment not yet consumed, or [None] when the thread is
    still parked at the end of [env]. *)
Fixpoint wait (self : nat) (env : list wakeup) : M (option (list wakeup)) :=
  s <- deref self ;;
  if m_flag s then ret (Some env)
  else
    match env with
    | [] => unlock ;; ret None
    | w :: env' => cv_wait w ;; wait self env'
    end.

(** [m_condition.wait_until(lock, tp, pred)], which the standard defines as
    [while (!pred()) if (wait_until(lock, tp) == cv_status::timeout)
    return pred(); return true;]. *)
Fixpoint wait_until (self : nat) (tp : Z) (env : list wakeup)
  : M (option (list wakeup)) :=
  s <- deref self ;;
  if m_flag s then ret (Some env)
  else
    match env with
    | [] => unlock ;; ret None
    | w :: env' =>
        timeout <- cv_wait_until tp w ;;
        if timeout then ret (Some env')
        else wait_until self tp env'
    end.

(** [suspend_until]; [env] is what happens around the waiting thread. *)
Definition suspend_until (self : nat) (time_point : Z) (env : list wakeup)
  : M (option (list wakeup)) :=
  if time_point_max =? time_point then
    lock ;;
    r <- wait self env ;;
    match r with
    | Some rest => set_flag self false ;; unlock ;; ret (Some rest)
    | None => ret None
    end
  else
    lock ;;
    r <- wait_until self time_point env ;;
    match r with
    | Some rest => set_flag self false ;; unlock ;; ret (Some rest)
    | None => ret None
    end.

(** ** Reading traces *)

(** Each event of a trace with whether [s_mutex] is held when it happens,
    [held] being the state of the mutex before the first one. *)
Fixpoint under_mutex (held : bool) (tr : list event) : list (event * bool) :=
  match tr with
  | [] => []
  | EvLock :: rest => (EvLock, held) :: under_mutex true rest
  | EvUnlock :: rest => (EvUnlock, held) :: under_mutex false rest
  | e :: rest => (e, held) :: under_mutex held rest
  end.

(** The slots dispatches read their target from, in order. *)
Fixpoint slot_reads (tr : list event) : list Z :=
  match tr with
  | [] => []
  | EvSlotRead i _ :: rest => i :: slot_reads rest
  | _ :: rest => slot_reads rest
  end.

(** The writes to the registry, in order: slot and policy. *)
Fixpoint slot_writes (tr : list event) : list (Z * nat) :=
  match tr with
  | [] => []
  | EvSlotWrite i p :: rest => (i, p) :: slot_writes rest
  | _ :: rest => slot_writes rest
  end.

(** * [example.cpp] *)

(** The demonstration program around the scheduler: the thread-local
    object every fiber looks at, and the body of a fiber.  A [program] holds
    the statics of [example.cpp]; what the program does to its mutexes, to
    [std::cout] and to [cnd_count] is a list of [output]s. *)

Inductive mutex_name : Type :=
| print_mtx
| mtx_count.

Inductive output : Type :=
| Locked (m : mutex_name)
| Unlocked (m : mutex_name)
| Printed (s : string)                  (* std::cout << s *)
| NotifiedAll.                          (* cnd_count.notify_all() *)

Record program : Type := Program {
  current_id : Z;                 (* thread_local_object::current_id *)
  thread_local_obj : gmap nat Z;  (* the [m_id] of the object of each thread
                                     on which [get_thread_local] has run *)
  fiber_count : Z;
  outputs : list output
}.

Definition emit (o : list output) (w : program) : program :=
  {| current_id := current_id w; thread_local_obj := thread_local_obj w;
     fiber_count := fiber_count w; outputs := outputs w ++ o |}.

Definition newline : string := String (Ascii.ascii_of_nat 10) EmptyString.

(** [utility::locked_print(args...)]: the arguments go to [std::cout] one
    after the other, under [print_mtx]; numbers are printed in decimal. *)
Definition locked_print (args : list string) (w : program) : program :=
  emit ([Locked print_mtx] ++ (Printed <$> args) ++ [Unlocked print_mtx]) w.

(** The constructor of [thread_local_object]: [m_id{current_id++}]. *)
Definition thread_local_object_ctor (w : program) : Z * program :=
  (current_id w,
   {| current_id := to_size_t (current_id w + 1);
      thread_local_obj := thread_local_obj w;
      fiber_count := fiber_count w; outputs := outputs w |}).

(** [thread_local_object::foo] on the object with id [m_id]. *)
Definition foo (m_id : Z) (fiber_id : Z) (w : program) : Z * program :=
  (m_id,
   locked_print
     ["thread_local_object::foo: fiber id: "; pretty fiber_id;
      ", object id: "; pretty m_id; newline] w).

(** [get_thread_local] called on [thread]: the object is constructed the
    first time the thread gets here.  The object is given by its [m_id]. *)
Definition get_thread_local (thread : nat) (w : program) : Z * program :=
  match thread_local_obj w !! thread with
  | Some m_id => (m_id, w)
  | None =>
      let '(m_id, w') := thread_local_object_ctor w in
      (m_id,
       {| current_id := current_id w';
          thread_local_obj := <[thread := m_id]> (thread_local_obj w');
          fiber_count := fiber_count w'; outputs := outputs w' |})
  end.

(** The locals of [fiber_function]. *)
Record fiber_locals : Type := FiberLocals {
  my_local_id : Z;
  my_thread_id : nat
}.

Definition migrated_warning : string :=
  "WARNING: Fiber migrated thread!" +:+ newline.

Definition wrong_local_warning : string :=
  "WARNING: Fiber accessed wrong thread local!" +:+ newline.

(** One turn of the loop of [fiber_function]; [thread] is the thread the
    fiber finds itself on after [sleep_for]. *)
Definition fiber_iteration (fiber_id : Z) (thread : nat)
    (loc : fiber_locals) (w : program) : fiber_locals * program :=
  let '(obj, w) := get_thread_local thread w in
  let '(new_local_id, w) := foo obj fiber_id w in
  let new_thread_id := thread in
  let '(my_thread_id', w) :=
    if bool_decide (new_thread_id <> my_thread_id loc)
    then (new_thread_id, locked_print [migrated_warning] w)
    else (my_thread_id loc, w) in
  let '(my_local_id', w) :=
    if bool_decide (new_local_id <> my_local_id loc)
    then (new_local_id, locked_print [wrong_local_warning] w)
    else (my_local_id loc, w) in
  ({| my_local_id := my_local_id'; my_thread_id := my_thread_id' |}, w).

(** The end of [fiber_function]: [--fiber_count] under [mtx_count], and
    the notification when that was the last fiber; otherwise the lock is
    released at the closing brace. *)
Definition fiber_done (w : program) : program :=
  let w := emit [Locked mtx_count] w in
  let n := to_size_t (fiber_count w - 1) in
  let w := {| current_id := current_id w;
              thread_local_obj := thread_local_obj w;
              fiber_count := n; outputs := outputs w |} in
  if 0 =? n then emit [Unlocked mtx_count; NotifiedAll] w
  else emit [Unlocked mtx_count] w.

(** [fiber_function]: the fiber starts on thread [start] and is on thread
    [resumed jj] after the sleep of turn [jj]. *)
Definition fiber_function (fiber_id : Z) (start : nat) (resumed : nat -> nat)
    (w : program) : program :=
  let '(obj, w) := get_thread_local start w in
  let '(my_local_id, w) := foo obj fiber_id w in
  let loc := {| my_local_id := my_local_id; my_thread_id := start |} in
  let '(_, w) :=
    foldl (fun '(loc, w) jj => fiber_iteration fiber_id (resumed jj) loc w)
      (loc, w) (seq 0 5) in
  fiber_done w.

(** What went to [std::cout], in order. *)
Fixpoint printed (o : list output) : list string :=
  match o with
  | [] => []
  | Printed s :: rest => s :: printed rest
  | _ :: rest => printed rest
  end.

(** How often [cnd_count] was notified. *)
Fixpoint notifications (o : list output) : nat :=
  match o with
  | [] => O
  | NotifiedAll :: rest => S (notifications rest)
  | _ :: rest => notifications rest
  end.

(** * Definitions for the statements *)

(** ** Reading states *)

(** [p->m_flag], when [p] is a live policy. *)
Definition flag_of (p : nat) (st : state) : option bool :=
  m_flag <$> heap st !! p.

(** Only the trace tells [st'] from [st]. *)
Definition same_but_trace (st st' : state) : Prop :=
  s_mutex st' = s_mutex st /\
  s_current_scheduler st' = s_current_scheduler st /\
  s_schedulers st' = s_schedulers st /\
  flag st' = flag st /\
  barrier st' = barrier st /\
  heap st' = heap st /\
  scheduler_ st' = scheduler_ st.

(** ** The states the operations leave behind *)

(** The state a dispatch leaves behind: [ctx] detached, the cursor at [r],
    [ctx] at the back of the queue of the target [t]. *)
Definition dispatched (ctx : context) (r : Z) (t : nat)
    (s_t : thread_locked_scheduler) (st : state) : state :=
  {| s_mutex := false;
     s_current_scheduler := r;
     s_schedulers := s_schedulers st;
     flag := flag st;
     barrier := barrier st;
     heap := <[t := {| m_local_queue := m_local_queue s_t ++ [ctx];
                       m_flag := m_flag s_t;
                       m_suspend := m_suspend s_t |}]> (heap st);
     scheduler_ := delete (ctx_id ctx) (scheduler_ st);
     trace := trace st ++
       [EvLock; EvDetach ctx;
        EvIncrement (s_current_scheduler st) (s_current_scheduler st + 1);
        EvStore r; EvUnlock; EvMark ctx; EvSlotRead r (Some t);
        EvLock; EvPushBack t ctx; EvUnlock] |}.

(** The state after a context has been put on the queue of [self] by
    [awakened]; [detached] tells whether it was detached first. *)
Definition enqueued (detached : bool) (self : nat) (ctx : context)
    (s : thread_locked_scheduler) (st : state) : state :=
  {| s_mutex := false;
     s_current_scheduler := s_current_scheduler st;
     s_schedulers := s_schedulers st;
     flag := flag st;
     barrier := barrier st;
     heap := <[self := {| m_local_queue := m_local_queue s ++ [ctx];
                          m_flag := m_flag s;
                          m_suspend := m_suspend s |}]> (heap st);
     scheduler_ := if detached then delete (ctx_id ctx) (scheduler_ st)
                   else scheduler_ st;
     trace := trace st ++
       if detached then [EvLock; EvDetach ctx; EvPushBack self ctx; EvUnlock]
       else [EvLock; EvPushBack self ctx; EvUnlock] |}.

(** The state after [pick_next] has taken [ctx] off the front of the queue
    of [self], [rest] being what stays queued. *)
Definition picked (self : nat) (ctx : context) (rest : list context)
    (s : thread_locked_scheduler) (st : state) : state :=
  {| s_mutex := false;
     s_current_scheduler := s_current_scheduler st;
     s_schedulers := s_schedulers st;
     flag := flag st;
     barrier := barrier st;
     heap := <[self := {| m_local_queue := rest;
                          m_flag := m_flag s;
                          m_suspend := m_suspend s |}]> (heap st);
     scheduler_ := if is_pinned_context ctx then scheduler_ st
                   else <[ctx_id ctx := self]> (scheduler_ st);
     trace := trace st ++
       if is_pinned_context ctx
       then [EvLock; EvPopFront self ctx; EvUnlock]
       else [EvLock; EvPopFront self ctx; EvUnlock; EvAttach self ctx] |}.

(** The end of either branch of [suspend_until]. *)
Definition finish (self : nat) (r : option (list wakeup))
  : M (option (list wakeup)) :=
  match r with
  | Some rest => set_flag self false ;; unlock ;; ret (Some rest)
  | None => ret None
  end.

(** ** Properties of traces *)

Definition touches_cursor (e : event) : bool :=
  match e with
  | EvIncrement _ _ | EvStore _ => true
  | _ => false
  end.

Definition reads_slot (e : event) : bool :=
  match e with
  | EvSlotRead _ _ => true
  | _ => false
  end.

(** Every step of the trace that advances the cursor or reads a slot
    happens while [s_mutex] is held. *)
Definition selection_under_mutex (tr : list event) : Prop :=
  forall e held,
    In (e, held) (under_mutex false tr) ->
    touches_cursor e || reads_slot e = true ->
    held = true.

(** Every mark of a property comes after a read of a slot of the worker
    list, the read being what yields the target of the dispatch. *)
Definition marks_after_choice (tr : list event) : Prop :=
  forall i ctx,
    tr !! i = Some (EvMark ctx) ->
    exists j slot p, (j < i)%nat /\ tr !! j = Some (EvSlotRead slot p).

(** ** Pools under construction and in operation *)

Definition fresh_policy : thread_locked_scheduler :=
  {| m_local_queue := []; m_flag := false; m_suspend := false |}.

(** The addresses of the policies constructed with [main_scheduler] false,
    when the first constructor of [mains] gets address [h]. *)
Fixpoint workers_from (h : nat) (mains : list bool) : list nat :=
  match mains with
  | [] => []
  | m :: rest => (if m then [] else [h]) ++ workers_from (S h) rest
  end.

(** The pool while its constructors run: [ws] are the workers registered
    so far, in order. *)
Record registering (tc : Z) (ws : list nat) (st : state) : Prop := {
  reg_mutex : s_mutex st = false;
  reg_once : flag st = true;
  reg_barrier : is_Some (barrier st);
  reg_cursor : s_current_scheduler st = Z.of_nat (length ws);
  reg_slots :
    s_schedulers st =
      (Some <$> ws) ++ replicate (Z.to_nat (tc - 1) - length ws)%nat None;
  reg_bound : (length ws <= Z.to_nat (tc - 1))%nat;
  reg_live : Forall (fun p => (p < length (heap st))%nat) ws;
  reg_nodup : NoDup ws;
  reg_heap : heap st = replicate (length (heap st)) fresh_policy;
  reg_writes :
    slot_writes (trace st) = imap (fun i p => (Z.of_nat i, p)) ws;
  reg_reads : slot_reads (trace st) = []
}.

(** A pool in operation, every slot of the worker list filled. *)
Record dispatching (ws : list nat) (st : state) : Prop := {
  dsp_mutex : s_mutex st = false;
  dsp_slots : s_schedulers st = Some <$> ws;
  dsp_live : Forall (fun p => (p < length (heap st))%nat) ws;
  dsp_nodup : NoDup ws;
  dsp_cursor : 0 <= s_current_scheduler st <= Z.of_nat (length ws)
}.

(** The first wakes of a sequence of new fibers: who notifies, and which
    context. *)
Fixpoint dispatch_all (calls : list (nat * context)) : M unit :=
  match calls with
  | [] => ret tt
  | (self, ctx) :: rest =>
      awakened self ctx thread_locked_props_ctor ;;
      dispatch_all rest
  end.

(** The state a pool is in once its constructors have run. *)
Definition pool_of (thread_count : Z) (mains : list bool) : state :=
  match construct thread_count mains initial_state with
  | Done _ st => st
  | Fault _ => initial_state
  end.

(** ** The environment of a parked thread *)

Global Instance context_eq_dec : EqDecision context.
Proof. solve_decision. Defined.

Global Instance thread_locked_props_eq_dec : EqDecision thread_locked_props.
Proof. solve_decision. Defined.

Global Instance call_eq_dec : EqDecision call.
Proof. solve_decision. Defined.

(** Some thread called [self->notify()] during the wait that [w] ends. *)
Definition notified_in (self : nat) (w : wakeup) : Prop :=
  call_notify self ∈ meanwhile w.

Global Instance notified_in_dec self w : Decision (notified_in self w).
Proof. unfold notified_in. apply _. Defined.

(** Calls that return on any state in which the mutex is free and the
    policy they are made on is one of the [n] live ones. *)
Definition peer_call (n : nat) (c : call) : Prop :=
  match c with
  | call_awakened _ _ _ => False
  | call_accept p _ | call_pick_next p | call_has_ready_fibers p
  | call_notify p => (p < n)%nat
  end.

(** ** Example states *)

Definition example_fiber : context :=
  {| ctx_id := 7; is_pinned_context := false |}.

Definition example_dispatcher : context :=
  {| ctx_id := 1; is_pinned_context := true |}.

(** Two workers (policies 0 and 2) and the main policy (1). *)
Definition example_pool : state :=
  Eval vm_compute in pool_of 3 [false; true; false].

(** [example_pool] before any event, with [example_fiber] attached to the
    main policy, which created it. *)
Definition quiet_pool : state :=
  {| s_mutex := false; s_current_scheduler := 2;
     s_schedulers := [Some 0%nat; Some 2%nat];
     flag := true;
     barrier := Some {| b_threshold := 3; b_count := 3; b_generation := 1 |};
     heap := replicate 3
               {| m_local_queue := []; m_flag := false; m_suspend := false |};
     scheduler_ := {[ 7%nat := 1%nat ]};
     trace := [] |}.

(** The pool after [example_fiber] has been dispatched to policy 2 and
    picked there: it is attached to policy 2 and no queue holds it. *)
Definition running_pool : state :=
  {| s_mutex := false; s_current_scheduler := 1;
     s_schedulers := [Some 0%nat; Some 2%nat];
     flag := true;
     barrier := Some {| b_threshold := 3; b_count := 3; b_generation := 1 |};
     heap := replicate 3
               {| m_local_queue := []; m_flag := false; m_suspend := false |};
     scheduler_ := {[ 7%nat := 2%nat ]};
     trace := [] |}.

(** [quiet_pool] with the dispatcher context of policy 0 at the front of
    that policy's queue. *)
Definition pool_with_dispatcher : state :=
  {| s_mutex := false; s_current_scheduler := 2;
     s_schedulers := [Some 0%nat; Some 2%nat];
     flag := true;
     barrier := Some {| b_threshold := 3; b_count := 3; b_generation := 1 |};
     heap := [ {| m_local_queue := [example_dispatcher; example_fiber];
                  m_flag := false; m_suspend := false |};
               {| m_local_queue := []; m_flag := false; m_suspend := false |};
               {| m_local_queue := []; m_flag := false; m_suspend := false |} ];
     scheduler_ := {[ 1%nat := 0%nat ]};
     trace := [] |}.

(** The main policy alone, constructed with a thread count of 1. *)
Definition single_thread_pool : state :=
  Eval vm_compute in pool_of 1 [true].

(** Policy 0 parks; a peer first notifies policy 2, then hands policy 0 a
    context and notifies it; a third wait is not needed. *)
Definition example_env : list wakeup :=
  [ {| meanwhile := [call_notify 2]; clock := 5 |};
    {| meanwhile := [call_accept 0 example_fiber; call_notify 0];
       clock := 9 |};
    {| meanwhile := []; clock := 12 |} ].

(** ** Composing the operations *)

(** All the contexts that are queued anywhere, policy by policy. *)
Definition all_queued (st : state) : list context :=
  concat (m_local_queue <$> heap st).

(** A fiber that has run before becoming ready on the thread of [self] and
    being resumed there, [n] times over: what each [pick_next] yields. *)
Fixpoint resume (n : nat) (self : nat) (ctx : context)
    (props : thread_locked_props) : M (list (option context)) :=
  match n with
  | O => ret []
  | S n' =>
      props' <- awakened self ctx props ;;
      r <- pick_next self ;;
      rs <- resume n' self ctx props' ;;
      ret (r :: rs)
  end.

(** Calls made on one of the [n] live policies. *)
Definition live_call (n : nat) (c : call) : Prop :=
  match c with
  | call_accept p _ | call_awakened p _ _ | call_pick_next p
  | call_has_ready_fibers p | call_notify p => (p < n)%nat
  end.

(** *** What the fiber runtime keeps to

    The calls the source makes on a context have preconditions in the
    fiber library that the operations do not check themselves: a ready
    queue is an intrusive list over the one ready hook of a context, so a
    context that is pushed must be in no queue; [ctx->detach()] goes
    through the scheduler the context is attached to; and [attach] wants a
    context that is attached to none. *)

Definition linked (ctx : context) (st : state) : bool :=
  bool_decide (ctx_id ctx ∈ ctx_id <$> all_queued st).

Definition attached (ctx : context) (st : state) : bool :=
  match owner ctx st with
  | Some _ => true
  | None => false
  end.

(** The call [c] may be made in [st]: what it pushes is in no queue, what
    it detaches is attached, what it attaches is not. *)
Definition admissible (c : call) (st : state) : bool :=
  match c with
  | call_accept _ ctx => negb (linked ctx st)
  | call_awakened _ ctx _ =>
      negb (linked ctx st) && (is_pinned_context ctx || attached ctx st)
  | call_pick_next p =>
      match local_queue p st with
      | [] => true
      | ctx :: _ => is_pinned_context ctx || negb (attached ctx st)
      end
  | call_has_ready_fibers _ | call_notify _ => true
  end.

(** Every call of [cs] is admissible in the state it is made in. *)
Fixpoint runtime_contract (cs : list call) (st : state) : bool :=
  match cs with
  | [] => true
  | c :: rest =>
      admissible c st &&
      match run_call c st with
      | Done _ st' => runtime_contract rest st'
      | Fault _ => true
      end
  end.

(** The pool [st] with the fibers the runtime has created in it, each
    attached to the scheduler of the thread that created it. *)
Definition spawned (fibers : gmap nat nat) (st : state) : state :=
  set_owner fibers st.

(** The policy [s] with its wake flag set to [b]. *)
Definition with_flag (b : bool) (s : thread_locked_scheduler)
  : thread_locked_scheduler :=
  {| m_local_queue := m_local_queue s; m_flag := b;
     m_suspend := m_suspend s |}.

(** The state [notify] on [p] leaves behind. *)
Definition notified_state (p : nat) (s : thread_locked_scheduler) (st : state)
  : state :=
  {| s_mutex := false;
     s_current_scheduler := s_current_scheduler st;
     s_schedulers := s_schedulers st;
     flag := flag st;
     barrier := barrier st;
     heap := <[p := with_flag true s]> (heap st);
     scheduler_ := scheduler_ st;
     trace := trace st ++ [EvLock; EvFlag p true; EvUnlock; EvNotifyAll p] |}.

(** The state [suspend_until] on [p] returns in when it finds the flag
    raised. *)
Definition woken_state (p : nat) (s : thread_locked_scheduler) (st : state)
  : state :=
  {| s_mutex := false;
     s_current_scheduler := s_current_scheduler st;
     s_schedulers := s_schedulers st;
     flag := flag st;
     barrier := barrier st;
     heap := <[p := with_flag false s]> (heap st);
     scheduler_ := scheduler_ st;
     trace := trace st ++ [EvLock; EvFlag p false; EvUnlock] |}.

(** What the dispatches [calls] bring to slot [i] of a worker list of
    length [L], when [j] dispatches have gone before them: the dispatch
    number [k], counting from 1, is for slot [k mod L]. *)
Fixpoint delivered (L j i : Z) (calls : list (nat * context))
  : list context :=
  match calls with
  | [] => []
  | (_, ctx) :: rest =>
      (if (j + 1) mod L =? i then [ctx] else [])
        ++ delivered L (j + 1) i rest
  end.

(** ** The demonstration program *)

(** The ids of the thread-local objects are below the counter and differ
    from thread to thread. *)
Record ids_distinct (w : program) : Prop := {
  ids_below : forall t id,
    thread_local_obj w !! t = Some id -> 0 <= id < current_id w;
  ids_inj : forall t t' id,
    thread_local_obj w !! t = Some id ->
    thread_local_obj w !! t' = Some id -> t = t';
  ids_room : 0 <= current_id w
}.

(** The locals of a fiber name the thread it last saw itself on and the
    id of that thread's object. *)
Definition locals_agree (loc : fiber_locals) (w : program) : Prop :=
  thread_local_obj w !! my_thread_id loc = Some (my_local_id loc).

(** What one call of [foo] sends to [std::cout]. *)
Definition foo_line (fiber_id m_id : Z) : list string :=
  ["thread_local_object::foo: fiber id: "; pretty fiber_id;
   ", object id: "; pretty m_id; newline].

(** The program before anything has run, with [n] fibers counted. *)
Definition program_start (n : Z) : program :=
  {| current_id := 0; thread_local_obj := ∅; fiber_count := n;
     outputs := [] |}.

(** The turns of the loop of [fiber_function], given the threads the fiber
    finds itself on. *)
Definition turns (fiber_id : Z) (ts : list nat)
    (lw : fiber_locals * program) : fiber_locals * program :=
  foldl (fun '(loc, w) t => fiber_iteration fiber_id t loc w) lw ts.

(** Fibers run to their end one after the other: id, first thread, and
    the threads after the sleeps. *)
Definition run_fibers (fs : list (Z * nat * (nat -> nat))) (w : program)
  : program :=
  foldl (fun w '(fiber_id, start, resumed) =>
           fiber_function fiber_id start resumed w) w fs.

(** ** The two halves of a dispatch *)

(** The first-wake branch of [awakened] up to and including
    [lock.unlock()]: what it does while it holds the mutex. *)
Definition dispatch_select (ctx : context) : M unit :=
  lock ;;
  detach ctx ;;
  v <- pre_increment ;;
  n <- size_schedulers ;;
  r <- rem v n ;;
  store_current_scheduler r ;;
  unlock.

(** The rest of that branch, after the mutex has been released. *)
Definition dispatch_deliver (ctx : context) (props : thread_locked_props)
  : M thread_locked_props :=
  (fun st => Done (set_previously_awakened props) (log (EvMark ctx) st)) ;;
  i <- load_current_scheduler ;;
  next <- read_slot i ;;
  match next with
  | Some target => accept target ctx
  | None => fail null_pointer
  end ;;
  ret (set_previously_awakened props).

(** A wake-up during which no other thread has called anything. *)
Definition quiet (w : wakeup) : Prop := meanwhile w = [].

(** ** The two mutexes of the example *)

(** Following a list of outputs with the mutex that is held, if any:
    [None] when a mutex is locked while one is held, unlocked while it is
    not held, when something is printed without [print_mtx], or when
    [cnd_count] is notified with a mutex held. *)
Definition replay_step (held : option mutex_name) (o : output)
    : option (option mutex_name) :=
  match o, held with
  | Locked m, None => Some (Some m)
  | Unlocked print_mtx, Some print_mtx => Some None
  | Unlocked mtx_count, Some mtx_count => Some None
  | Printed _, Some print_mtx => Some held
  | NotifiedAll, None => Some None
  | _, _ => None
  end.

Fixpoint replay (held : option mutex_name) (o : list output)
    : option (option mutex_name) :=
  match o with
  | [] => Some held
  | x :: rest =>
      match replay_step held x with
      | Some held' => replay held' rest
      | None => None
      end
  end.

(** [w'] is [w] with more outputs, which start and end with no mutex held
    and keep to the discipline in between. *)
Definition disciplined (w w' : program) : Prop :=
  exists o, outputs w' = outputs w ++ o /\ replay None o = Some None.

(** * Verification *)

(** ** Running the monad *)

Lemma bind_done {A B} (m : M A) (k : A -> M B) st a st' :
  m st = Done a st' -> bind m k st = k a st'.
Proof. intros H. unfold bind. now rewrite H. Qed.

Lemma bind_fault {A B} (m : M A) (k : A -> M B) st f :
  m st = Fault f -> bind m k st = Fault f.
Proof. intros H. unfold bind. now rewrite H. Qed.

Lemma bind_inv {A B} (m : M A) (k : A -> M B) st b st'' :
  bind m k st = Done b st'' ->
  exists a st', m st = Done a st' /\ k a st' = Done b st''.
Proof.
  unfold bind. destruct (m st) as [a st'|f]; [eauto | discriminate].
Qed.

Lemma to_size_t_small z : 0 <= z < size_t_modulus -> to_size_t z = z.
Proof. intros H. unfold to_size_t. now apply Z.mod_small. Qed.

(** Unfolding the steps of a member function on a given state. *)
Ltac run :=
  repeat (progress
    (unfold bind, ret, fail, lock, unlock, deref, push_back, pop_front,
       set_flag, notify_all, detach, attach, pre_increment, post_increment,
       store_current_scheduler, load_current_scheduler, size_schedulers,
       rem, read_slot, write_slot, accept,
       log, set_mutex, set_current_scheduler, set_schedulers, set_once,
       set_barrier, set_heap, set_owner;
     cbn)).

Ltac run_with H := run; rewrite ?H; run.

Ltac run_all :=
  repeat (progress
    (unfold bind, ret, fail, lock, unlock, deref, push_back, pop_front,
       set_flag, notify_all, detach, attach, pre_increment, post_increment,
       store_current_scheduler, load_current_scheduler, size_schedulers,
       rem, read_slot, write_slot, accept,
       log, set_mutex, set_current_scheduler, set_schedulers, set_once,
       set_barrier, set_heap, set_owner in *;
     cbn in *)).

(** Inverting a run that is known to have returned. *)
Ltac invert_run :=
  repeat (run_all; try discriminate; simplify_eq; try case_match);
  run_all; try discriminate; simplify_eq.

Lemma awakened_dispatch self ctx props st t s_t :
  s_mutex st = false ->
  is_pinned_context ctx = false ->
  was_previously_awakened props = false ->
  0 <= s_current_scheduler st < size_t_modulus - 1 ->
  s_schedulers st !!
    Z.to_nat ((s_current_scheduler st + 1)
                mod Z.of_nat (length (s_schedulers st))) = Some (Some t) ->
  heap st !! t = Some s_t ->
  awakened self ctx props st =
    Done (set_previously_awakened props)
      (dispatched ctx
         ((s_current_scheduler st + 1) mod Z.of_nat (length (s_schedulers st)))
         t s_t st).
Proof.
  intros Hm Hpin Hprev Hc Hslot Ht.
  assert (Hn : Z.of_nat (length (s_schedulers st)) <> 0).
  { intros E. apply lookup_lt_Some in Hslot. lia. }
  unfold awakened. rewrite Hpin, Hprev.
  run_with Hm.
  rewrite (to_size_t_small (s_current_scheduler st + 1)) by lia.
  destruct (Z.eqb_spec (Z.of_nat (length (s_schedulers st))) 0) as [E|_];
    [contradiction|].
  run_with Hslot. run_with Ht.
  unfold dispatched.
  rewrite <- !app_assoc. reflexivity.
Qed.

(** ** What the operations leave alone *)

Lemma flag_of_insert (l : list thread_locked_scheduler) p q s x :
  l !! p = Some s -> m_flag x = m_flag s ->
  m_flag <$> <[p := x]> l !! q = m_flag <$> l !! q.
Proof.
  intros Hp Hx. destruct (decide (p = q)) as [->|Hne].
  - rewrite list_lookup_insert_eq by (eapply lookup_lt_Some; eauto).
    rewrite Hp. cbn. congruence.
  - now rewrite list_lookup_insert_ne.
Qed.

Ltac frame_flag :=
  intros; unfold flag_of; cbn;
  first
    [ reflexivity
    | erewrite flag_of_insert; [reflexivity | eassumption | reflexivity]
    | rewrite list_lookup_insert_ne by congruence; reflexivity ].

Lemma run_call_frame c st st' :
  run_call c st = Done tt st' ->
  s_mutex st' = false /\
  s_schedulers st' = s_schedulers st /\
  length (heap st') = length (heap st) /\
  forall p, c <> call_notify p -> flag_of p st' = flag_of p st.
Proof.
  intros H. destruct c; unfold run_call, awakened, pick_next,
    has_ready_fibers, notify in H; invert_run;
    (split; [reflexivity|]); (split; [reflexivity|]);
    (split; [now rewrite ?length_insert|]); frame_flag.
Qed.

(** ** First wake *)

(** C1, as stated, fails: in the dispatch of [example_fiber] the property
    is marked when the cursor has been stored but before the slot it names
    is read, that is, before the target is known. *)
Lemma awakened_marks_before_choice :
  exists props' st',
    awakened 1 example_fiber thread_locked_props_ctor quiet_pool
      = Done props' st' /\
    trace st' !! 5%nat = Some (EvMark example_fiber) /\
    trace st' !! 6%nat = Some (EvSlotRead 1 (Some 2%nat)) /\
    ~ marks_after_choice (trace st').
Proof.
  eexists _, _. split; [vm_compute; reflexivity|].
  split; [reflexivity|]. split; [reflexivity|].
  intros H. destruct (H 5%nat example_fiber eq_refl) as (j & slot & p & Hj & Hr).
  do 5 (destruct j as [|j]; [discriminate Hr|]). lia.
Qed.

(** C1, amended.  A first wake of a context that is not pinned, with a
    worker registered in the slot the cursor moves to: the context is
    detached, the cursor ends one further modulo the length of the worker
    list (the increment and the store of the remainder together), the
    mutex is released and the property is marked, and only then is the
    target read from the slot the cursor names, so that the mark comes
    before the target is chosen; the policy read from the slot gets the
    context at the back of its queue. *)
Theorem awakened_first_wake self ctx props st t s_t :
  s_mutex st = false ->
  is_pinned_context ctx = false ->
  was_previously_awakened props = false ->
  0 <= s_current_scheduler st < size_t_modulus - 1 ->
  s_schedulers st !!
    Z.to_nat ((s_current_scheduler st + 1)
                mod Z.of_nat (length (s_schedulers st))) = Some (Some t) ->
  heap st !! t = Some s_t ->
  exists props' st' tr,
    awakened self ctx props st = Done props' st' /\
    owner ctx st' = None /\
    s_current_scheduler st' =
      (s_current_scheduler st + 1) mod Z.of_nat (length (s_schedulers st)) /\
    was_previously_awakened props' = true /\
    s_schedulers st' !! Z.to_nat (s_current_scheduler st') = Some (Some t) /\
    local_queue t st' = local_queue t st ++ [ctx] /\
    (forall p, p <> t -> local_queue p st' = local_queue p st) /\
    trace st' = trace st ++ tr /\
    tr =
      [EvLock; EvDetach ctx;
       EvIncrement (s_current_scheduler st) (s_current_scheduler st + 1);
       EvStore (s_current_scheduler st'); EvUnlock; EvMark ctx;
       EvSlotRead (s_current_scheduler st') (Some t);
       EvLock; EvPushBack t ctx; EvUnlock] /\
    (forall i c j slot p,
       tr !! i = Some (EvMark c) ->
       tr !! j = Some (EvSlotRead slot p) ->
       (i < j)%nat) /\
    ~ marks_after_choice tr.
Proof.
  intros Hm Hpin Hprev Hc Hslot Ht.
  eexists _, _, _. split; [now apply (awakened_dispatch _ _ _ _ t s_t)|].
  unfold owner, local_queue, dispatched; cbn.
  split; [apply lookup_delete_eq|]. split; [reflexivity|].
  split; [unfold was_previously_awakened, set_previously_awakened in *;
          now rewrite Hprev|].
  split; [exact Hslot|].
  split.
  { rewrite list_lookup_insert_eq by (eapply lookup_lt_Some; eauto).
    now rewrite Ht. }
  split.
  { intros p Hp. now rewrite list_lookup_insert_ne by congruence. }
  split; [reflexivity|]. split; [reflexivity|]. split.
  - intros i c j slot p Hi Hj.
    assert (Ei : i = 5%nat).
    { do 10 (destruct i as [|i]; [first [discriminate Hi | reflexivity]|]).
      discriminate Hi. }
    assert (Ej : j = 6%nat).
    { do 10 (destruct j as [|j]; [first [discriminate Hj | reflexivity]|]).
      discriminate Hj. }
    lia.
  - intros H. destruct (H 5%nat ctx eq_refl) as (j & slot & p & Hj & Hr).
    do 5 (destruct j as [|j]; [discriminate Hr|]). lia.
Qed.

Lemma awakened_first_wake_witness :
  exists props' st',
    awakened 1 example_fiber thread_locked_props_ctor quiet_pool
      = Done props' st' /\
    owner example_fiber st' = None /\
    s_current_scheduler st' = 1 /\
    was_previously_awakened props' = true /\
    local_queue 2 st' = [example_fiber] /\
    ~ marks_after_choice (trace st').
Proof.
  destruct (awakened_first_wake 1 example_fiber thread_locked_props_ctor
              quiet_pool 2
              {| m_local_queue := []; m_flag := false; m_suspend := false |})
    as (props' & st' & tr & Hrun & Hown & Hcur & Hmark & _ & Hq & _ & Htr
        & _ & _ & Hno);
    [reflexivity | reflexivity | reflexivity
    | cbn; unfold size_t_modulus; lia | reflexivity | reflexivity |].
  exists props', st'. cbn in Htr. rewrite Htr.
  repeat split; assumption.
Defined.

(** ** Locking in the dispatch path *)

Lemma accept_relock p ctx st :
  s_mutex st = true -> accept p ctx st = Fault relock.
Proof. intros H. unfold accept, bind, lock. now rewrite H. Qed.

(** C5, as stated, fails: in the dispatch of [example_fiber] the target
    slot is read after the mutex has been released. *)
Lemma awakened_reads_slot_unlocked :
  exists props' st',
    awakened 1 example_fiber thread_locked_props_ctor quiet_pool
      = Done props' st' /\
    In (EvSlotRead 1 (Some 2%nat), false) (under_mutex false (trace st')) /\
    ~ selection_under_mutex (trace st').
Proof.
  eexists _, _. split; [vm_compute; reflexivity|].
  assert (Hin : In (EvSlotRead 1 (Some 2%nat), false)
                  (under_mutex false
                     [EvLock; EvDetach example_fiber; EvIncrement 2 3;
                      EvStore 1; EvUnlock; EvMark example_fiber;
                      EvSlotRead 1 (Some 2%nat); EvLock;
                      EvPushBack 2 example_fiber; EvUnlock])).
  { cbn. do 6 right. now left. }
  split; [exact Hin|].
  intros Hsel. specialize (Hsel _ _ Hin eq_refl). discriminate.
Qed.

(** C5, amended.  In the dispatch path the cursor is incremented and stored
    while the mutex is held; the mutex is then released, and the property
    is marked, the target slot read and [accept] called without it;
    [accept] takes the same mutex for its [push_back], and would fault had
    the caller kept it. *)
Theorem awakened_dispatch_locking self ctx props st t s_t :
  s_mutex st = false ->
  is_pinned_context ctx = false ->
  was_previously_awakened props = false ->
  0 <= s_current_scheduler st < size_t_modulus - 1 ->
  s_schedulers st !!
    Z.to_nat ((s_current_scheduler st + 1)
                mod Z.of_nat (length (s_schedulers st))) = Some (Some t) ->
  heap st !! t = Some s_t ->
  exists props' st' tr,
    awakened self ctx props st = Done props' st' /\
    trace st' = trace st ++ tr /\
    under_mutex false tr =
      [(EvLock, false); (EvDetach ctx, true);
       (EvIncrement (s_current_scheduler st) (s_current_scheduler st + 1),
        true);
       (EvStore (s_current_scheduler st'), true);
       (EvUnlock, true);
       (EvMark ctx, false);
       (EvSlotRead (s_current_scheduler st') (Some t), false);
       (EvLock, false); (EvPushBack t ctx, true); (EvUnlock, true)] /\
    s_mutex st' = false /\
    (forall st_held, s_mutex st_held = true ->
       accept t ctx st_held = Fault relock).
Proof.
  intros Hm Hpin Hprev Hc Hslot Ht.
  eexists _, _, _. split; [now apply (awakened_dispatch _ _ _ _ t s_t)|].
  split; [reflexivity|]. split; [reflexivity|]. split; [reflexivity|].
  intros st_held. apply accept_relock.
Qed.

Lemma awakened_dispatch_locking_witness :
  exists props' st' tr,
    awakened 1 example_fiber thread_locked_props_ctor quiet_pool
      = Done props' st' /\
    trace st' = trace quiet_pool ++ tr /\
    under_mutex false tr =
      [(EvLock, false); (EvDetach example_fiber, true);
       (EvIncrement 2 3, true); (EvStore (s_current_scheduler st'), true);
       (EvUnlock, true); (EvMark example_fiber, false);
       (EvSlotRead (s_current_scheduler st') (Some 2%nat), false);
       (EvLock, false); (EvPushBack 2 example_fiber, true);
       (EvUnlock, true)].
Proof.
  destruct (awakened_dispatch_locking 1 example_fiber
              thread_locked_props_ctor quiet_pool 2
              {| m_local_queue := []; m_flag := false; m_suspend := false |})
    as (props' & st' & tr & Hrun & Htr & Hlocks & _);
    [reflexivity | reflexivity | reflexivity
    | cbn; unfold size_t_modulus; lia | reflexivity | reflexivity |].
  exists props', st', tr. repeat split; assumption.
Defined.

(** ** Later wakes *)

Lemma awakened_pinned self ctx props st s :
  s_mutex st = false ->
  is_pinned_context ctx = true ->
  heap st !! self = Some s ->
  awakened self ctx props st = Done props (enqueued false self ctx s st).
Proof.
  intros Hm Hpin Hs. unfold awakened. rewrite Hpin.
  run_with Hm. run_with Hs. unfold enqueued.
  rewrite <- !app_assoc. reflexivity.
Qed.

Lemma awakened_again self ctx props st s :
  s_mutex st = false ->
  is_pinned_context ctx = false ->
  was_previously_awakened props = true ->
  heap st !! self = Some s ->
  awakened self ctx props st = Done props (enqueued true self ctx s st).
Proof.
  intros Hm Hpin Hprev Hs. unfold awakened. rewrite Hpin, Hprev.
  run_with Hm. run_with Hs. unfold enqueued.
  rewrite <- !app_assoc. reflexivity.
Qed.

(** C2, as stated, fails: [example_fiber], attached to policy 2 and woken
    there again, is queued on policy 2 but is attached to no policy
    afterwards. *)
Lemma awakened_again_detaches :
  exists st',
    awakened 2 example_fiber
      {| m_previously_awakened := true; notified := 1 |} running_pool
      = Done {| m_previously_awakened := true; notified := 1 |} st' /\
    local_queue 2 st' = local_queue 2 running_pool ++ [example_fiber] /\
    owner example_fiber running_pool = Some 2%nat /\
    owner example_fiber st' = None /\
    owner example_fiber st' <> owner example_fiber running_pool.
Proof.
  eexists. split; [vm_compute; reflexivity|].
  split; [reflexivity|]. split; [reflexivity|].
  split; [reflexivity|]. discriminate.
Qed.

(** C2, amended.  A later wake of a context that is not pinned detaches it
    (as every wake of such a context does) and puts it at the back of the
    calling policy's own queue; the property, the cursor, the worker list,
    the other queues, the wake flags and the attachment of every other
    context stay as they were. *)
Theorem awakened_subsequent_wake self ctx props st s :
  s_mutex st = false ->
  is_pinned_context ctx = false ->
  was_previously_awakened props = true ->
  heap st !! self = Some s ->
  exists st',
    awakened self ctx props st = Done props st' /\
    local_queue self st' = local_queue self st ++ [ctx] /\
    owner ctx st' = None /\
    (forall c, ctx_id c <> ctx_id ctx -> owner c st' = owner c st) /\
    (forall p, p <> self -> local_queue p st' = local_queue p st) /\
    (forall p, wake_flag p st' = wake_flag p st) /\
    s_current_scheduler st' = s_current_scheduler st /\
    s_schedulers st' = s_schedulers st /\
    trace st' = trace st ++
      [EvLock; EvDetach ctx; EvPushBack self ctx; EvUnlock].
Proof.
  intros Hm Hpin Hprev Hs.
  eexists. split; [now apply (awakened_again _ _ _ _ s)|].
  unfold owner, local_queue, wake_flag, enqueued; cbn.
  split.
  { rewrite list_lookup_insert_eq by (eapply lookup_lt_Some; eauto).
    now rewrite Hs. }
  split; [apply lookup_delete_eq|].
  split; [intros c Hc; now rewrite lookup_delete_ne by congruence|].
  split; [intros p Hp; now rewrite list_lookup_insert_ne by congruence|].
  split; [|repeat split].
  intros p. destruct (decide (self = p)) as [<-|Hne].
  - rewrite list_lookup_insert_eq by (eapply lookup_lt_Some; eauto).
    now rewrite Hs.
  - now rewrite list_lookup_insert_ne.
Qed.

Lemma awakened_subsequent_wake_witness :
  exists st',
    awakened 2 example_fiber
      {| m_previously_awakened := true; notified := 1 |} running_pool
      = Done {| m_previously_awakened := true; notified := 1 |} st' /\
    local_queue 2 st' = [example_fiber] /\
    owner example_fiber st' = None.
Proof.
  destruct (awakened_subsequent_wake 2 example_fiber
              {| m_previously_awakened := true; notified := 1 |} running_pool
              {| m_local_queue := []; m_flag := false; m_suspend := false |})
    as (st' & Hrun & Hq & Hown & _);
    [reflexivity | reflexivity | reflexivity | reflexivity |].
  exists st'. repeat split; assumption.
Defined.

(** ** Picking the next fiber *)

Lemma pick_next_front self st s ctx rest :
  s_mutex st = false ->
  heap st !! self = Some s ->
  m_local_queue s = ctx :: rest ->
  pick_next self st = Done (Some ctx) (picked self ctx rest s st).
Proof.
  intros Hm Hs Hq. unfold pick_next.
  run_with Hm. run_with Hs. rewrite Hq. run_with Hs. rewrite Hq.
  unfold picked. destruct (is_pinned_context ctx); run;
    rewrite <- !app_assoc; reflexivity.
Qed.

Lemma pick_next_empty self st s :
  s_mutex st = false ->
  heap st !! self = Some s ->
  m_local_queue s = [] ->
  pick_next self st = Done None (log EvUnlock (log EvLock st)).
Proof.
  intros Hm Hs Hq. unfold pick_next.
  run_with Hm. run_with Hs. rewrite Hq. run. reflexivity.
Qed.

Lemma has_ready_fibers_run self st s :
  s_mutex st = false ->
  heap st !! self = Some s ->
  has_ready_fibers self st =
    Done (negb (empty (m_local_queue s))) (log EvUnlock (log EvLock st)).
Proof.
  intros Hm Hs. unfold has_ready_fibers.
  run_with Hm. run_with Hs. reflexivity.
Qed.

Lemma same_but_trace_log e st : same_but_trace st (log e st).
Proof. repeat split. Qed.

Lemma same_but_trace_trans st1 st2 st3 :
  same_but_trace st1 st2 -> same_but_trace st2 st3 -> same_but_trace st1 st3.
Proof.
  unfold same_but_trace. intros (?&?&?&?&?&?&?) (?&?&?&?&?&?&?).
  repeat split; congruence.
Qed.

(** C3.  A pinned context woken on [self] goes to the back of the queue of
    [self] whatever its property says, and neither that [awakened] nor the
    [pick_next] that later takes it off the queue changes which policy any
    context is attached to: the one detaches nothing, the other attaches
    nothing. *)
Theorem pinned_context_stays self ctx props st s :
  s_mutex st = false ->
  is_pinned_context ctx = true ->
  heap st !! self = Some s ->
  (exists st',
     awakened self ctx props st = Done props st' /\
     local_queue self st' = local_queue self st ++ [ctx] /\
     (forall p, p <> self -> local_queue p st' = local_queue p st) /\
     scheduler_ st' = scheduler_ st /\
     trace st' = trace st ++ [EvLock; EvPushBack self ctx; EvUnlock]) /\
  (forall rest, m_local_queue s = ctx :: rest ->
     exists st',
       pick_next self st = Done (Some ctx) st' /\
       scheduler_ st' = scheduler_ st /\
       trace st' = trace st ++ [EvLock; EvPopFront self ctx; EvUnlock]).
Proof.
  intros Hm Hpin Hs. split.
  - eexists. split; [now apply (awakened_pinned _ _ _ _ s)|].
    unfold local_queue, enqueued; cbn.
    split.
    { rewrite list_lookup_insert_eq by (eapply lookup_lt_Some; eauto).
      now rewrite Hs. }
    split; [|split; reflexivity].
    intros p Hp. now rewrite list_lookup_insert_ne by congruence.
  - intros rest Hq. eexists.
    split; [now apply (pick_next_front _ _ s _ rest)|].
    unfold picked; cbn. rewrite Hpin. split; reflexivity.
Qed.

Lemma pinned_context_stays_witness :
  (exists st',
     awakened 0 example_dispatcher thread_locked_props_ctor
       pool_with_dispatcher = Done thread_locked_props_ctor st' /\
     local_queue 0 st' =
       [example_dispatcher; example_fiber; example_dispatcher] /\
     scheduler_ st' = {[ 1%nat := 0%nat ]}) /\
  (exists st',
     pick_next 0 pool_with_dispatcher = Done (Some example_dispatcher) st' /\
     scheduler_ st' = {[ 1%nat := 0%nat ]}).
Proof.
  destruct (pinned_context_stays 0 example_dispatcher
              thread_locked_props_ctor pool_with_dispatcher
              {| m_local_queue := [example_dispatcher; example_fiber];
                 m_flag := false; m_suspend := false |})
    as [(st1 & Hrun & Hq & _ & Hown & _) Hpick];
    [reflexivity | reflexivity | reflexivity |].
  destruct (Hpick [example_fiber] eq_refl) as (st2 & Hrun2 & Hown2 & _).
  split; [exists st1 | exists st2]; repeat split; assumption.
Defined.

(** C6.  [pick_next] yields the null pointer exactly when the queue of
    [self] is empty, and then changes nothing but the trace; otherwise it
    yields the front of the queue and leaves the rest of it, in order, with
    every other queue as it was.  [has_ready_fibers] tells whether the
    queue is non-empty and changes nothing but the trace. *)
Theorem pick_next_has_ready_fibers self st s :
  s_mutex st = false ->
  heap st !! self = Some s ->
  (exists r st',
     pick_next self st = Done r st' /\
     (r = None <-> local_queue self st = []) /\
     match local_queue self st with
     | [] => r = None /\ same_but_trace st st'
     | ctx :: rest =>
         r = Some ctx /\
         local_queue self st' = rest /\
         (forall p, p <> self -> local_queue p st' = local_queue p st)
     end) /\
  (exists b st',
     has_ready_fibers self st = Done b st' /\
     (b = true <-> local_queue self st <> []) /\
     (b = false <-> local_queue self st = []) /\
     same_but_trace st st').
Proof.
  intros Hm Hs. unfold local_queue. rewrite Hs. split.
  - destruct (m_local_queue s) as [|ctx rest] eqn:Hq.
    + eexists _, _. split; [now apply (pick_next_empty _ _ s)|].
      split; [tauto|]. split; [reflexivity|].
      eapply same_but_trace_trans; apply same_but_trace_log.
    + eexists _, _. split; [now apply (pick_next_front _ _ s ctx rest)|].
      split; [split; discriminate|]. split; [reflexivity|].
      unfold picked; cbn. split.
      * now rewrite list_lookup_insert_eq by (eapply lookup_lt_Some; eauto).
      * intros p Hp. now rewrite list_lookup_insert_ne by congruence.
  - eexists _, _. split; [now apply (has_ready_fibers_run _ _ s)|].
    split; [|split].
    + destruct (m_local_queue s); cbn; split; congruence.
    + destruct (m_local_queue s); cbn; split; congruence.
    + eapply same_but_trace_trans; apply same_but_trace_log.
Qed.

Lemma pick_next_has_ready_fibers_witness :
  (exists st',
     pick_next 0 pool_with_dispatcher = Done (Some example_dispatcher) st' /\
     local_queue 0 st' = [example_fiber]) /\
  (exists st', pick_next 1 pool_with_dispatcher = Done None st') /\
  (exists st', has_ready_fibers 0 pool_with_dispatcher = Done true st') /\
  (exists st', has_ready_fibers 1 pool_with_dispatcher = Done false st').
Proof.
  destruct (pick_next_has_ready_fibers 0 pool_with_dispatcher
              {| m_local_queue := [example_dispatcher; example_fiber];
                 m_flag := false; m_suspend := false |} eq_refl eq_refl)
    as [(r0 & st0 & Hp0 & _ & Hr0 & Hq0 & _) (b0 & st0' & Hh0 & Hb0 & _)].
  destruct (pick_next_has_ready_fibers 1 pool_with_dispatcher
              {| m_local_queue := []; m_flag := false; m_suspend := false |}
              eq_refl eq_refl)
    as [(r1 & st1 & Hp1 & _ & Hr1 & _) (b1 & st1' & Hh1 & _ & Hb1 & _)].
  cbn in Hr0, Hr1. subst r0 r1.
  assert (b0 = true) as -> by (apply Hb0; discriminate).
  assert (b1 = false) as -> by (apply Hb1; reflexivity).
  repeat split; eauto.
Defined.

(** ** The fiber property *)

Lemma awakened_props self ctx props st props' st' :
  awakened self ctx props st = Done props' st' ->
  props' = props \/ props' = set_previously_awakened props.
Proof.
  intros H. unfold awakened in H. invert_run; auto.
Qed.

(** C8.  A new property has not been awakened; marking it makes the query
    answer true, and marking it again changes nothing, not even the count
    of notifications; once the query answers true it does so after any
    further member calls and after any [awakened]; the query leaves the
    property as it is. *)
Theorem props_awakened_one_way :
  was_previously_awakened thread_locked_props_ctor = false /\
  (forall props,
     was_previously_awakened (set_previously_awakened props) = true) /\
  (forall props,
     set_previously_awakened (set_previously_awakened props)
       = set_previously_awakened props) /\
  (forall calls props,
     was_previously_awakened props = true ->
     was_previously_awakened
       (foldl (fun p c => run_props_call c p) props calls) = true) /\
  (forall props,
     run_props_call call_was_previously_awakened props = props) /\
  (forall self ctx props st props' st',
     awakened self ctx props st = Done props' st' ->
     was_previously_awakened props = true ->
     was_previously_awakened props' = true).
Proof.
  assert (Hset : forall props,
            was_previously_awakened (set_previously_awakened props) = true).
  { intros [[] n]; reflexivity. }
  split; [reflexivity|]. split; [exact Hset|].
  split; [intros [[] n]; reflexivity|].
  split.
  { induction calls as [|c calls IH]; intros props Hp; [exact Hp|].
    cbn. apply IH. destruct c; cbn; [exact Hp | apply Hset]. }
  split; [reflexivity|].
  intros self ctx props st props' st' Hrun Hp.
  destruct (awakened_props _ _ _ _ _ _ Hrun) as [-> | ->];
    [exact Hp | apply Hset].
Qed.

(** ** Registration *)

Lemma slot_writes_app tr1 tr2 :
  slot_writes (tr1 ++ tr2) = slot_writes tr1 ++ slot_writes tr2.
Proof.
  induction tr1 as [|e tr1 IH]; [reflexivity|].
  destruct e; cbn; now rewrite ?IH.
Qed.

Lemma slot_reads_app tr1 tr2 :
  slot_reads (tr1 ++ tr2) = slot_reads tr1 ++ slot_reads tr2.
Proof.
  induction tr1 as [|e tr1 IH]; [reflexivity|].
  destruct e; cbn; now rewrite ?IH.
Qed.

Lemma replicate_snoc {A} (n : nat) (x : A) :
  replicate n x ++ [x] = replicate (S n) x.
Proof. induction n as [|n IH]; cbn; [reflexivity | now rewrite IH]. Qed.

Lemma to_uint32_small z : 0 <= z < 2 ^ 32 -> to_uint32 z = z.
Proof. intros H. unfold to_uint32. now apply Z.mod_small. Qed.

(** The first constructor of the process. *)
Lemma ctor_initial tc m :
  1 <= tc < 2 ^ 32 ->
  (m = false -> 2 <= tc) ->
  exists st,
    thread_locked_scheduler_ctor tc m initial_state = Done 0%nat st /\
    registering tc (if m then [] else [0%nat]) st /\
    length (heap st) = 1%nat.
Proof.
  intros Htc Hm.
  unfold thread_locked_scheduler_ctor, allocate_policy, barrier_init,
    call_once, allocate_schedulers, barrier_wait, initial_state.
  run. rewrite (to_uint32_small tc) by lia.
  destruct (Z.eqb_spec tc 0) as [?|_]; [lia|]. run.
  rewrite (to_size_t_small (tc - 1)) by (unfold size_t_modulus; lia).
  destruct m; run.
  - eexists. split; [reflexivity|]. split; [|reflexivity].
    constructor; cbn; try reflexivity; try lia; eauto using NoDup_nil_2.
    now rewrite Nat.sub_0_r.
  - specialize (Hm eq_refl).
    destruct (Z.to_nat (tc - 1)) as [|k] eqn:Hk; [lia|]. run.
    change (Z.to_nat 0) with 0%nat. change (to_size_t (0 + 1)) with 1. run.
    eexists. split; [reflexivity|]. split; [|reflexivity].
    constructor; cbn; try reflexivity; try lia; eauto.
    + rewrite Hk. cbn. now rewrite Nat.sub_0_r.
    + apply NoDup_singleton.
Qed.

Lemma ctor_step tc ws st m :
  1 <= tc < 2 ^ 32 ->
  registering tc ws st ->
  (m = false -> (length ws < Z.to_nat (tc - 1))%nat) ->
  exists st',
    thread_locked_scheduler_ctor tc m st = Done (length (heap st)) st' /\
    registering tc (ws ++ if m then [] else [length (heap st)]) st' /\
    length (heap st') = S (length (heap st)).
Proof.
  intros Htc [Hmx Ho [b Hb] Hc Hsl Hbd Hlv Hnd Hhp Hw Hr] Hm.
  unfold thread_locked_scheduler_ctor, allocate_policy, barrier_init,
    call_once, allocate_schedulers, barrier_wait.
  run. rewrite Hb, Ho. destruct m; run; rewrite ?Hb; run.
  - eexists. split; [reflexivity|]. split.
    2:{ cbn. now rewrite length_app, Nat.add_1_r. }
    rewrite app_nil_r.
    constructor; cbn; eauto.
    + eapply Forall_impl; [exact Hlv|]. cbn. intros p Hp.
      rewrite length_app. cbn. lia.
    + rewrite length_app. cbn. rewrite Nat.add_1_r, <- replicate_snoc.
      now rewrite <- Hhp.
    + now rewrite slot_writes_app, Hw, app_nil_r.
    + now rewrite slot_reads_app, Hr.
  - specialize (Hm eq_refl).
    assert (Hlook :
      s_schedulers st !! Z.to_nat (s_current_scheduler st) = Some None).
    { rewrite Hc, Nat2Z.id, Hsl.
      rewrite lookup_app_r by (rewrite length_fmap; lia).
      rewrite length_fmap, Nat.sub_diag.
      destruct (Z.to_nat (tc - 1) - length ws)%nat eqn:E; [lia|reflexivity]. }
    rewrite Hlook. run.
    rewrite (to_size_t_small (s_current_scheduler st + 1))
      by (rewrite Hc; unfold size_t_modulus; lia).
    eexists. split; [reflexivity|]. split.
    2:{ cbn. now rewrite length_app, Nat.add_1_r. }
    constructor; cbn; eauto.
    + rewrite Hc, length_app. cbn. lia.
    + rewrite Hc, Nat2Z.id, Hsl.
      rewrite insert_app_r_alt by (rewrite length_fmap; lia).
      rewrite length_fmap, Nat.sub_diag, fmap_app, <- app_assoc.
      f_equal. rewrite length_app. cbn.
      destruct (Z.to_nat (tc - 1) - length ws)%nat eqn:E; [lia|].
      cbn. do 2 f_equal. lia.
    + rewrite length_app. cbn. lia.
    + rewrite length_app. cbn. apply Forall_app. split.
      * eapply Forall_impl; [exact Hlv|]. cbn. intros p Hp. lia.
      * repeat constructor. lia.
    + apply NoDup_app. split; [exact Hnd|]. split; [|apply NoDup_singleton].
      intros x Hx Hx'. apply list_elem_of_singleton in Hx'. subst x.
      rewrite Forall_forall in Hlv. specialize (Hlv _ Hx). lia.
    + rewrite length_app. cbn. rewrite Nat.add_1_r, <- replicate_snoc.
      now rewrite <- Hhp.
    + rewrite !slot_writes_app. cbn. rewrite Hw, imap_app. cbn.
      now rewrite !app_nil_r, Hc, Nat.add_0_r.
    + now rewrite !slot_reads_app, Hr.
Qed.

Lemma workers_from_length h h' mains :
  length (workers_from h mains) = length (workers_from h' mains).
Proof.
  revert h h'. induction mains as [|m mains IH]; intros h h'; [reflexivity|].
  cbn. rewrite !length_app, (IH (S h) (S h')). now destruct m.
Qed.

Lemma construct_registering tc mains : forall ws st,
  1 <= tc < 2 ^ 32 ->
  registering tc ws st ->
  (length ws + length (workers_from 0 mains) <= Z.to_nat (tc - 1))%nat ->
  exists ps st',
    construct tc mains st = Done ps st' /\
    registering tc (ws ++ workers_from (length (heap st)) mains) st'.
Proof.
  induction mains as [|m mains IH]; intros ws st Htc Hreg Hlen.
  - exists [], st. cbn. now rewrite app_nil_r.
  - cbn in Hlen. rewrite length_app in Hlen.
    destruct (ctor_step tc ws st m Htc Hreg) as (st1 & Hrun & Hreg1 & Hh1).
    { intros ->. cbn in Hlen. lia. }
    destruct (IH _ st1 Htc Hreg1) as (ps & st2 & Hrun2 & Hreg2).
    { rewrite length_app.
      rewrite (workers_from_length 0 1 mains).
      destruct m; cbn in *; lia. }
    exists (length (heap st) :: ps), st2. split.
    + cbn. rewrite (bind_done _ _ _ _ _ Hrun).
      now rewrite (bind_done _ _ _ _ _ Hrun2).
    + rewrite Hh1, <- app_assoc in Hreg2. exact Hreg2.
Qed.

(** A whole pool, from the start of the process. *)
Lemma construct_initial tc m mains :
  1 <= tc < 2 ^ 32 ->
  (length (workers_from 0 (m :: mains)) <= Z.to_nat (tc - 1))%nat ->
  exists ps st,
    construct tc (m :: mains) initial_state = Done ps st /\
    registering tc (workers_from 0 (m :: mains)) st.
Proof.
  intros Htc Hlen. cbn in Hlen. rewrite length_app in Hlen.
  destruct (ctor_initial tc m Htc) as (st1 & Hrun & Hreg1 & Hh1).
  { intros ->. cbn in Hlen. lia. }
  destruct (construct_registering tc mains _ st1 Htc Hreg1)
    as (ps & st2 & Hrun2 & Hreg2).
  { rewrite (workers_from_length 0 1 mains). destruct m; cbn in *; lia. }
  exists (0%nat :: ps), st2. split.
  - cbn. rewrite (bind_done _ _ _ _ _ Hrun).
    now rewrite (bind_done _ _ _ _ _ Hrun2).
  - rewrite Hh1 in Hreg2. cbn. destruct m; exact Hreg2.
Qed.

Lemma registering_length tc ws st :
  1 <= tc ->
  registering tc ws st ->
  Z.of_nat (length (s_schedulers st)) = tc - 1.
Proof.
  intros Htc Hreg. rewrite (reg_slots _ _ _ Hreg).
  rewrite length_app, length_fmap, length_replicate.
  pose proof (reg_bound _ _ _ Hreg). lia.
Qed.

Lemma registering_slot tc ws st (i : nat) p :
  registering tc ws st ->
  ws !! i = Some p ->
  s_schedulers st !! i = Some (Some p) /\ is_Some (heap st !! p).
Proof.
  intros Hreg Hi. split.
  - rewrite (reg_slots _ _ _ Hreg).
    apply lookup_app_l_Some. now rewrite list_lookup_fmap, Hi.
  - apply lookup_lt_is_Some_2.
    pose proof (reg_live _ _ _ Hreg) as Hlv.
    rewrite Forall_forall in Hlv. apply Hlv.
    eapply list_elem_of_lookup_2; eauto.
Qed.

(** ** The worker list *)

(** C4, as stated, fails: a pool constructed with a thread count of 3 has
    a worker list of length 2. *)
Lemma worker_list_is_one_shorter :
  exists ps st,
    construct 3 [false; true; false] initial_state = Done ps st /\
    length (s_schedulers st) = 2%nat /\
    Z.of_nat (length (s_schedulers st)) <> 3.
Proof.
  eexists _, _. split; [vm_compute; reflexivity|].
  split; [reflexivity|]. cbn. lia.
Qed.

(** C4, amended.  When every constructor of a pool is given the same
    thread count, the worker list has one slot less than that count (the
    main policy takes none); the writes to the list are, in order, slot 0
    by the first policy constructed as a worker, slot 1 by the second, and
    so on, one write per registered worker, after which slot [i] holds the
    [i]-th of them; and no later call on any policy changes the list. *)
Theorem worker_list_length_and_slots tc m mains :
  1 <= tc < 2 ^ 32 ->
  (length (workers_from 0 (m :: mains)) <= Z.to_nat (tc - 1))%nat ->
  exists ps st,
    construct tc (m :: mains) initial_state = Done ps st /\
    Z.of_nat (length (s_schedulers st)) = tc - 1 /\
    slot_writes (trace st) =
      imap (fun i p => (Z.of_nat i, p)) (workers_from 0 (m :: mains)) /\
    (forall (i : nat) p,
       workers_from 0 (m :: mains) !! i = Some p ->
       s_schedulers st !! i = Some (Some p)) /\
    (forall c st1 st2,
       run_call c st1 = Done tt st2 -> s_schedulers st2 = s_schedulers st1).
Proof.
  intros Htc Hlen.
  destruct (construct_initial tc m mains Htc Hlen) as (ps & st & Hrun & Hreg).
  exists ps, st. split; [exact Hrun|].
  split; [eapply registering_length; [lia | exact Hreg]|].
  split; [exact (reg_writes _ _ _ Hreg)|].
  split.
  - intros i p Hi. now apply (registering_slot _ _ _ _ _ Hreg).
  - intros c st1 st2 Hc. now apply run_call_frame in Hc.
Qed.

Lemma worker_list_length_and_slots_witness :
  exists ps st,
    construct 3 [false; true; false] initial_state = Done ps st /\
    Z.of_nat (length (s_schedulers st)) = 2 /\
    slot_writes (trace st) = [(0, 0%nat); (1, 2%nat)] /\
    s_schedulers st !! 0%nat = Some (Some 0%nat) /\
    s_schedulers st !! 1%nat = Some (Some 2%nat).
Proof.
  destruct (worker_list_length_and_slots 3 false [true; false])
    as (ps & st & Hrun & Hlen & Hw & Hs & _);
    [lia | cbn; lia |].
  exists ps, st. repeat split; try assumption.
  - now apply Hs.
  - now apply Hs.
Defined.

(** ** Dispatch needs a worker *)

Lemma awakened_empty_registry self ctx props st :
  s_mutex st = false ->
  is_pinned_context ctx = false ->
  was_previously_awakened props = false ->
  s_schedulers st = [] ->
  awakened self ctx props st = Fault division_by_zero.
Proof.
  intros Hm Hpin Hprev Hs. unfold awakened. rewrite Hpin, Hprev.
  run_with Hm. now rewrite Hs.
Qed.

Lemma read_slot_empty i st :
  s_schedulers st = [] -> read_slot i st = Fault out_of_range.
Proof. intros Hs. unfold read_slot. now rewrite Hs. Qed.

(** The pool once every worker has registered. *)
Lemma registering_complete tc ws st :
  registering tc ws st ->
  length ws = Z.to_nat (tc - 1) ->
  s_schedulers st = Some <$> ws.
Proof.
  intros Hreg Hlen. rewrite (reg_slots _ _ _ Hreg), Hlen, Nat.sub_diag.
  apply app_nil_r.
Qed.

Lemma constructed tc mains ps st :
  1 <= tc < 2 ^ 32 ->
  length (workers_from 0 mains) = Z.to_nat (tc - 1) ->
  construct tc mains initial_state = Done ps st ->
  (mains = [] /\ tc = 1 /\ st = initial_state) \/
  registering tc (workers_from 0 mains) st.
Proof.
  intros Htc Hlen Hrun. destruct mains as [|m mains].
  - left. cbn in *. inversion Hrun. repeat split. lia.
  - right.
    destruct (construct_initial tc m mains Htc) as (ps' & st' & Hrun' & Hreg);
      [lia|].
    rewrite Hrun in Hrun'. now inversion Hrun'.
Qed.

(** C9.  A pool constructed with a thread count of 1 has an empty worker
    list, and the first wake of a context that is not pinned then divides
    by zero ([s_schedulers] has no slot to read either); with every worker
    of the pool registered, such a wake returns exactly when the thread
    count is at least 2. *)
Theorem dispatch_needs_two_threads tc mains ps st self ctx props :
  1 <= tc < 2 ^ 32 ->
  length (workers_from 0 mains) = Z.to_nat (tc - 1) ->
  construct tc mains initial_state = Done ps st ->
  is_pinned_context ctx = false ->
  was_previously_awakened props = false ->
  (tc = 1 ->
     s_schedulers st = [] /\
     awakened self ctx props st = Fault division_by_zero /\
     forall i, read_slot i st = Fault out_of_range) /\
  ((exists props' st', awakened self ctx props st = Done props' st')
     <-> 2 <= tc).
Proof.
  intros Htc Hlen Hrun Hpin Hprev.
  assert (Hone : tc = 1 -> s_mutex st = false /\ s_schedulers st = []).
  { intros ->.
    destruct (constructed _ _ _ _ Htc Hlen Hrun) as [(_ & _ & ->)|Hreg];
      [split; reflexivity|].
    split; [exact (reg_mutex _ _ _ Hreg)|].
    rewrite (registering_complete _ _ _ Hreg Hlen).
    cbn in Hlen. now destruct (workers_from 0 mains). }
  split.
  - intros E. destruct (Hone E) as [Hm Hs].
    split; [exact Hs|].
    split; [now apply awakened_empty_registry|].
    intros i. now apply read_slot_empty.
  - split.
    + intros (props' & st' & Hd).
      destruct (Z.eq_dec tc 1) as [E|]; [|lia].
      destruct (Hone E) as [Hm Hs].
      rewrite (awakened_empty_registry _ _ _ _ Hm Hpin Hprev Hs) in Hd.
      discriminate.
    + intros Hge.
      destruct (constructed _ _ _ _ Htc Hlen Hrun) as [(_ & ? & _)|Hreg];
        [lia|].
      pose proof (registering_complete _ _ _ Hreg Hlen) as Hs.
      set (ws := workers_from 0 mains) in *.
      set (r := Z.to_nat ((s_current_scheduler st + 1)
                            mod Z.of_nat (length (s_schedulers st)))).
      assert (Hr : (r < length ws)%nat).
      { subst r. rewrite Hs, length_fmap.
        pose proof (Z.mod_pos_bound (s_current_scheduler st + 1)
                      (Z.of_nat (length ws))). lia. }
      destruct (lookup_lt_is_Some_2 _ _ Hr) as [t Ht].
      destruct (registering_slot _ _ _ _ _ Hreg Ht) as [Hslot [s_t Hst]].
      eexists _, _.
      apply (awakened_dispatch _ _ _ _ t s_t);
        try assumption; [exact (reg_mutex _ _ _ Hreg)|].
      rewrite (reg_cursor _ _ _ Hreg). unfold size_t_modulus. lia.
Qed.

Lemma dispatch_needs_two_threads_witness :
  construct 1 [true] initial_state = Done [0%nat] single_thread_pool /\
  s_schedulers single_thread_pool = [] /\
  awakened 0 example_fiber thread_locked_props_ctor single_thread_pool
    = Fault division_by_zero.
Proof.
  split; [reflexivity|].
  destruct (dispatch_needs_two_threads 1 [true] [0%nat] single_thread_pool
              0%nat example_fiber thread_locked_props_ctor)
    as [Hone _];
    [lia | reflexivity | reflexivity | reflexivity | reflexivity |].
  destruct (Hone eq_refl) as (Hs & Hd & _). split; assumption.
Defined.

(** ** Round robin *)

Lemma dispatch_step ws st self ctx :
  dispatching ws st ->
  0 < Z.of_nat (length ws) < 2 ^ 32 ->
  is_pinned_context ctx = false ->
  exists t st',
    ws !! Z.to_nat ((s_current_scheduler st + 1) mod Z.of_nat (length ws))
      = Some t /\
    awakened self ctx thread_locked_props_ctor st
      = Done (set_previously_awakened thread_locked_props_ctor) st' /\
    dispatching ws st' /\
    s_current_scheduler st' =
      (s_current_scheduler st + 1) mod Z.of_nat (length ws) /\
    slot_reads (trace st') =
      slot_reads (trace st) ++
        [(s_current_scheduler st + 1) mod Z.of_nat (length ws)] /\
    (forall p, p <> t -> local_queue p st' = local_queue p st).
Proof.
  intros [Hm Hs Hlv Hnd Hc] Hlen Hpin.
  pose proof (Z.mod_pos_bound (s_current_scheduler st + 1)
                (Z.of_nat (length ws)) ltac:(lia)) as Hr.
  destruct (lookup_lt_is_Some_2 ws
              (Z.to_nat ((s_current_scheduler st + 1)
                           mod Z.of_nat (length ws))) ltac:(lia)) as [t Ht].
  assert (Htl : (t < length (heap st))%nat).
  { rewrite Forall_forall in Hlv. apply Hlv.
    eapply list_elem_of_lookup_2; eauto. }
  destruct (lookup_lt_is_Some_2 _ _ Htl) as [s_t Hst].
  assert (Hl : length (s_schedulers st) = length ws)
    by now rewrite Hs, length_fmap.
  exists t. eexists. split; [exact Ht|]. split.
  { apply (awakened_dispatch _ _ _ _ t s_t); try assumption;
      [reflexivity | unfold size_t_modulus; lia |].
    now rewrite Hl, Hs, list_lookup_fmap, Ht. }
  rewrite Hl. unfold dispatched, local_queue; cbn.
  split; [constructor; cbn; auto; [|lia]|].
  { now rewrite length_insert. }
  split; [reflexivity|]. split.
  - rewrite slot_reads_app. reflexivity.
  - intros p Hp. now rewrite list_lookup_insert_ne by congruence.
Qed.

Lemma dispatch_all_targets ws calls : forall st j,
  dispatching ws st ->
  0 < Z.of_nat (length ws) < 2 ^ 32 ->
  Forall (fun c => is_pinned_context c.2 = false) calls ->
  0 <= j ->
  s_current_scheduler st mod Z.of_nat (length ws)
    = j mod Z.of_nat (length ws) ->
  exists st',
    dispatch_all calls st = Done tt st' /\
    dispatching ws st' /\
    slot_reads (trace st') =
      slot_reads (trace st) ++
        ((fun k => k mod Z.of_nat (length ws))
           <$> seqZ (j + 1) (Z.of_nat (length calls))) /\
    (forall w0, ws !! 0%nat = Some w0 ->
       j + Z.of_nat (length calls) < Z.of_nat (length ws) ->
       local_queue w0 st' = local_queue w0 st).
Proof.
  induction calls as [|[self ctx] calls IH]; intros st j Hd Hlen Hpin Hj Hcur.
  - exists st. cbn. rewrite app_nil_r.
    split; [reflexivity|]. split; [exact Hd|]. split; reflexivity.
  - inversion Hpin as [|? ? Hp1 Hp2]; subst. cbn in Hp1.
    destruct (dispatch_step ws st self ctx Hd Hlen Hp1)
      as (t & st1 & Ht & Hrun & Hd1 & Hc1 & Hr1 & Hq1).
    assert (Hmod : (s_current_scheduler st + 1) mod Z.of_nat (length ws)
                   = (j + 1) mod Z.of_nat (length ws)).
    { rewrite (Z.add_mod (s_current_scheduler st)) by lia.
      rewrite Hcur, <- Z.add_mod by lia. reflexivity. }
    destruct (IH st1 (j + 1) Hd1 Hlen Hp2 ltac:(lia))
      as (st2 & Hrun2 & Hd2 & Hr2 & Hq2).
    { rewrite Hc1, Hmod. apply Z.mod_mod. lia. }
    exists st2. split.
    { cbn. now rewrite (bind_done _ _ _ _ _ Hrun). }
    split; [exact Hd2|]. split.
    + rewrite Hr2, Hr1, <- app_assoc. f_equal.
      cbn [length].
      rewrite (seqZ_cons (j + 1) (Z.of_nat (S (length calls)))) by lia.
      cbn [fmap list_fmap app]. rewrite Hmod.
      do 3 f_equal; lia.
    + intros w0 Hw0 Hlt. cbn [length] in Hlt.
      rewrite Hq2 by (auto; lia). apply Hq1.
      intros ->. rewrite Hmod, Z.mod_small in Ht by lia.
      pose proof (NoDup_lookup _ _ _ _ (dsp_nodup _ _ Hd) Hw0 Ht). lia.
Qed.

Lemma dispatch_step_queue ws st self ctx :
  dispatching ws st ->
  0 < Z.of_nat (length ws) < 2 ^ 32 ->
  is_pinned_context ctx = false ->
  exists t st',
    ws !! Z.to_nat ((s_current_scheduler st + 1) mod Z.of_nat (length ws))
      = Some t /\
    awakened self ctx thread_locked_props_ctor st
      = Done (set_previously_awakened thread_locked_props_ctor) st' /\
    dispatching ws st' /\
    s_current_scheduler st' =
      (s_current_scheduler st + 1) mod Z.of_nat (length ws) /\
    local_queue t st' = local_queue t st ++ [ctx] /\
    (forall p, p <> t -> local_queue p st' = local_queue p st).
Proof.
  intros [Hm Hs Hlv Hnd Hc] Hlen Hpin.
  pose proof (Z.mod_pos_bound (s_current_scheduler st + 1)
                (Z.of_nat (length ws)) ltac:(lia)) as Hr.
  destruct (lookup_lt_is_Some_2 ws
              (Z.to_nat ((s_current_scheduler st + 1)
                           mod Z.of_nat (length ws))) ltac:(lia)) as [t Ht].
  assert (Htl : (t < length (heap st))%nat).
  { rewrite Forall_forall in Hlv. apply Hlv.
    eapply list_elem_of_lookup_2; eauto. }
  destruct (lookup_lt_is_Some_2 _ _ Htl) as [s_t Hst].
  assert (Hl : length (s_schedulers st) = length ws)
    by now rewrite Hs, length_fmap.
  exists t. eexists. split; [exact Ht|]. split.
  { apply (awakened_dispatch _ _ _ _ t s_t); try assumption;
      [reflexivity | unfold size_t_modulus; lia |].
    now rewrite Hl, Hs, list_lookup_fmap, Ht. }
  rewrite Hl. unfold dispatched, local_queue; cbn.
  split; [constructor; cbn; auto; [|lia]|].
  { now rewrite length_insert. }
  split; [reflexivity|]. split.
  - rewrite list_lookup_insert_eq by exact Htl. now rewrite Hst.
  - intros p Hp. now rewrite list_lookup_insert_ne by congruence.
Qed.

Lemma dispatch_all_delivers ws calls : forall st j,
  dispatching ws st ->
  0 < Z.of_nat (length ws) < 2 ^ 32 ->
  Forall (fun c => is_pinned_context c.2 = false) calls ->
  s_current_scheduler st mod Z.of_nat (length ws)
    = j mod Z.of_nat (length ws) ->
  exists st',
    dispatch_all calls st = Done tt st' /\
    dispatching ws st' /\
    forall (i : nat) w,
      ws !! i = Some w ->
      local_queue w st' =
        local_queue w st
          ++ delivered (Z.of_nat (length ws)) j (Z.of_nat i) calls.
Proof.
  induction calls as [|[self ctx] calls IH]; intros st j Hd Hlen Hpin Hcur.
  - exists st. split; [reflexivity|]. split; [exact Hd|].
    intros i w _. cbn. now rewrite app_nil_r.
  - inversion Hpin as [|? ? Hp1 Hp2]; subst. cbn in Hp1.
    destruct (dispatch_step_queue ws st self ctx Hd Hlen Hp1)
      as (t & st1 & Ht & Hrun & Hd1 & Hc1 & Hqt & Hq1).
    assert (Hmod : (s_current_scheduler st + 1) mod Z.of_nat (length ws)
                   = (j + 1) mod Z.of_nat (length ws)).
    { rewrite (Z.add_mod (s_current_scheduler st)) by lia.
      rewrite Hcur, <- Z.add_mod by lia. reflexivity. }
    destruct (IH st1 (j + 1) Hd1 Hlen Hp2) as (st2 & Hrun2 & Hd2 & Hq2).
    { rewrite Hc1, Hmod. apply Z.mod_mod. lia. }
    exists st2. split.
    { cbn. now rewrite (bind_done _ _ _ _ _ Hrun). }
    split; [exact Hd2|].
    intros i w Hw. rewrite (Hq2 i w Hw). cbn [delivered].
    rewrite app_assoc. f_equal.
    pose proof (Z.mod_pos_bound (j + 1) (Z.of_nat (length ws)) ltac:(lia)).
    rewrite Hmod in Ht.
    destruct (Z.eqb_spec ((j + 1) mod Z.of_nat (length ws)) (Z.of_nat i))
      as [E|E].
    + rewrite E, Nat2Z.id in Ht. assert (t = w) as -> by congruence.
      exact Hqt.
    + rewrite app_nil_r. apply Hq1. intros ->.
      pose proof (NoDup_lookup _ _ _ _ (dsp_nodup _ _ Hd) Hw Ht). lia.
Qed.

Lemma delivered_skip L i (n : nat) : forall j calls,
  (forall k, j < k <= j + Z.of_nat n -> k mod L <> i) ->
  delivered L j i calls = delivered L (j + Z.of_nat n) i (drop n calls).
Proof.
  induction n as [|n IH]; intros j calls Hk.
  - cbn. now rewrite Z.add_0_r.
  - destruct calls as [|[self ctx] calls]; [reflexivity|].
    cbn [delivered drop].
    destruct (Z.eqb_spec ((j + 1) mod L) i) as [E|_].
    { exfalso. apply (Hk (j + 1)); [lia | exact E]. }
    cbn [app]. rewrite (IH (j + 1) calls) by (intros k Hr; apply Hk; lia).
    f_equal. lia.
Qed.

Lemma delivered_front L i (n : nat) calls self ctx :
  0 < L ->
  0 <= i < L ->
  (forall k, 0 < k <= Z.of_nat n -> k mod L <> i) ->
  (Z.of_nat n + 1) mod L = i ->
  calls !! n = Some (self, ctx) ->
  exists q, delivered L 0 i calls = ctx :: q.
Proof.
  intros HL Hi Hk Hn Hc.
  rewrite (delivered_skip L i n 0 calls) by (intros k Hr; apply Hk; lia).
  rewrite (drop_S _ _ _ Hc). cbn [delivered].
  rewrite Z.add_0_l, Hn, Z.eqb_refl. cbn [app]. eauto.
Qed.

Lemma delivered_none L i calls :
  (forall k, 0 < k <= Z.of_nat (length calls) -> k mod L <> i) ->
  delivered L 0 i calls = [].
Proof.
  intros Hk.
  rewrite (delivered_skip L i (length calls) 0 calls)
    by (intros k Hr; apply Hk; lia).
  now rewrite drop_all.
Qed.

(** C10.  Registration and dispatch use the one counter: when the
    [thread_count - 1] workers of a pool have registered it equals the
    length of the worker list.  With at least two workers, the [k]-th
    dispatch after that (counting from 1) takes its target from slot
    [k mod (thread_count - 1)] and puts its fiber in the queue of the
    worker in that slot: the first dispatched fiber is at the front of the
    queue of the worker in slot 1, and the queue of the worker in slot 0
    stays empty until dispatch number [thread_count - 1], whose fiber is
    the first it gets. *)
Theorem first_dispatch_targets_slot_one tc mains ps st :
  3 <= tc < 2 ^ 32 ->
  length (workers_from 0 mains) = Z.to_nat (tc - 1) ->
  construct tc mains initial_state = Done ps st ->
  s_current_scheduler st = Z.of_nat (length (s_schedulers st)) /\
  Z.of_nat (length (s_schedulers st)) = tc - 1 /\
  (exists w0 w1,
     s_schedulers st !! 0%nat = Some (Some w0) /\
     s_schedulers st !! 1%nat = Some (Some w1) /\
     w0 <> w1) /\
  forall calls,
    Forall (fun c => is_pinned_context c.2 = false) calls ->
    exists st',
      dispatch_all calls st = Done tt st' /\
      slot_reads (trace st') =
        (fun k => k mod (tc - 1)) <$> seqZ 1 (Z.of_nat (length calls)) /\
      (calls <> [] -> slot_reads (trace st') !! 0%nat = Some 1) /\
      (forall k : nat,
         slot_reads (trace st') !! k = Some 0 -> tc - 1 <= Z.of_nat k + 1) /\
      (tc - 1 <= Z.of_nat (length calls) ->
         slot_reads (trace st') !! Z.to_nat (tc - 2) = Some 0) /\
      (forall (i : nat) w,
         s_schedulers st !! i = Some (Some w) ->
         local_queue w st' = delivered (tc - 1) 0 (Z.of_nat i) calls) /\
      (forall self ctx rest w1,
         calls = (self, ctx) :: rest ->
         s_schedulers st !! 1%nat = Some (Some w1) ->
         exists q, local_queue w1 st' = ctx :: q) /\
      (forall w0,
         s_schedulers st !! 0%nat = Some (Some w0) ->
         Z.of_nat (length calls) < tc - 1 ->
         local_queue w0 st' = []) /\
      (forall self ctx w0,
         calls !! Z.to_nat (tc - 2) = Some (self, ctx) ->
         s_schedulers st !! 0%nat = Some (Some w0) ->
         exists q, local_queue w0 st' = ctx :: q).
Proof.
  intros Htc Hlen Hrun.
  assert (Htc' : 1 <= tc < 2 ^ 32) by lia.
  destruct (constructed tc mains ps st Htc' Hlen Hrun)
    as [(_ & ? & _)|Hreg]; [lia|].
  pose proof (registering_complete _ _ _ Hreg Hlen) as Hs.
  set (ws := workers_from 0 mains) in *.
  assert (HL : Z.of_nat (length ws) = tc - 1) by lia.
  assert (Hl : length (s_schedulers st) = length ws)
    by now rewrite Hs, length_fmap.
  split; [rewrite Hl; exact (reg_cursor _ _ _ Hreg)|].
  split; [now rewrite Hl|].
  split.
  { destruct (lookup_lt_is_Some_2 ws 0%nat ltac:(lia)) as [w0 H0].
    destruct (lookup_lt_is_Some_2 ws 1%nat ltac:(lia)) as [w1 H1].
    exists w0, w1. rewrite Hs, !list_lookup_fmap, H0, H1.
    split; [reflexivity|]. split; [reflexivity|].
    intros ->.
    pose proof (NoDup_lookup _ _ _ _ (reg_nodup _ _ _ Hreg) H0 H1).
    discriminate. }
  intros calls Hpin.
  assert (Hd : dispatching ws st).
  { constructor; [exact (reg_mutex _ _ _ Hreg) | exact Hs
      | exact (reg_live _ _ _ Hreg) | exact (reg_nodup _ _ _ Hreg) |].
    rewrite (reg_cursor _ _ _ Hreg). lia. }
  assert (Hcur : s_current_scheduler st mod Z.of_nat (length ws)
                 = 0 mod Z.of_nat (length ws)).
  { rewrite (reg_cursor _ _ _ Hreg), Z.mod_same, Z.mod_0_l by lia.
    reflexivity. }
  destruct (dispatch_all_targets ws calls st 0 Hd ltac:(lia) Hpin ltac:(lia)
              Hcur) as (st' & Hrun' & _ & Hreads & _).
  destruct (dispatch_all_delivers ws calls st 0 Hd ltac:(lia) Hpin Hcur)
    as (st'' & Hrun'' & _ & Hdel).
  assert (st'' = st') as -> by congruence.
  rewrite (reg_reads _ _ _ Hreg), HL in Hreads. cbn in Hreads.
  assert (Hempty : forall w, local_queue w st = []).
  { intros w. unfold local_queue. rewrite (reg_heap _ _ _ Hreg).
    destruct (replicate _ _ !! w) as [s|] eqn:E; [|reflexivity].
    apply lookup_replicate in E as [-> _]. reflexivity. }
  assert (Hqueue : forall (i : nat) w,
            s_schedulers st !! i = Some (Some w) ->
            local_queue w st' = delivered (tc - 1) 0 (Z.of_nat i) calls).
  { intros i w Hw. rewrite Hs, list_lookup_fmap in Hw.
    destruct (ws !! i) as [w'|] eqn:E; [|discriminate].
    cbn in Hw. assert (w' = w) as -> by congruence.
    now rewrite (Hdel i w E), Hempty, HL. }
  exists st'. split; [exact Hrun'|]. split; [exact Hreads|].
  assert (Hlook : forall k : nat,
            (k < length calls)%nat ->
            slot_reads (trace st') !! k
              = Some ((1 + Z.of_nat k) mod (tc - 1))).
  { intros k Hk. rewrite Hreads, list_lookup_fmap.
    rewrite lookup_seqZ_lt by lia. reflexivity. }
  split; [|split; [|split; [|split; [|split; [|split]]]]].
  - intros Hne. rewrite Hlook by (destruct calls; [congruence | cbn; lia]).
    cbn. rewrite Z.mod_small by lia. reflexivity.
  - intros k Hk.
    assert (Hkl : (k < length calls)%nat).
    { apply lookup_lt_Some in Hk.
      rewrite Hreads, length_fmap, length_seqZ in Hk. lia. }
    rewrite Hlook in Hk by exact Hkl. inversion Hk as [Hz].
    destruct (Z_lt_le_dec (1 + Z.of_nat k) (tc - 1)) as [Hlt|]; [|lia].
    rewrite Z.mod_small in Hz by lia. lia.
  - intros Hge. rewrite Hlook by lia.
    replace (1 + Z.of_nat (Z.to_nat (tc - 2))) with (tc - 1) by lia.
    now rewrite Z.mod_same by lia.
  - exact Hqueue.
  - intros self ctx rest w1 -> Hw1. rewrite (Hqueue 1%nat w1 Hw1).
    apply (delivered_front (tc - 1) 1 0 _ self ctx); try lia.
    + cbn. now rewrite Z.mod_small by lia.
    + reflexivity.
  - intros w0 Hw0 Hlt. rewrite (Hqueue 0%nat w0 Hw0).
    apply delivered_none. intros k Hk. rewrite Z.mod_small by lia. lia.
  - intros self ctx w0 Hc Hw0. rewrite (Hqueue 0%nat w0 Hw0).
    apply (delivered_front (tc - 1) 0 (Z.to_nat (tc - 2)) _ self ctx);
      try lia; [| |exact Hc].
    + intros k Hk. rewrite Z.mod_small by lia. lia.
    + replace (Z.of_nat (Z.to_nat (tc - 2)) + 1) with (tc - 1) by lia.
      apply Z.mod_same. lia.
Qed.

Lemma first_dispatch_targets_slot_one_witness :
  s_current_scheduler example_pool = 2 /\
  Z.of_nat (length (s_schedulers example_pool)) = 2 /\
  exists st',
    dispatch_all [(1%nat, example_fiber);
                  (1%nat, {| ctx_id := 8; is_pinned_context := false |})]
      example_pool = Done tt st' /\
    slot_reads (trace st') = [1; 0] /\
    local_queue 2 st' = [example_fiber] /\
    local_queue 0 st' = [{| ctx_id := 8; is_pinned_context := false |}].
Proof.
  destruct (first_dispatch_targets_slot_one 3 [false; true; false]
              [0%nat; 1%nat; 2%nat] example_pool)
    as (Hc & Hl & _ & Hd);
    [lia | reflexivity | reflexivity |].
  split; [exact Hc|]. split; [exact Hl|].
  destruct (Hd [(1%nat, example_fiber);
                (1%nat, {| ctx_id := 8; is_pinned_context := false |})])
    as (st' & Hrun & Hreads & _ & _ & _ & Hq & _).
  { repeat constructor. }
  exists st'. split; [exact Hrun|]. split; [exact Hreads|].
  split; [exact (Hq 1%nat 2%nat eq_refl) | exact (Hq 0%nat 0%nat eq_refl)].
Defined.

(** ** Idle wait and wake-up *)

Lemma run_call_notify p st st' :
  run_call (call_notify p) st = Done tt st' -> flag_of p st' = Some true.
Proof.
  intros H. unfold run_call, notify in H. invert_run.
  unfold flag_of; cbn.
  rewrite list_lookup_insert_eq by (eapply lookup_lt_Some; eauto).
  reflexivity.
Qed.

Lemma run_call_keeps_raised c p st st' :
  run_call c st = Done tt st' ->
  flag_of p st = Some true -> flag_of p st' = Some true.
Proof.
  intros H Hp. destruct (decide (c = call_notify p)) as [->|Hne].
  - now apply run_call_notify in H.
  - apply run_call_frame in H as (_ & _ & _ & Hf). now rewrite Hf.
Qed.

Lemma run_calls_frame cs : forall st st',
  run_calls cs st = Done tt st' ->
  (s_mutex st = false -> s_mutex st' = false) /\
  s_schedulers st' = s_schedulers st /\
  length (heap st') = length (heap st) /\
  forall p,
    (flag_of p st = Some true -> flag_of p st' = Some true) /\
    (call_notify p ∈ cs -> flag_of p st' = Some true) /\
    (call_notify p ∉ cs -> flag_of p st' = flag_of p st).
Proof.
  induction cs as [|c cs IH]; intros st st' H.
  - cbn in H. inversion H; subst. repeat split; auto.
    intros Hin. now apply elem_of_nil in Hin.
  - cbn in H. apply bind_inv in H as ([] & st1 & Hc & Hcs).
    destruct (IH _ _ Hcs) as (Hm & Hs & Hh & Hf).
    pose proof (run_call_frame _ _ _ Hc) as (Hm1 & Hs1 & Hh1 & Hf1).
    split; [auto|]. split; [congruence|]. split; [congruence|].
    intros p. destruct (Hf p) as (Hup & Hin & Hout).
    split; [|split].
    + intros Hp. apply Hup. eapply run_call_keeps_raised; eauto.
    + intros Hp. apply elem_of_cons in Hp as [<-|Hp]; [|auto].
      apply Hup. now apply run_call_notify in Hc.
    + intros Hp. apply not_elem_of_cons in Hp as [Hne Hp].
      rewrite Hout by exact Hp. apply Hf1. congruence.
Qed.

Lemma cv_wait_frame w st st' :
  s_mutex st = true ->
  cv_wait w st = Done tt st' ->
  s_mutex st' = true /\
  s_schedulers st' = s_schedulers st /\
  length (heap st') = length (heap st) /\
  forall p,
    (flag_of p st = Some true -> flag_of p st' = Some true) /\
    (notified_in p w -> flag_of p st' = Some true) /\
    (~ notified_in p w -> flag_of p st' = flag_of p st).
Proof.
  intros Hm H. unfold cv_wait in H.
  apply bind_inv in H as ([] & st1 & Hu & H).
  apply bind_inv in H as ([] & st2 & Hc & Hl).
  unfold unlock in Hu. rewrite Hm in Hu. inversion Hu; subst st1; clear Hu.
  apply run_calls_frame in Hc as (Hm2 & Hs2 & Hh2 & Hf2).
  unfold lock in Hl. rewrite Hm2 in Hl by reflexivity.
  inversion Hl; subst st'; clear Hl. cbn.
  repeat split; try assumption; apply Hf2.
Qed.

Lemma deref_inv p st s st' :
  deref p st = Done s st' -> st' = st /\ heap st !! p = Some s.
Proof.
  unfold deref. destruct (heap st !! p); intros H; inversion H; auto.
Qed.

(** What a return of [wait] tells about [env]: [wait] with a predicate
    returns with the mutex held and the flag raised, either at once or
    after a wait during which [self] was notified, no earlier wait having
    seen a notification; while it has not returned, nobody has notified
    [self]. *)
Lemma wait_spec self env : forall st r st',
  s_mutex st = true ->
  wait self env st = Done r st' ->
  match r with
  | Some rest =>
      s_mutex st' = true /\
      flag_of self st' = Some true /\
      exists consumed,
        env = consumed ++ rest /\
        ((consumed = [] /\ flag_of self st = Some true) \/
         (flag_of self st = Some false /\
          exists pre w,
            consumed = pre ++ [w] /\
            notified_in self w /\
            Forall (fun w' => ~ notified_in self w') pre))
  | None =>
      s_mutex st' = false /\
      flag_of self st = Some false /\
      flag_of self st' = Some false /\
      Forall (fun w => ~ notified_in self w) env
  end.
Proof.
  induction env as [|w env IH]; intros st r st' Hm H; cbn in H;
    apply bind_inv in H as (s & st0 & Hd & H);
    apply deref_inv in Hd as [-> Hs];
    assert (Hfl : flag_of self st = Some (m_flag s))
      by (unfold flag_of; now rewrite Hs);
    destruct (m_flag s) eqn:Hflag.
  - inversion H; subst. repeat split; auto. exists []. auto.
  - apply bind_inv in H as ([] & st1 & Hu & H). inversion H; subst.
    unfold unlock in Hu. rewrite Hm in Hu. inversion Hu; subst. cbn.
    repeat split; auto.
  - inversion H; subst. repeat split; auto. exists []. auto.
  - apply bind_inv in H as ([] & st1 & Hw & H).
    destruct (cv_wait_frame _ _ _ Hm Hw) as (Hm1 & _ & _ & Hf).
    destruct (Hf self) as (_ & Hin & Hout).
    specialize (IH _ _ _ Hm1 H).
    destruct (decide (notified_in self w)) as [Hn|Hn].
    + specialize (Hin Hn). destruct r as [rest|].
      * destruct IH as (Hm' & Hf' & consumed & -> & Hcase).
        split; [exact Hm'|]. split; [exact Hf'|].
        exists (w :: consumed). split; [reflexivity|]. right.
        split; [exact Hfl|].
        destruct Hcase as [[-> _]|[Hc _]]; [|congruence].
        exists [], w. auto.
      * destruct IH as (_ & Hc & _). congruence.
    + specialize (Hout Hn). rewrite Hfl in Hout. destruct r as [rest|].
      * destruct IH as (Hm' & Hf' & consumed & -> & Hcase).
        split; [exact Hm'|]. split; [exact Hf'|].
        exists (w :: consumed). split; [reflexivity|]. right.
        split; [exact Hfl|].
        destruct Hcase as [[_ Hc]|[_ (pre & w' & -> & Hn' & Hpre)]];
          [congruence|].
        exists (w :: pre), w'. auto.
      * destruct IH as (Hm' & _ & Hf' & Hall). auto.
Qed.

(** The same for [wait_until]: it returns with the mutex held, at once
    with the flag raised, or after a wait that ended at or past the
    deadline or during which [self] was notified, every earlier wait
    having ended before the deadline without a notification; while it has
    not returned, every wait has ended before the deadline. *)
Lemma wait_until_spec self tp env : forall st r st',
  s_mutex st = true ->
  wait_until self tp env st = Done r st' ->
  match r with
  | Some rest =>
      s_mutex st' = true /\
      is_Some (flag_of self st') /\
      exists consumed,
        env = consumed ++ rest /\
        ((consumed = [] /\ flag_of self st = Some true) \/
         (flag_of self st = Some false /\
          exists pre w,
            consumed = pre ++ [w] /\
            (tp <= clock w \/ notified_in self w) /\
            Forall (fun w' => clock w' < tp /\ ~ notified_in self w') pre))
  | None =>
      s_mutex st' = false /\
      flag_of self st = Some false /\
      Forall (fun w => clock w < tp /\ ~ notified_in self w) env
  end.
Proof.
  induction env as [|w env IH]; intros st r st' Hm H; cbn in H;
    apply bind_inv in H as (s & st0 & Hd & H);
    apply deref_inv in Hd as [-> Hs];
    assert (Hfl : flag_of self st = Some (m_flag s))
      by (unfold flag_of; now rewrite Hs);
    destruct (m_flag s) eqn:Hflag.
  - inversion H; subst. repeat split; eauto. exists []. auto.
  - apply bind_inv in H as ([] & st1 & Hu & H). inversion H; subst.
    unfold unlock in Hu. rewrite Hm in Hu. inversion Hu; subst. cbn.
    repeat split; auto.
  - inversion H; subst. repeat split; eauto. exists []. auto.
  - apply bind_inv in H as (timeout & st1 & Hw & H).
    unfold cv_wait_until in Hw.
    apply bind_inv in Hw as ([] & st1' & Hw & Hret).
    inversion Hret; subst st1' timeout; clear Hret.
    destruct (cv_wait_frame _ _ _ Hm Hw) as (Hm1 & _ & Hlen & Hf).
    destruct (Hf self) as (_ & Hin & Hout).
    assert (Hsome : is_Some (flag_of self st1)).
    { unfold flag_of. rewrite fmap_is_Some. apply lookup_lt_is_Some_2.
      rewrite Hlen. eapply lookup_lt_Some; eauto. }
    destruct (Z.leb_spec tp (clock w)) as [Hto|Hno].
    + inversion H; subst. split; [exact Hm1|]. split; [exact Hsome|].
      exists [w]. split; [reflexivity|]. right. split; [exact Hfl|].
      exists [], w. auto.
    + specialize (IH _ _ _ Hm1 H).
      destruct (decide (notified_in self w)) as [Hn|Hn].
      * specialize (Hin Hn). destruct r as [rest|].
        -- destruct IH as (Hm' & Hf' & consumed & -> & Hcase).
           split; [exact Hm'|]. split; [exact Hf'|].
           exists (w :: consumed). split; [reflexivity|]. right.
           split; [exact Hfl|].
           destruct Hcase as [[-> _]|[Hc _]]; [|congruence].
           exists [], w. auto.
        -- destruct IH as (_ & Hc & _). congruence.
      * specialize (Hout Hn). rewrite Hfl in Hout. destruct r as [rest|].
        -- destruct IH as (Hm' & Hf' & consumed & -> & Hcase).
           split; [exact Hm'|]. split; [exact Hf'|].
           exists (w :: consumed). split; [reflexivity|]. right.
           split; [exact Hfl|].
           destruct Hcase as [[_ Hc]|[_ (pre & w' & -> & Hn' & Hpre)]];
             [congruence|].
           exists (w :: pre), w'. auto.
        -- destruct IH as (Hm' & _ & Hall). auto.
Qed.

Lemma run_call_total c st :
  s_mutex st = false ->
  peer_call (length (heap st)) c ->
  exists st', run_call c st = Done tt st'.
Proof.
  intros Hm Hc. destruct c as [p ctx|p ctx props|p|p|p]; cbn in Hc;
    try contradiction;
    destruct (lookup_lt_is_Some_2 _ _ Hc) as [s Hs]; cbn.
  - unfold accept. run_with Hm. run_with Hs. eauto.
  - destruct (m_local_queue s) as [|ctx rest] eqn:Hq.
    + rewrite (bind_done _ _ _ _ _ (pick_next_empty _ _ _ Hm Hs Hq)). eauto.
    + rewrite (bind_done _ _ _ _ _ (pick_next_front _ _ _ _ _ Hm Hs Hq)).
      eauto.
  - rewrite (bind_done _ _ _ _ _ (has_ready_fibers_run _ _ _ Hm Hs)). eauto.
  - unfold notify. run_with Hm. run_with Hs. eauto.
Qed.

Lemma run_calls_total cs : forall st,
  s_mutex st = false ->
  Forall (peer_call (length (heap st))) cs ->
  exists st', run_calls cs st = Done tt st'.
Proof.
  induction cs as [|c cs IH]; intros st Hm Hcs; [cbn; eauto|].
  inversion Hcs as [|? ? Hc Hcs']; subst.
  destruct (run_call_total c st Hm Hc) as (st1 & H1).
  destruct (run_call_frame _ _ _ H1) as (Hm1 & _ & Hl1 & _).
  destruct (IH st1 Hm1) as (st2 & H2); [now rewrite Hl1|].
  exists st2. cbn. now rewrite (bind_done _ _ _ _ _ H1).
Qed.

Lemma cv_wait_total w st :
  s_mutex st = true ->
  Forall (peer_call (length (heap st))) (meanwhile w) ->
  exists st', cv_wait w st = Done tt st'.
Proof.
  intros Hm Hw. unfold cv_wait.
  assert (Hu : unlock st = Done tt (log EvUnlock (set_mutex false st)))
    by (unfold unlock; now rewrite Hm).
  rewrite (bind_done _ _ _ _ _ Hu).
  destruct (run_calls_total (meanwhile w) (log EvUnlock (set_mutex false st)))
    as (st1 & H1); [reflexivity | exact Hw |].
  rewrite (bind_done _ _ _ _ _ H1).
  destruct (run_calls_frame _ _ _ H1) as (Hm1 & _). unfold lock.
  rewrite Hm1 by reflexivity. eauto.
Qed.

Lemma wait_total self env : forall st,
  s_mutex st = true ->
  (self < length (heap st))%nat ->
  Forall (fun w => Forall (peer_call (length (heap st))) (meanwhile w)) env ->
  exists r st', wait self env st = Done r st' /\
                length (heap st') = length (heap st).
Proof.
  induction env as [|w env IH]; intros st Hm Hself Henv;
    destruct (lookup_lt_is_Some_2 _ _ Hself) as [s Hs]; cbn;
    unfold bind at 1, deref; rewrite Hs; destruct (m_flag s).
  - eauto.
  - unfold bind, unlock. rewrite Hm. cbn. eauto.
  - eauto.
  - inversion Henv as [|? ? Hw Henv']; subst.
    destruct (cv_wait_total w st Hm Hw) as (st1 & H1).
    destruct (cv_wait_frame _ _ _ Hm H1) as (Hm1 & _ & Hl1 & _).
    rewrite (bind_done _ _ _ _ _ H1).
    destruct (IH st1 Hm1) as (r & st2 & H2 & Hl2);
      [now rewrite Hl1 | now rewrite Hl1 |].
    exists r, st2. split; [exact H2 | congruence].
Qed.

Lemma wait_until_total self tp env : forall st,
  s_mutex st = true ->
  (self < length (heap st))%nat ->
  Forall (fun w => Forall (peer_call (length (heap st))) (meanwhile w)) env ->
  exists r st', wait_until self tp env st = Done r st' /\
                length (heap st') = length (heap st).
Proof.
  induction env as [|w env IH]; intros st Hm Hself Henv;
    destruct (lookup_lt_is_Some_2 _ _ Hself) as [s Hs]; cbn;
    unfold bind at 1, deref; rewrite Hs; destruct (m_flag s).
  - eauto.
  - unfold bind, unlock. rewrite Hm. cbn. eauto.
  - eauto.
  - inversion Henv as [|? ? Hw Henv']; subst.
    destruct (cv_wait_total w st Hm Hw) as (st1 & H1).
    destruct (cv_wait_frame _ _ _ Hm H1) as (Hm1 & _ & Hl1 & _).
    assert (H1' : cv_wait_until tp w st = Done (tp <=? clock w) st1).
    { unfold cv_wait_until. now rewrite (bind_done _ _ _ _ _ H1). }
    rewrite (bind_done _ _ _ _ _ H1').
    destruct (tp <=? clock w); [unfold ret; eauto|].
    destruct (IH st1 Hm1) as (r & st2 & H2 & Hl2);
      [now rewrite Hl1 | now rewrite Hl1 |].
    exists r, st2. split; [exact H2 | congruence].
Qed.

Lemma finish_some self rest st r st' :
  s_mutex st = true ->
  finish self (Some rest) st = Done r st' ->
  r = Some rest /\ s_mutex st' = false /\ flag_of self st' = Some false.
Proof.
  intros Hm H. unfold finish in H. invert_run.
  unfold flag_of; cbn.
  rewrite list_lookup_insert_eq by (eapply lookup_lt_Some; eauto). auto.
Qed.

Lemma finish_total self rest st :
  s_mutex st = true ->
  (self < length (heap st))%nat ->
  exists st', finish self (Some rest) st = Done (Some rest) st'.
Proof.
  intros Hm Hself. destruct (lookup_lt_is_Some_2 _ _ Hself) as [s Hs].
  unfold finish. run_with Hs. rewrite Hm. eauto.
Qed.

Lemma suspend_until_unfold self tp env st :
  s_mutex st = false ->
  suspend_until self tp env st =
    (r <- (if time_point_max =? tp then wait self env
           else wait_until self tp env) ;;
     finish self r) (log EvLock (set_mutex true st)).
Proof.
  intros Hm. unfold suspend_until, finish.
  destruct (time_point_max =? tp); unfold bind at 1, lock; now rewrite Hm.
Qed.

Lemma flag_of_wake_flag p st b : flag_of p st = Some b -> wake_flag p st = b.
Proof.
  unfold flag_of, wake_flag. destruct (heap st !! p); cbn; congruence.
Qed.

Lemma suspend_until_inv self tp env st s r st' :
  s_mutex st = false ->
  heap st !! self = Some s ->
  suspend_until self tp env st = Done r st' ->
  match r with
  | Some rest =>
      wake_flag self st' = false /\
      s_mutex st' = false /\
      exists consumed,
        env = consumed ++ rest /\
        ((consumed = [] /\ m_flag s = true) \/
         (m_flag s = false /\
          exists pre w,
            consumed = pre ++ [w] /\
            if time_point_max =? tp
            then notified_in self w /\
                 Forall (fun w' => ~ notified_in self w') pre
            else (tp <= clock w \/ notified_in self w) /\
                 Forall (fun w' => clock w' < tp /\ ~ notified_in self w')
                   pre))
  | None =>
      m_flag s = false /\
      Forall (fun w => ~ notified_in self w) env /\
      (time_point_max <> tp -> Forall (fun w => clock w < tp) env)
  end.
Proof.
  intros Hm Hs H. rewrite suspend_until_unfold in H by exact Hm.
  apply bind_inv in H as (r0 & st1 & Hw & Hfin).
  set (st0 := log EvLock (set_mutex true st)) in *.
  assert (Hm0 : s_mutex st0 = true) by reflexivity.
  assert (Hf0 : flag_of self st0 = Some (m_flag s))
    by (unfold flag_of; cbn; now rewrite Hs).
  destruct (Z.eqb_spec time_point_max tp) as [Heq|Hne].
  - pose proof (wait_spec _ _ _ _ _ Hm0 Hw) as Hspec.
    destruct r0 as [rest0|].
    + destruct Hspec as (Hm1 & _ & consumed & -> & Hcase).
      apply finish_some in Hfin as (-> & Hm' & Hf'); [|exact Hm1].
      split; [now apply flag_of_wake_flag|]. split; [exact Hm'|].
      exists consumed. split; [reflexivity|]. rewrite Hf0 in Hcase.
      destruct Hcase as [[-> Hc]|[Hc (pre & w & -> & Hn & Hpre)]].
      * left. split; [reflexivity | congruence].
      * right. split; [congruence|]. exists pre, w. auto.
    + inversion Hfin; subst.
      destruct Hspec as (_ & Hc & _ & Hall). rewrite Hf0 in Hc.
      split; [congruence|]. split; [exact Hall|]. congruence.
  - pose proof (wait_until_spec _ _ _ _ _ _ Hm0 Hw) as Hspec.
    destruct r0 as [rest0|].
    + destruct Hspec as (Hm1 & _ & consumed & -> & Hcase).
      apply finish_some in Hfin as (-> & Hm' & Hf'); [|exact Hm1].
      split; [now apply flag_of_wake_flag|]. split; [exact Hm'|].
      exists consumed. split; [reflexivity|]. rewrite Hf0 in Hcase.
      destruct Hcase as [[-> Hc]|[Hc (pre & w & -> & Hn & Hpre)]].
      * left. split; [reflexivity | congruence].
      * right. split; [congruence|]. exists pre, w. auto.
    + inversion Hfin; subst.
      destruct Hspec as (_ & Hc & Hall). rewrite Hf0 in Hc.
      split; [congruence|]. split.
      * eapply Forall_impl; [exact Hall|]. cbn. tauto.
      * intros _. eapply Forall_impl; [exact Hall|]. cbn. tauto.
Qed.

Lemma ctor_flags tc m st p st' :
  thread_locked_scheduler_ctor tc m st = Done p st' ->
  p = length (heap st) /\
  flag_of p st' = Some false /\
  forall q, (q < length (heap st))%nat -> flag_of q st' = flag_of q st.
Proof.
  intros H.
  unfold thread_locked_scheduler_ctor, allocate_policy, barrier_init,
    call_once, allocate_schedulers, barrier_wait in H.
  invert_run; unfold flag_of; cbn;
    (split; [reflexivity|]);
    (split; [now rewrite list_lookup_middle|]);
    intros q Hq; now rewrite lookup_app_l.
Qed.

Lemma suspend_until_total self tp env st :
  s_mutex st = false ->
  (self < length (heap st))%nat ->
  Forall (fun w => Forall (peer_call (length (heap st))) (meanwhile w)) env ->
  exists r st', suspend_until self tp env st = Done r st'.
Proof.
  intros Hm Hself Henv. rewrite suspend_until_unfold by exact Hm.
  set (st0 := log EvLock (set_mutex true st)).
  assert (Hm0 : s_mutex st0 = true) by reflexivity.
  assert (Hres : exists r st1,
            (if time_point_max =? tp then wait self env
             else wait_until self tp env) st0 = Done r st1 /\
            length (heap st1) = length (heap st0)).
  { destruct (time_point_max =? tp);
      [apply wait_total | apply wait_until_total]; assumption. }
  destruct Hres as (r & st1 & Hw & Hl).
  rewrite (bind_done _ _ _ _ _ Hw). destruct r as [rest|].
  - assert (Hm1 : s_mutex st1 = true).
    { destruct (time_point_max =? tp).
      + now pose proof (wait_spec _ _ _ _ _ Hm0 Hw) as (? & _).
      + now pose proof (wait_until_spec _ _ _ _ _ _ Hm0 Hw) as (? & _). }
    destruct (finish_total self rest st1 Hm1) as (st2 & H2);
      [now rewrite Hl|]. eauto.
  - cbn. unfold ret. eauto.
Qed.

(** C7.  Whenever [suspend_until] returns, in either branch, the wake flag
    of [self] is clear.  With the forever sentinel it returns only on a
    raised flag: one raised before the call, or by a [notify] on [self]
    during the last wait; as long as it has not returned, nobody has
    notified [self].  With a deadline every wait but the last has ended
    before the deadline, it has returned once a wait ends at or past the
    deadline, and with the deadline already passed it returns after at
    most one wait.  No call but [notify] on a policy changes that policy's
    wake flag, and a constructor leaves the flags of the existing policies
    alone and the new one clear.  When the calls peers make in the meantime
    return, so does [suspend_until], or the thread is still parked at the
    end of [env]. *)
Theorem suspend_until_wakes self time_point env st s :
  s_mutex st = false ->
  heap st !! self = Some s ->
  (forall rest st',
     suspend_until self time_point env st = Done (Some rest) st' ->
     wake_flag self st' = false /\
     s_mutex st' = false /\
     exists consumed,
       env = consumed ++ rest /\
       (time_point = time_point_max ->
          (consumed = [] /\ m_flag s = true) \/
          (m_flag s = false /\
           exists pre w,
             consumed = pre ++ [w] /\ notified_in self w /\
             Forall (fun w' => ~ notified_in self w') pre)) /\
       (time_point <> time_point_max ->
          (consumed = [] /\ m_flag s = true) \/
          (m_flag s = false /\
           exists pre w,
             consumed = pre ++ [w] /\
             (time_point <= clock w \/ notified_in self w) /\
             Forall (fun w' => clock w' < time_point) pre))) /\
  (forall st',
     suspend_until self time_point env st = Done None st' ->
     m_flag s = false /\
     Forall (fun w => ~ notified_in self w) env /\
     (time_point <> time_point_max ->
        Forall (fun w => clock w < time_point) env)) /\
  (time_point <> time_point_max ->
   forall w env',
     env = w :: env' ->
     time_point <= clock w ->
     forall r st',
       suspend_until self time_point env st = Done r st' ->
       r = Some env \/ r = Some env') /\
  (forall c p st1 st2,
     run_call c st1 = Done tt st2 ->
     c <> call_notify p ->
     flag_of p st2 = flag_of p st1) /\
  (forall tc m st1 p st2,
     thread_locked_scheduler_ctor tc m st1 = Done p st2 ->
     flag_of p st2 = Some false /\
     forall q, (q < length (heap st1))%nat -> flag_of q st2 = flag_of q st1) /\
  (Forall (fun w => Forall (peer_call (length (heap st))) (meanwhile w)) env ->
   exists r st', suspend_until self time_point env st = Done r st').
Proof.
  intros Hm Hs.
  split; [|split; [|split; [|split; [|split]]]].
  - intros rest st' H.
    pose proof (suspend_until_inv _ _ _ _ _ _ _ Hm Hs H)
      as (Hf & Hm' & consumed & Henv & Hcase).
    split; [exact Hf|]. split; [exact Hm'|].
    exists consumed. split; [exact Henv|]. split.
    + intros ->. rewrite Z.eqb_refl in Hcase. exact Hcase.
    + intros Hne.
      destruct (Z.eqb_spec time_point_max time_point) as [E|_];
        [congruence|].
      destruct Hcase as [Hc|(Hc & pre & w & Hcons & Hw & Hpre)];
        [now left|].
      right. split; [exact Hc|]. exists pre, w.
      split; [exact Hcons|]. split; [exact Hw|].
      eapply Forall_impl; [exact Hpre|]. cbn. tauto.
  - intros st' H.
    pose proof (suspend_until_inv _ _ _ _ _ _ _ Hm Hs H) as (Hf & Hn & Hd).
    split; [exact Hf|]. split; [exact Hn|]. intros Hne. apply Hd. congruence.
  - intros Hne w env' -> Hpast r st' H.
    pose proof (suspend_until_inv _ _ _ _ _ _ _ Hm Hs H) as Hinv.
    destruct (Z.eqb_spec time_point_max time_point) as [E|_];
      [congruence|].
    destruct r as [rest|].
    + destruct Hinv as (_ & _ & consumed & Henv & Hcase).
      destruct Hcase as [[-> _]|(_ & pre & w0 & -> & _ & Hpre)].
      * left. cbn in Henv. congruence.
      * right. destruct pre as [|w1 pre].
        -- cbn in Henv. congruence.
        -- cbn in Henv. inversion Henv; subst w1.
           inversion Hpre as [|? ? [Hlt _] _]; subst. lia.
    + destruct Hinv as (_ & _ & Hd).
      specialize (Hd ltac:(congruence)).
      inversion Hd as [|? ? Hlt _]; subst. lia.
  - intros c p st1 st2 H Hne.
    apply run_call_frame in H as (_ & _ & _ & Hf). now apply Hf.
  - intros tc m st1 p st2 H. now apply ctor_flags in H as (_ & ? & ?).
  - intros Henv. apply suspend_until_total; [exact Hm | | exact Henv].
    eapply lookup_lt_Some; eauto.
Qed.

Lemma suspend_until_wakes_witness :
  exists st',
    suspend_until 0 time_point_max example_env quiet_pool
      = Done (Some [ {| meanwhile := []; clock := 12 |} ]) st' /\
    wake_flag 0 st' = false /\
    wake_flag 2 st' = true /\
    local_queue 0 st' = [example_fiber].
Proof.
  destruct (suspend_until_wakes 0 time_point_max example_env quiet_pool
              fresh_policy eq_refl eq_refl) as (Hret & _).
  assert (Hrun : exists st',
            suspend_until 0 time_point_max example_env quiet_pool
              = Done (Some [ {| meanwhile := []; clock := 12 |} ]) st' /\
            wake_flag 2 st' = true /\
            local_queue 0 st' = [example_fiber]).
  { eexists. split; [vm_compute; reflexivity|]. split; reflexivity. }
  destruct Hrun as (st' & Hrun & H2 & Hq).
  exists st'. split; [exact Hrun|].
  split; [exact (proj1 (Hret _ _ Hrun))|]. split; assumption.
Defined.

(** * Further properties *)

(** ** Hand-off and pinning *)

Lemma accept_run p ctx st s :
  s_mutex st = false ->
  heap st !! p = Some s ->
  accept p ctx st = Done tt (enqueued false p ctx s st).
Proof.
  intros Hm Hs. unfold accept. run_with Hm. run_with Hs. unfold enqueued.
  rewrite <- !app_assoc. reflexivity.
Qed.

(** X1.  [accept] puts the context at the back of the queue of the policy
    it is called on and changes neither an attachment nor a wake flag; the
    next [pick_next] of that policy yields the front of the lengthened
    queue, attached to the policy unless it is pinned, and leaves the rest
    queued in order. *)
Theorem accept_pick_next_fifo p ctx st s :
  s_mutex st = false ->
  heap st !! p = Some s ->
  exists st1,
    accept p ctx st = Done tt st1 /\
    local_queue p st1 = local_queue p st ++ [ctx] /\
    (forall q, q <> p -> local_queue q st1 = local_queue q st) /\
    scheduler_ st1 = scheduler_ st /\
    (forall q, wake_flag q st1 = wake_flag q st) /\
    exists c rest st2,
      local_queue p st ++ [ctx] = c :: rest /\
      pick_next p st1 = Done (Some c) st2 /\
      local_queue p st2 = rest /\
      (is_pinned_context c = false -> owner c st2 = Some p) /\
      (is_pinned_context c = true -> scheduler_ st2 = scheduler_ st).
Proof.
  intros Hm Hs.
  assert (Hlt : (p < length (heap st))%nat) by (eapply lookup_lt_Some; eauto).
  set (s1 := {| m_local_queue := m_local_queue s ++ [ctx];
                m_flag := m_flag s; m_suspend := m_suspend s |}).
  set (st1 := enqueued false p ctx s st).
  assert (Hs1 : heap st1 !! p = Some s1)
    by (cbn; now rewrite list_lookup_insert_eq).
  exists st1.
  split; [now apply accept_run|].
  split; [unfold local_queue; now rewrite Hs1, Hs|].
  split.
  { intros q Hq. unfold local_queue. cbn.
    now rewrite list_lookup_insert_ne by congruence. }
  split; [reflexivity|].
  split.
  { intros q. unfold wake_flag. destruct (decide (p = q)) as [<-|Hne].
    - now rewrite Hs1, Hs.
    - cbn. now rewrite list_lookup_insert_ne. }
  unfold local_queue at 1. rewrite Hs.
  destruct (m_local_queue s ++ [ctx]) as [|c rest] eqn:Hq.
  { destruct (m_local_queue s); discriminate. }
  exists c, rest, (picked p c rest s1 st1). split; [reflexivity|].
  split; [now apply pick_next_front|].
  unfold picked, owner, local_queue. cbn.
  split.
  { rewrite list_lookup_insert_eq
      by (rewrite length_insert; exact Hlt). reflexivity. }
  split; intros ->; [apply lookup_insert_eq | reflexivity].
Qed.

Lemma accept_pick_next_fifo_witness :
  exists st1 st2,
    accept 0 example_fiber pool_with_dispatcher = Done tt st1 /\
    local_queue 0 st1 = [example_dispatcher; example_fiber; example_fiber] /\
    pick_next 0 st1 = Done (Some example_dispatcher) st2 /\
    local_queue 0 st2 = [example_fiber; example_fiber].
Proof.
  destruct (accept_pick_next_fifo 0 example_fiber pool_with_dispatcher
              {| m_local_queue := [example_dispatcher; example_fiber];
                 m_flag := false; m_suspend := false |} eq_refl eq_refl)
    as (st1 & Hrun & Hq & _ & _ & _ & c & rest & st2 & Hsplit & Hpick & Hq2 & _).
  cbn in Hsplit. injection Hsplit as <- <-.
  exists st1, st2.
  split; [exact Hrun|]. split; [exact Hq|]. split; [exact Hpick | exact Hq2].
Defined.

(** X2.  The hand-off of a first wake, seen from both ends: the notifier's
    [awakened] leaves the context attached to nobody and in the queue of
    the target; when that queue was empty, the target's next [pick_next]
    yields the context and attaches it to the target, every queue is as it
    was before the wake, and no other context has changed hands. *)
Theorem first_wake_hand_off self ctx props st t s_t :
  s_mutex st = false ->
  is_pinned_context ctx = false ->
  was_previously_awakened props = false ->
  0 <= s_current_scheduler st < size_t_modulus - 1 ->
  s_schedulers st !!
    Z.to_nat ((s_current_scheduler st + 1)
                mod Z.of_nat (length (s_schedulers st))) = Some (Some t) ->
  heap st !! t = Some s_t ->
  m_local_queue s_t = [] ->
  exists props' st1 st2,
    awakened self ctx props st = Done props' st1 /\
    was_previously_awakened props' = true /\
    owner ctx st1 = None /\
    local_queue t st1 = [ctx] /\
    pick_next t st1 = Done (Some ctx) st2 /\
    owner ctx st2 = Some t /\
    (forall p, local_queue p st2 = local_queue p st) /\
    (forall c, ctx_id c <> ctx_id ctx -> owner c st2 = owner c st).
Proof.
  intros Hm Hpin Hprev Hc Hslot Ht Hq.
  assert (Hlt : (t < length (heap st))%nat) by (eapply lookup_lt_Some; eauto).
  set (r := (s_current_scheduler st + 1)
              mod Z.of_nat (length (s_schedulers st))) in *.
  set (s1 := {| m_local_queue := m_local_queue s_t ++ [ctx];
                m_flag := m_flag s_t; m_suspend := m_suspend s_t |}).
  set (st1 := dispatched ctx r t s_t st).
  assert (Hs1 : heap st1 !! t = Some s1)
    by (cbn; now rewrite list_lookup_insert_eq).
  exists (set_previously_awakened props), st1, (picked t ctx [] s1 st1).
  split; [now apply awakened_dispatch|].
  split.
  { unfold was_previously_awakened, set_previously_awakened in *.
    now rewrite Hprev. }
  split; [apply lookup_delete_eq|].
  split; [unfold local_queue; rewrite Hs1; cbn; now rewrite Hq|].
  split.
  { apply pick_next_front; [reflexivity | exact Hs1 |]. cbn. now rewrite Hq. }
  unfold picked, owner, local_queue. cbn. rewrite Hpin.
  split; [apply lookup_insert_eq|].
  split.
  - intros p. rewrite list_insert_insert_eq.
    destruct (decide (t = p)) as [<-|Hne].
    + rewrite list_lookup_insert_eq by exact Hlt. now rewrite Ht, Hq.
    + now rewrite list_lookup_insert_ne.
  - intros c Hne. rewrite lookup_insert_ne by congruence.
    now rewrite lookup_delete_ne by congruence.
Qed.

Lemma first_wake_hand_off_witness :
  exists props' st1 st2,
    awakened 1 example_fiber thread_locked_props_ctor quiet_pool
      = Done props' st1 /\
    owner example_fiber quiet_pool = Some 1%nat /\
    owner example_fiber st1 = None /\
    pick_next 2 st1 = Done (Some example_fiber) st2 /\
    owner example_fiber st2 = Some 2%nat.
Proof.
  destruct (first_wake_hand_off 1 example_fiber thread_locked_props_ctor
              quiet_pool 2 fresh_policy)
    as (props' & st1 & st2 & Hrun & _ & Ho1 & _ & Hpick & Ho2 & _);
    [reflexivity | reflexivity | reflexivity
    | cbn; unfold size_t_modulus; lia | reflexivity | reflexivity
    | reflexivity |].
  exists props', st1, st2.
  split; [exact Hrun|]. split; [reflexivity|]. split; [exact Ho1|].
  split; [exact Hpick | exact Ho2].
Defined.

Lemma resume_cycle self ctx props st s :
  s_mutex st = false ->
  is_pinned_context ctx = false ->
  was_previously_awakened props = true ->
  heap st !! self = Some s ->
  m_local_queue s = [] ->
  exists st',
    (props' <- awakened self ctx props ;;
     r <- pick_next self ;;
     ret (props', r)) st = Done (props, Some ctx) st' /\
    s_mutex st' = false /\
    heap st' = heap st /\
    scheduler_ st' = <[ctx_id ctx := self]> (scheduler_ st) /\
    s_current_scheduler st' = s_current_scheduler st /\
    s_schedulers st' = s_schedulers st.
Proof.
  intros Hm Hpin Hprev Hs Hq.
  assert (Hlt : (self < length (heap st))%nat)
    by (eapply lookup_lt_Some; eauto).
  set (s1 := {| m_local_queue := m_local_queue s ++ [ctx];
                m_flag := m_flag s; m_suspend := m_suspend s |}).
  set (st1 := enqueued true self ctx s st).
  assert (Hs1 : heap st1 !! self = Some s1)
    by (cbn; now rewrite list_lookup_insert_eq).
  exists (picked self ctx [] s1 st1). split.
  { rewrite (bind_done _ _ _ _ _ (awakened_again _ _ _ _ _ Hm Hpin Hprev Hs)).
    fold st1.
    assert (Hp : pick_next self st1 = Done (Some ctx) (picked self ctx [] s1 st1)).
    { apply pick_next_front; [reflexivity | exact Hs1 |]. cbn. now rewrite Hq. }
    now rewrite (bind_done _ _ _ _ _ Hp). }
  unfold picked. cbn. rewrite Hpin.
  split; [reflexivity|]. split.
  { rewrite list_insert_insert_eq. apply list_insert_id.
    rewrite Hs. destruct s; cbn in *. now rewrite Hq. }
  split; [apply insert_delete_eq|]. split; reflexivity.
Qed.

(** X3.  Pinning: a fiber that has been awakened before and becomes ready
    on the thread of [self], whose queue is empty, is resumed there however
    often this is repeated: every [pick_next] yields it, it ends attached
    to [self], and the queues, the cursor and the worker list are as
    before. *)
Theorem resume_stays_on_thread n self ctx props : forall st s,
  s_mutex st = false ->
  is_pinned_context ctx = false ->
  was_previously_awakened props = true ->
  heap st !! self = Some s ->
  m_local_queue s = [] ->
  exists st',
    resume n self ctx props st = Done (replicate n (Some ctx)) st' /\
    heap st' = heap st /\
    (n <> 0%nat -> owner ctx st' = Some self) /\
    (forall c, ctx_id c <> ctx_id ctx -> owner c st' = owner c st) /\
    s_current_scheduler st' = s_current_scheduler st /\
    s_schedulers st' = s_schedulers st.
Proof.
  induction n as [|n IH]; intros st s Hm Hpin Hprev Hs Hq.
  - exists st. cbn. repeat split; congruence.
  - destruct (resume_cycle self ctx props st s Hm Hpin Hprev Hs Hq)
      as (st1 & Hrun & Hm1 & Hh1 & Ho1 & Hc1 & Hs1).
    apply bind_inv in Hrun as (p1 & sta & Ha & Hrun).
    apply bind_inv in Hrun as (r1 & stb & Hb & Hrun).
    inversion Hrun; subst p1 r1 stb; clear Hrun.
    destruct (IH st1 s Hm1 Hpin Hprev) as (st2 & Hrun2 & Hh2 & Ho2 & Hoth & Hc2 & Hs2);
      [now rewrite Hh1 | exact Hq |].
    exists st2. split.
    { cbn. rewrite (bind_done _ _ _ _ _ Ha), (bind_done _ _ _ _ _ Hb).
      now rewrite (bind_done _ _ _ _ _ Hrun2). }
    split; [congruence|]. split.
    { intros _. destruct n as [|n'].
      - cbn in Hrun2. inversion Hrun2; subst st2.
        unfold owner. rewrite Ho1. apply lookup_insert_eq.
      - now apply Ho2. }
    split.
    { intros c Hne. rewrite Hoth by exact Hne. unfold owner.
      rewrite Ho1. now rewrite lookup_insert_ne by congruence. }
    split; congruence.
Qed.

Lemma resume_stays_on_thread_witness :
  exists st',
    resume 3 2 example_fiber
      {| m_previously_awakened := true; notified := 1 |} running_pool
      = Done [Some example_fiber; Some example_fiber; Some example_fiber] st' /\
    owner example_fiber st' = Some 2%nat /\
    s_current_scheduler st' = 1.
Proof.
  destruct (resume_stays_on_thread 3 2 example_fiber
              {| m_previously_awakened := true; notified := 1 |}
              running_pool fresh_policy)
    as (st' & Hrun & _ & Ho & _ & Hc & _);
    [reflexivity | reflexivity | reflexivity | reflexivity | reflexivity |].
  exists st'. split; [exact Hrun|]. split; [now apply Ho | exact Hc].
Defined.

(** ** Wake-ups *)

Lemma wait_parked self st s :
  s_mutex st = true ->
  heap st !! self = Some s ->
  m_flag s = false ->
  wait self [] st = Done None (log EvUnlock (set_mutex false st)).
Proof.
  intros Hm Hs Hf. cbn. run_with Hs. rewrite Hf. run_with Hm. reflexivity.
Qed.

(** X4.  A hand-off does not wake its target.  A policy parked in
    [suspend_until] with the forever sentinel and a clear flag does not
    return as long as nobody calls [notify] on it, whatever else happens;
    in particular, when a peer's first wake dispatches a context to it, the
    context is in its queue, its flag is still clear and it is still
    parked. *)
Theorem dispatch_does_not_wake self notifier ctx props tick st s :
  s_mutex st = false ->
  heap st !! self = Some s ->
  m_flag s = false ->
  (forall env rest st',
     Forall (fun w => ~ notified_in self w) env ->
     suspend_until self time_point_max env st <> Done (Some rest) st') /\
  (is_pinned_context ctx = false ->
   was_previously_awakened props = false ->
   0 <= s_current_scheduler st < size_t_modulus - 1 ->
   s_schedulers st !!
     Z.to_nat ((s_current_scheduler st + 1)
                 mod Z.of_nat (length (s_schedulers st))) = Some (Some self) ->
   exists st',
     suspend_until self time_point_max
       [ {| meanwhile := [call_awakened notifier ctx props];
            clock := tick |} ] st = Done None st' /\
     local_queue self st' = local_queue self st ++ [ctx] /\
     has_ready_fibers self st' = Done true (log EvUnlock (log EvLock st')) /\
     wake_flag self st' = false).
Proof.
  intros Hm Hs Hf. split.
  - intros env rest st' Henv H.
    pose proof (suspend_until_inv _ _ _ _ _ _ _ Hm Hs H)
      as (_ & _ & consumed & -> & Hcase).
    rewrite Z.eqb_refl in Hcase.
    destruct Hcase as [[_ Hc]|(_ & pre & w & -> & Hn & _)]; [congruence|].
    rewrite Forall_app, Forall_app, Forall_singleton in Henv. tauto.
  - intros Hpin Hprev Hc Hslot.
    assert (Hlt : (self < length (heap st))%nat)
      by (eapply lookup_lt_Some; eauto).
    set (w := {| meanwhile := [call_awakened notifier ctx props];
                 clock := tick |}).
    set (st0 := log EvLock (set_mutex true st)).
    set (st1 := log EvUnlock (set_mutex false st0)).
    set (r := (s_current_scheduler st + 1)
                mod Z.of_nat (length (s_schedulers st))) in *.
    set (st2 := dispatched ctx r self s st1).
    set (st3 := log EvLock (set_mutex true st2)).
    set (s' := {| m_local_queue := m_local_queue s ++ [ctx];
                  m_flag := m_flag s; m_suspend := m_suspend s |}).
    assert (Hs3 : heap st3 !! self = Some s')
      by (cbn; now rewrite list_lookup_insert_eq).
    assert (Ha : awakened notifier ctx props st1
                 = Done (set_previously_awakened props) st2)
      by (apply awakened_dispatch;
          [reflexivity | exact Hpin | exact Hprev | exact Hc | exact Hslot
          | exact Hs]).
    assert (Hw : cv_wait w st0 = Done tt st3).
    { assert (Hu : unlock st0 = Done tt st1) by reflexivity.
      assert (Hrc : run_calls (meanwhile w) st1 = Done tt st2).
      { unfold w. cbn [meanwhile run_calls run_call]. unfold bind.
        now rewrite Ha. }
      unfold cv_wait.
      rewrite (bind_done _ _ _ _ _ Hu), (bind_done _ _ _ _ _ Hrc).
      reflexivity. }
    assert (Hwait : wait self [w] st0
                    = Done None (log EvUnlock (set_mutex false st3))).
    { cbn [wait].
      assert (Hd : deref self st0 = Done s st0)
        by (unfold deref; cbn; now rewrite Hs).
      rewrite (bind_done _ _ _ _ _ Hd), Hf.
      rewrite (bind_done _ _ _ _ _ Hw).
      apply (wait_parked self st3 s'); [reflexivity | exact Hs3 | exact Hf]. }
    exists (log EvUnlock (set_mutex false st3)). split.
    { rewrite suspend_until_unfold by exact Hm. rewrite Z.eqb_refl.
      fold st0. now rewrite (bind_done _ _ _ _ _ Hwait). }
    split; [unfold local_queue; cbn;
            now rewrite list_lookup_insert_eq, Hs by exact Hlt|].
    split.
    { rewrite (has_ready_fibers_run self _ s'); [|reflexivity|exact Hs3].
      cbn. now destruct (m_local_queue s). }
    unfold wake_flag. cbn.
    now rewrite list_lookup_insert_eq by exact Hlt.
Qed.

Lemma dispatch_does_not_wake_witness :
  exists st',
    suspend_until 2 time_point_max
      [ {| meanwhile :=
             [call_awakened 1 example_fiber thread_locked_props_ctor];
           clock := 4 |} ] quiet_pool = Done None st' /\
    local_queue 2 st' = [example_fiber] /\
    wake_flag 2 st' = false.
Proof.
  destruct (dispatch_does_not_wake 2 1 example_fiber thread_locked_props_ctor
              4 quiet_pool fresh_policy eq_refl eq_refl eq_refl)
    as [_ Hpark].
  destruct Hpark as (st' & Hrun & Hq & _ & Hf);
    [reflexivity | reflexivity | cbn; unfold size_t_modulus; lia
    | reflexivity |].
  exists st'. split; [exact Hrun|]. split; [exact Hq | exact Hf].
Defined.

Lemma notify_run p st s :
  s_mutex st = false ->
  heap st !! p = Some s ->
  notify p st = Done tt (notified_state p s st).
Proof.
  intros Hm Hs. unfold notify. run_with Hm. run_with Hs.
  unfold notified_state, with_flag. rewrite <- !app_assoc. reflexivity.
Qed.

Lemma suspend_until_raised p tp env st s :
  s_mutex st = false ->
  heap st !! p = Some s ->
  m_flag s = true ->
  suspend_until p tp env st = Done (Some env) (woken_state p s st).
Proof.
  intros Hm Hs Hf. rewrite suspend_until_unfold by exact Hm.
  assert (Hw : (if time_point_max =? tp then wait p env
                else wait_until p tp env) (log EvLock (set_mutex true st))
               = Done (Some env) (log EvLock (set_mutex true st))).
  { destruct (time_point_max =? tp); destruct env; cbn;
      run_with Hs; now rewrite Hf. }
  rewrite (bind_done _ _ _ _ _ Hw). unfold finish. run_with Hs.
  unfold woken_state, with_flag. rewrite <- !app_assoc. reflexivity.
Qed.

Lemma suspend_until_parked p tp st s :
  s_mutex st = false ->
  heap st !! p = Some s ->
  m_flag s = false ->
  suspend_until p tp [] st =
    Done None (log EvUnlock (log EvLock st)).
Proof.
  intros Hm Hs Hf. rewrite suspend_until_unfold by exact Hm.
  assert (Hw : (if time_point_max =? tp then wait p []
                else wait_until p tp []) (log EvLock (set_mutex true st))
               = Done None (log EvUnlock (log EvLock st))).
  { destruct (time_point_max =? tp); cbn; run_with Hs; rewrite Hf;
      run; now rewrite Hm. }
  now rewrite (bind_done _ _ _ _ _ Hw).
Qed.

(** X5.  The wake flag is a latch: a [notify] that comes before the wait is
    not lost, and notifications do not add up.  After one [notify] on [p],
    or after two, [suspend_until] on [p] returns at once for any deadline
    and without consuming a wait, with the flag clear again and every queue
    as it was; the [suspend_until] after that one parks.  [notify] itself
    changes no queue, no attachment and no other policy's flag. *)
Theorem notify_is_latched p st s tp env :
  s_mutex st = false ->
  heap st !! p = Some s ->
  exists st1 st2 st3 st3',
    notify p st = Done tt st1 /\
    notify p st1 = Done tt st2 /\
    wake_flag p st1 = true /\
    heap st2 = heap st1 /\
    (forall q, q <> p -> wake_flag q st1 = wake_flag q st) /\
    (forall q, local_queue q st1 = local_queue q st) /\
    scheduler_ st1 = scheduler_ st /\
    suspend_until p tp env st1 = Done (Some env) st3 /\
    suspend_until p tp env st2 = Done (Some env) st3' /\
    heap st3' = heap st3 /\
    wake_flag p st3 = false /\
    (forall q, local_queue q st3 = local_queue q st) /\
    suspend_until p tp [] st3 = Done None (log EvUnlock (log EvLock st3)) /\
    suspend_until p tp [] st3' = Done None (log EvUnlock (log EvLock st3')).
Proof.
  intros Hm Hs.
  assert (Hlt : (p < length (heap st))%nat) by (eapply lookup_lt_Some; eauto).
  set (st1 := notified_state p s st).
  set (st2 := notified_state p (with_flag true s) st1).
  assert (Hs1 : heap st1 !! p = Some (with_flag true s))
    by (cbn; now rewrite list_lookup_insert_eq).
  assert (Hh2 : heap st2 = heap st1)
    by (cbn; now rewrite list_insert_insert_eq).
  assert (Hs2 : heap st2 !! p = Some (with_flag true s))
    by now rewrite Hh2.
  set (st3 := woken_state p (with_flag true s) st1).
  set (st3' := woken_state p (with_flag true s) st2).
  assert (Hs3 : heap st3 !! p = Some (with_flag false s)).
  { cbn. rewrite list_lookup_insert_eq
      by (rewrite length_insert; exact Hlt). reflexivity. }
  assert (Hh3 : heap st3' = heap st3)
    by (cbn; now rewrite !list_insert_insert_eq).
  exists st1, st2, st3, st3'.
  split; [now apply notify_run|].
  split; [now apply notify_run|].
  split; [unfold wake_flag; now rewrite Hs1|].
  split; [exact Hh2|].
  split.
  { intros q Hq. unfold wake_flag. cbn.
    now rewrite list_lookup_insert_ne by congruence. }
  split.
  { intros q. unfold local_queue. destruct (decide (p = q)) as [<-|Hne].
    - now rewrite Hs1, Hs.
    - cbn. now rewrite list_lookup_insert_ne. }
  split; [reflexivity|].
  split; [now apply suspend_until_raised|].
  split; [now apply suspend_until_raised|].
  split; [exact Hh3|].
  split; [unfold wake_flag; now rewrite Hs3|].
  split.
  { intros q. unfold local_queue. destruct (decide (p = q)) as [<-|Hne].
    - now rewrite Hs3, Hs.
    - cbn. now rewrite !list_lookup_insert_ne. }
  split; apply (suspend_until_parked _ _ _ (with_flag false s));
    try reflexivity; [exact Hs3 | now rewrite Hh3].
Qed.

Lemma notify_is_latched_witness :
  exists st1 st3,
    notify 0 quiet_pool = Done tt st1 /\
    wake_flag 0 st1 = true /\
    suspend_until 0 9 example_env st1 = Done (Some example_env) st3 /\
    wake_flag 0 st3 = false /\
    suspend_until 0 9 [] st3 = Done None (log EvUnlock (log EvLock st3)).
Proof.
  destruct (notify_is_latched 0 quiet_pool fresh_policy 9 example_env
              eq_refl eq_refl)
    as (st1 & st2 & st3 & st3' & Hn & _ & Hf1 & _ & _ & _ & _ & Hs & _ & _
        & Hf3 & _ & Hp & _).
  exists st1, st3. repeat split; assumption.
Defined.

(** ** Nothing is lost, nothing faults *)

Lemma concat_queues_insert (h : list thread_locked_scheduler) p s s' :
  h !! p = Some s ->
  concat (m_local_queue <$> h) =
    concat (m_local_queue <$> take p h) ++ m_local_queue s ++
    concat (m_local_queue <$> drop (S p) h) /\
  concat (m_local_queue <$> <[p := s']> h) =
    concat (m_local_queue <$> take p h) ++ m_local_queue s' ++
    concat (m_local_queue <$> drop (S p) h).
Proof.
  intros Hp. split.
  - rewrite <- (take_drop_middle h p s Hp) at 1.
    rewrite fmap_app, concat_app. cbn. reflexivity.
  - rewrite insert_take_drop by (eapply lookup_lt_Some; eauto).
    rewrite fmap_app, concat_app. cbn. reflexivity.
Qed.

Lemma all_queued_push (h : list thread_locked_scheduler) p s c f u :
  h !! p = Some s ->
  concat (m_local_queue <$>
            <[p := {| m_local_queue := m_local_queue s ++ [c];
                      m_flag := f; m_suspend := u |}]> h)
    ≡ₚ c :: concat (m_local_queue <$> h).
Proof.
  intros Hp.
  destruct (concat_queues_insert h p s
              {| m_local_queue := m_local_queue s ++ [c];
                 m_flag := f; m_suspend := u |} Hp) as [-> ->].
  cbn. rewrite <- !app_assoc. cbn.
  rewrite (Permutation_middle _ _ c). apply Permutation_app_head.
  rewrite <- Permutation_middle. reflexivity.
Qed.

Lemma all_queued_pop (h : list thread_locked_scheduler) p s c rest f u :
  h !! p = Some s ->
  m_local_queue s = c :: rest ->
  concat (m_local_queue <$> h)
    ≡ₚ c :: concat (m_local_queue <$>
                      <[p := {| m_local_queue := rest;
                                m_flag := f; m_suspend := u |}]> h).
Proof.
  intros Hp Hq.
  destruct (concat_queues_insert h p s
              {| m_local_queue := rest; m_flag := f; m_suspend := u |} Hp)
    as [-> ->].
  cbn. rewrite Hq. cbn. now rewrite <- Permutation_middle.
Qed.

Lemma awakened_adds_one self ctx props st props' st' :
  awakened self ctx props st = Done props' st' ->
  all_queued st' ≡ₚ ctx :: all_queued st.
Proof.
  intros H. unfold all_queued, awakened in H |- *.
  invert_run; now apply all_queued_push.
Qed.

(** X6.  No context is dropped or queued twice.  Whatever branch it takes,
    an [awakened] that returns has added its context exactly once to the
    contexts queued over all policies, and so has [accept]; [pick_next]
    takes out exactly the context it yields, and nothing when it yields
    none; [has_ready_fibers] and [notify] leave every queue alone. *)
Theorem queued_contexts_conserved :
  (forall self ctx props st props' st',
     awakened self ctx props st = Done props' st' ->
     all_queued st' ≡ₚ ctx :: all_queued st) /\
  (forall p ctx st st',
     accept p ctx st = Done tt st' ->
     all_queued st' ≡ₚ ctx :: all_queued st) /\
  (forall p st r st',
     pick_next p st = Done r st' ->
     all_queued st ≡ₚ option_list r ++ all_queued st') /\
  (forall p st b st',
     has_ready_fibers p st = Done b st' -> all_queued st' = all_queued st) /\
  (forall p st st',
     notify p st = Done tt st' -> all_queued st' = all_queued st).
Proof.
  unfold all_queued. split; [|split; [|split; [|split]]].
  - intros self ctx props st props' st' H.
    now apply awakened_adds_one in H.
  - intros p ctx st st' H. invert_run. now apply all_queued_push.
  - intros p st r st' H. unfold pick_next in H.
    invert_run; try reflexivity;
      match goal with
      | H1 : m_local_queue ?a = ?c :: ?l, H2 : m_local_queue ?a = _ :: _ |- _ =>
          rewrite H1 in H2; injection H2 as <- <-
      end;
      eapply all_queued_pop; eauto.
  - intros p st b st' H. unfold has_ready_fibers in H. now invert_run.
  - intros p st st' H. unfold notify in H. invert_run.
    match goal with
    | Hs : heap st !! p = Some ?s |- _ =>
        destruct (concat_queues_insert (heap st) p s
                    {| m_local_queue := m_local_queue s; m_flag := true;
                       m_suspend := m_suspend s |} Hs) as [-> ->]
    end.
    reflexivity.
Qed.

Lemma run_call_cursor c st st' :
  run_call c st = Done tt st' ->
  s_current_scheduler st' = s_current_scheduler st \/
  (Z.of_nat (length (s_schedulers st)) <> 0 /\
   s_current_scheduler st' =
     to_size_t (s_current_scheduler st + 1)
       mod Z.of_nat (length (s_schedulers st))).
Proof.
  intros H. destruct c; unfold run_call, awakened, pick_next,
    has_ready_fibers, notify in H; invert_run; auto.
  right. split; [|reflexivity].
  match goal with
  | E : (_ =? 0) = false |- _ => now apply Z.eqb_neq in E
  end.
Qed.

Lemma awakened_total self ctx props ws st :
  dispatching ws st ->
  0 < Z.of_nat (length ws) < 2 ^ 32 ->
  (self < length (heap st))%nat ->
  exists props' st', awakened self ctx props st = Done props' st'.
Proof.
  intros Hd Hlen Hself.
  destruct (lookup_lt_is_Some_2 _ _ Hself) as [s Hs].
  pose proof (dsp_mutex _ _ Hd) as Hm.
  destruct (is_pinned_context ctx) eqn:Hpin.
  { eexists _, _. now apply (awakened_pinned _ _ _ _ s). }
  destruct (was_previously_awakened props) eqn:Hprev.
  { eexists _, _. now apply (awakened_again _ _ _ _ s). }
  destruct Hd as [_ Hsl Hlv _ Hc].
  assert (Hl : length (s_schedulers st) = length ws)
    by now rewrite Hsl, length_fmap.
  pose proof (Z.mod_pos_bound (s_current_scheduler st + 1)
                (Z.of_nat (length ws)) ltac:(lia)) as Hr.
  destruct (lookup_lt_is_Some_2 ws
              (Z.to_nat ((s_current_scheduler st + 1)
                           mod Z.of_nat (length ws))) ltac:(lia)) as [t Ht].
  assert (Htl : (t < length (heap st))%nat).
  { rewrite Forall_forall in Hlv. apply Hlv.
    eapply list_elem_of_lookup_2; eauto. }
  destruct (lookup_lt_is_Some_2 _ _ Htl) as [s_t Hst].
  eexists _, _. apply (awakened_dispatch _ _ _ _ t s_t); try assumption.
  - unfold size_t_modulus. lia.
  - now rewrite Hl, Hsl, list_lookup_fmap, Ht.
Qed.

Lemma run_call_operational c ws st :
  dispatching ws st ->
  0 < Z.of_nat (length ws) < 2 ^ 32 ->
  live_call (length (heap st)) c ->
  exists st',
    run_call c st = Done tt st' /\
    dispatching ws st' /\
    length (heap st') = length (heap st).
Proof.
  intros Hd Hlen Hc.
  assert (Hrun : exists st', run_call c st = Done tt st').
  { destruct c as [p ctx|p ctx props|p|p|p];
      try (apply run_call_total; [exact (dsp_mutex _ _ Hd) | exact Hc]).
    cbn in Hc. destruct (awakened_total p ctx props ws st Hd Hlen Hc)
      as (props' & st' & H).
    exists st'. cbn. now rewrite (bind_done _ _ _ _ _ H). }
  destruct Hrun as (st' & Hrun). exists st'. split; [exact Hrun|].
  destruct (run_call_frame _ _ _ Hrun) as (Hm' & Hs' & Hl' & _).
  split; [|exact Hl'].
  destruct Hd as [Hm Hsl Hlv Hnd Hcur].
  constructor; try assumption; try congruence.
  - now rewrite Hl'.
  - assert (Hl : length (s_schedulers st) = length ws)
      by now rewrite Hsl, length_fmap.
    destruct (run_call_cursor _ _ _ Hrun) as [->|[_ ->]]; [exact Hcur|].
    rewrite Hl, to_size_t_small by (unfold size_t_modulus; lia).
    pose proof (Z.mod_pos_bound (s_current_scheduler st + 1)
                  (Z.of_nat (length ws)) ltac:(lia)). lia.
Qed.

Lemma all_queued_empty st :
  (forall w, local_queue w st = []) -> all_queued st = [].
Proof.
  unfold all_queued, local_queue. generalize (heap st). intros h He.
  induction h as [|s h IH] using rev_ind; [reflexivity|].
  rewrite fmap_app, concat_app. cbn. rewrite app_nil_r, IH.
  - specialize (He (length h)).
    rewrite list_lookup_middle in He by reflexivity. now rewrite He.
  - intros w. specialize (He w).
    destruct (decide (w < length h)%nat) as [Hlt|Hge].
    + now rewrite lookup_app_l in He by exact Hlt.
    + rewrite lookup_ge_None_2 by lia. reflexivity.
Qed.

Lemma run_call_queued c st st' :
  run_call c st = Done tt st' ->
  match c with
  | call_accept _ ctx | call_awakened _ ctx _ =>
      all_queued st' ≡ₚ ctx :: all_queued st
  | call_pick_next _ =>
      exists r, all_queued st ≡ₚ option_list r ++ all_queued st'
  | call_has_ready_fibers _ | call_notify _ =>
      all_queued st' = all_queued st
  end.
Proof.
  destruct c as [p ctx|p ctx props|p|p|p]; cbn [run_call]; intros H.
  - unfold all_queued. invert_run. now apply all_queued_push.
  - apply bind_inv in H as (props' & st1 & Ha & Hr).
    inversion Hr; subst. now apply awakened_adds_one in Ha.
  - apply bind_inv in H as (r & st1 & Hp & Hr).
    inversion Hr; subst. exists r. clear Hr.
    unfold all_queued, pick_next in *.
    invert_run; try reflexivity;
      match goal with
      | H1 : m_local_queue ?a = ?c :: ?l, H2 : m_local_queue ?a = _ :: _ |- _ =>
          rewrite H1 in H2; injection H2 as <- <-
      end;
      eapply all_queued_pop; eauto.
  - unfold all_queued, has_ready_fibers in *. now invert_run.
  - unfold all_queued, notify in *. invert_run.
    match goal with
    | Hs : heap st !! p = Some ?s |- _ =>
        destruct (concat_queues_insert (heap st) p s
                    {| m_local_queue := m_local_queue s; m_flag := true;
                       m_suspend := m_suspend s |} Hs) as [-> ->]
    end.
    reflexivity.
Qed.

Lemma run_call_unlinked c st st' :
  run_call c st = Done tt st' ->
  admissible c st = true ->
  NoDup (ctx_id <$> all_queued st) ->
  NoDup (ctx_id <$> all_queued st').
Proof.
  intros Hrun Hadm Hnd. pose proof (run_call_queued _ _ _ Hrun) as Hq.
  assert (Hpush : forall ctx,
            negb (linked ctx st) = true ->
            all_queued st' ≡ₚ ctx :: all_queued st ->
            NoDup (ctx_id <$> all_queued st')).
  { intros ctx Hl Hp. rewrite Hp. cbn. apply NoDup_cons. split; [|exact Hnd].
    unfold linked in Hl. apply negb_true_iff in Hl.
    now apply bool_decide_eq_false in Hl. }
  destruct c as [p ctx|p ctx props|p|p|p]; cbn in Hadm.
  - now apply (Hpush ctx).
  - apply andb_true_iff in Hadm as [Hl _]. now apply (Hpush ctx).
  - destruct Hq as [r Hq]. rewrite Hq, fmap_app in Hnd.
    now apply NoDup_app in Hnd as (_ & _ & Hnd).
  - now rewrite Hq.
  - now rewrite Hq.
Qed.

Lemma run_calls_contract cs : forall ws st,
  dispatching ws st ->
  0 < Z.of_nat (length ws) < 2 ^ 32 ->
  Forall (live_call (length (heap st))) cs ->
  runtime_contract cs st = true ->
  NoDup (ctx_id <$> all_queued st) ->
  exists st',
    run_calls cs st = Done tt st' /\
    dispatching ws st' /\
    length (heap st') = length (heap st) /\
    NoDup (ctx_id <$> all_queued st').
Proof.
  induction cs as [|c cs IH]; intros ws st Hd Hlen Hcs Hrc Hnd.
  - exists st. cbn. auto.
  - inversion Hcs as [|? ? Hc Hcs']; subst.
    destruct (run_call_operational c ws st Hd Hlen Hc)
      as (st1 & H1 & Hd1 & Hl1).
    cbn [runtime_contract] in Hrc. rewrite H1 in Hrc.
    apply andb_true_iff in Hrc as [Hadm Hrc].
    pose proof (run_call_unlinked _ _ _ H1 Hadm Hnd) as Hnd1.
    destruct (IH ws st1 Hd1 Hlen) as (st2 & H2 & Hd2 & Hl2 & Hnd2);
      [now rewrite Hl1 | exact Hrc | exact Hnd1 |].
    exists st2. split; [cbn; now rewrite (bind_done _ _ _ _ _ H1)|].
    split; [exact Hd2|]. split; [congruence | exact Hnd2].
Qed.

(** X7.  Once a pool with at least one worker is complete, the calls of
    the runtime on its policies are all defined.  Whatever fibers have been
    created, any sequence of [awakened], [accept], [pick_next],
    [has_ready_fibers] and [notify] on live policies in which the runtime
    keeps to the preconditions of the fiber library (it wakes no context
    that is in a ready queue, and no detached one unless it is pinned)
    returns, with the mutex free, the worker list and the number of
    policies unchanged, the cursor within the list or, as registration
    left it, one past its end, and no context in two ready queues or twice
    in one. *)
Theorem complete_pool_is_safe tc mains ps st fibers cs :
  2 <= tc < 2 ^ 32 ->
  length (workers_from 0 mains) = Z.to_nat (tc - 1) ->
  construct tc mains initial_state = Done ps st ->
  Forall (live_call (length (heap st))) cs ->
  runtime_contract cs (spawned fibers st) = true ->
  exists st',
    run_calls cs (spawned fibers st) = Done tt st' /\
    s_mutex st' = false /\
    s_schedulers st' = s_schedulers st /\
    length (heap st') = length (heap st) /\
    0 <= s_current_scheduler st' <= Z.of_nat (length (s_schedulers st)) /\
    NoDup (ctx_id <$> all_queued st').
Proof.
  intros Htc Hlen Hrun Hcs Hrc.
  assert (Htc' : 1 <= tc < 2 ^ 32) by lia.
  destruct (constructed tc mains ps st Htc' Hlen Hrun)
    as [(_ & ? & _)|Hreg]; [lia|].
  pose proof (registering_complete _ _ _ Hreg Hlen) as Hs.
  assert (Hd : dispatching (workers_from 0 mains) (spawned fibers st)).
  { constructor; cbn; [exact (reg_mutex _ _ _ Hreg) | exact Hs
      | exact (reg_live _ _ _ Hreg) | exact (reg_nodup _ _ _ Hreg) |].
    rewrite (reg_cursor _ _ _ Hreg). lia. }
  assert (Hnd : NoDup (ctx_id <$> all_queued (spawned fibers st))).
  { rewrite all_queued_empty; [constructor|].
    intros w. unfold local_queue. cbn. rewrite (reg_heap _ _ _ Hreg).
    destruct (replicate _ _ !! w) as [s|] eqn:E; [|reflexivity].
    apply lookup_replicate in E as [-> _]. reflexivity. }
  destruct (run_calls_contract cs _ (spawned fibers st) Hd ltac:(lia) Hcs
              Hrc Hnd) as (st' & Hrun' & Hd' & Hl' & Hnd').
  exists st'. split; [exact Hrun'|].
  split; [exact (dsp_mutex _ _ Hd')|].
  split; [now rewrite (dsp_slots _ _ Hd')|].
  split; [exact Hl'|].
  split; [|exact Hnd'].
  rewrite Hs, length_fmap. exact (dsp_cursor _ _ Hd').
Qed.

Lemma complete_pool_is_safe_witness :
  exists st',
    run_calls
      [call_awakened 1 example_fiber thread_locked_props_ctor;
       call_pick_next 2;
       call_notify 0;
       call_awakened 2 example_fiber
         {| m_previously_awakened := true; notified := 1 |};
       call_has_ready_fibers 2;
       call_accept 0 example_dispatcher]
      (spawned {[ 7%nat := 1%nat ]} example_pool) = Done tt st' /\
    s_mutex st' = false /\
    0 <= s_current_scheduler st' <= 2 /\
    NoDup (ctx_id <$> all_queued st').
Proof.
  destruct (complete_pool_is_safe 3 [false; true; false]
              [0%nat; 1%nat; 2%nat] example_pool {[ 7%nat := 1%nat ]}
              [call_awakened 1 example_fiber thread_locked_props_ctor;
               call_pick_next 2;
               call_notify 0;
               call_awakened 2 example_fiber
                 {| m_previously_awakened := true; notified := 1 |};
               call_has_ready_fibers 2;
               call_accept 0 example_dispatcher])
    as (st' & Hrun & Hm & _ & _ & Hc & Hnd);
    [lia | reflexivity | reflexivity | repeat constructor
    | vm_compute; reflexivity |].
  exists st'. split; [exact Hrun|]. split; [exact Hm|].
  split; [exact Hc | exact Hnd].
Defined.

(** ** Distribution over the workers *)

Lemma div_step L y :
  0 < L ->
  (y + 1) / L - y / L = if (y + 1) mod L =? 0 then 1 else 0.
Proof.
  intros HL.
  pose proof (Z.div_mod y L ltac:(lia)) as Hy.
  pose proof (Z.mod_pos_bound y L HL) as Hb.
  destruct (Z.eq_dec (y mod L + 1) L) as [E|E].
  - assert (Hq : (y + 1) / L = y / L + 1)
      by (symmetry; apply (Z.div_unique _ _ _ 0); lia).
    assert (Hm : (y + 1) mod L = 0)
      by (symmetry; apply (Z.mod_unique _ _ (y / L + 1)); lia).
    rewrite Hq, Hm. cbn. lia.
  - assert (Hq : (y + 1) / L = y / L)
      by (symmetry; apply (Z.div_unique _ _ _ (y mod L + 1)); lia).
    assert (Hm : (y + 1) mod L = y mod L + 1)
      by (symmetry; apply (Z.mod_unique _ _ (y / L)); lia).
    rewrite Hq, Hm.
    destruct (Z.eqb_spec (y mod L + 1) 0); lia.
Qed.

Lemma mod_shift L x i :
  0 < L -> 0 <= i < L ->
  (x mod L =? i) = ((x - i) mod L =? 0).
Proof.
  intros HL Hi.
  pose proof (Z.mod_pos_bound x L HL) as Hb.
  pose proof (Z.div_mod x L ltac:(lia)) as Hx.
  destruct (Z.eqb_spec (x mod L) i) as [E|E].
  - symmetry. apply Z.eqb_eq.
    symmetry. apply (Z.mod_unique _ _ (x / L)); lia.
  - symmetry. apply Z.eqb_neq. intros H0.
    destruct (Z_lt_le_dec (x mod L) i) as [Hlt|Hge].
    + assert ((x - i) mod L = x mod L - i + L)
        by (symmetry; apply (Z.mod_unique _ _ (x / L - 1)); lia).
      lia.
    + assert ((x - i) mod L = x mod L - i)
        by (symmetry; apply (Z.mod_unique _ _ (x / L)); lia).
      lia.
Qed.

Lemma delivered_length L i calls : forall j,
  0 < L -> 0 <= i < L ->
  Z.of_nat (length (delivered L j i calls)) =
    (j + Z.of_nat (length calls) - i) / L - (j - i) / L.
Proof.
  induction calls as [|[self ctx] calls IH]; intros j HL Hi.
  - cbn. rewrite Z.add_0_r. lia.
  - cbn [delivered length]. rewrite length_app, Nat2Z.inj_add, IH by lia.
    rewrite (mod_shift L (j + 1) i HL Hi).
    pose proof (div_step L (j - i) HL) as Hstep.
    replace (j - i + 1) with (j + 1 - i) in Hstep by lia.
    replace (j + 1 + Z.of_nat (length calls) - i)
      with (j + Z.of_nat (S (length calls)) - i) by lia.
    destruct ((j + 1 - i) mod L =? 0); cbn [length]; lia.
Qed.

Lemma delivered_share L i calls :
  0 < L -> 0 <= i < L ->
  Z.of_nat (length calls) / L
    <= Z.of_nat (length (delivered L 0 i calls))
    <= Z.of_nat (length calls) / L + 1.
Proof.
  intros HL Hi. rewrite delivered_length by lia.
  set (M := Z.of_nat (length calls)).
  assert (HM : 0 <= M) by (unfold M; lia).
  replace (0 + M - i) with (M - i) by lia.
  replace (0 - i) with (- i) by lia.
  destruct (Z.eq_dec i 0) as [->|Hne].
  - rewrite !Z.sub_0_r. lia.
  - assert (Hneg : - i / L = -1)
      by (symmetry; apply (Z.div_unique _ _ _ (L - i)); lia).
    rewrite Hneg.
    assert (Hup : (M - i) / L <= M / L) by (apply Z.div_le_mono; lia).
    assert (Hlow : M / L - 1 <= (M - i) / L).
    { replace (M / L - 1) with ((M + (-1) * L) / L)
        by (rewrite Z.div_add by lia; lia).
      apply Z.div_le_mono; lia. }
    lia.
Qed.

Lemma dispatch_all_queued calls : forall st st',
  dispatch_all calls st = Done tt st' ->
  all_queued st' ≡ₚ calls.*2 ++ all_queued st.
Proof.
  induction calls as [|[self ctx] calls IH]; intros st st' Hrun.
  - cbn in Hrun. inversion Hrun. reflexivity.
  - cbn in Hrun. apply bind_inv in Hrun as (p1 & st1 & Ha & Hrest).
    rewrite (IH _ _ Hrest), (awakened_adds_one _ _ _ _ _ _ Ha).
    cbn. now rewrite <- Permutation_middle.
Qed.

(** X8.  Round-robin delivery.  In a complete pool with at least one
    worker, any number of first wakes of contexts that are not pinned
    return, and afterwards the queue of the worker in slot [i] holds, in
    the order of their wakes, exactly the contexts whose dispatch number
    (counting from 1) is [i] modulo the number of workers; so each worker
    has received its share of the [M] dispatches up to one: between
    [M / L] and [M / L + 1] of them. *)
Theorem round_robin_delivery tc mains ps st calls :
  2 <= tc < 2 ^ 32 ->
  length (workers_from 0 mains) = Z.to_nat (tc - 1) ->
  construct tc mains initial_state = Done ps st ->
  Forall (fun c => is_pinned_context c.2 = false) calls ->
  exists st',
    dispatch_all calls st = Done tt st' /\
    all_queued st' ≡ₚ calls.*2 /\
    forall (i : nat) w,
      s_schedulers st !! i = Some (Some w) ->
      local_queue w st' = delivered (tc - 1) 0 (Z.of_nat i) calls /\
      Z.of_nat (length calls) / (tc - 1)
        <= Z.of_nat (length (local_queue w st'))
        <= Z.of_nat (length calls) / (tc - 1) + 1.
Proof.
  intros Htc Hlen Hrun Hpin.
  assert (Htc' : 1 <= tc < 2 ^ 32) by lia.
  destruct (constructed tc mains ps st Htc' Hlen Hrun)
    as [(_ & ? & _)|Hreg]; [lia|].
  pose proof (registering_complete _ _ _ Hreg Hlen) as Hs.
  set (ws := workers_from 0 mains) in *.
  assert (HL : Z.of_nat (length ws) = tc - 1) by lia.
  assert (Hd : dispatching ws st).
  { constructor; [exact (reg_mutex _ _ _ Hreg) | exact Hs
      | exact (reg_live _ _ _ Hreg) | exact (reg_nodup _ _ _ Hreg) |].
    rewrite (reg_cursor _ _ _ Hreg). lia. }
  destruct (dispatch_all_delivers ws calls st 0 Hd ltac:(lia) Hpin)
    as (st' & Hrun' & _ & Hq).
  { rewrite (reg_cursor _ _ _ Hreg), Z.mod_same, Z.mod_0_l by lia.
    reflexivity. }
  assert (Hempty : forall w, local_queue w st = []).
  { intros w. unfold local_queue. rewrite (reg_heap _ _ _ Hreg).
    destruct (replicate _ _ !! w) as [s|] eqn:E; [|reflexivity].
    apply lookup_replicate in E as [-> _]. reflexivity. }
  exists st'. split; [exact Hrun'|]. split.
  { rewrite (dispatch_all_queued _ _ _ Hrun').
    rewrite (all_queued_empty st Hempty). now rewrite app_nil_r. }
  intros i w Hw.
  assert (Hwi : ws !! i = Some w).
  { rewrite Hs, list_lookup_fmap in Hw.
    destruct (ws !! i); cbn in Hw; congruence. }
  rewrite (Hq i w Hwi), Hempty, HL. cbn [app].
  split; [reflexivity|].
  apply delivered_share; [lia|].
  apply lookup_lt_Some in Hwi. lia.
Qed.

Lemma round_robin_delivery_witness :
  exists st',
    dispatch_all
      [(1%nat, example_fiber);
       (1%nat, {| ctx_id := 8; is_pinned_context := false |});
       (1%nat, {| ctx_id := 9; is_pinned_context := false |})]
      example_pool = Done tt st' /\
    local_queue 0 st' = [ {| ctx_id := 8; is_pinned_context := false |} ] /\
    local_queue 2 st' =
      [example_fiber; {| ctx_id := 9; is_pinned_context := false |}].
Proof.
  destruct (round_robin_delivery 3 [false; true; false]
              [0%nat; 1%nat; 2%nat] example_pool
              [(1%nat, example_fiber);
               (1%nat, {| ctx_id := 8; is_pinned_context := false |});
               (1%nat, {| ctx_id := 9; is_pinned_context := false |})])
    as (st' & Hrun & _ & Hq);
    [lia | reflexivity | reflexivity | repeat constructor |].
  exists st'. split; [exact Hrun|].
  split; [exact (proj1 (Hq 0%nat 0%nat eq_refl))
         | exact (proj1 (Hq 1%nat 2%nat eq_refl))].
Defined.

(** ** Construction: the edges *)

Lemma ctor_full tc ws st :
  registering tc ws st ->
  length ws = Z.to_nat (tc - 1) ->
  thread_locked_scheduler_ctor tc false st = Fault out_of_range.
Proof.
  intros [Hmx Ho [b Hb] Hc Hsl Hbd Hlv Hnd Hhp Hw Hr] Hlen.
  unfold thread_locked_scheduler_ctor, allocate_policy, barrier_init,
    call_once.
  run. rewrite Hb, Ho. run.
  rewrite Hc, Nat2Z.id, Hsl, Hlen, Nat.sub_diag. cbn.
  rewrite app_nil_r, lookup_ge_None_2 by (rewrite length_fmap; lia).
  reflexivity.
Qed.

(** X10.  The worker list is not guarded against one worker too many:
    when the [thread_count - 1] workers of a pool have registered, the
    constructor of a further worker writes past the end of the list; with
    a thread count of 1 that is the first worker already. *)
Theorem ctor_one_worker_too_many tc mains ps st :
  1 <= tc < 2 ^ 32 ->
  length (workers_from 0 mains) = Z.to_nat (tc - 1) ->
  construct tc mains initial_state = Done ps st ->
  thread_locked_scheduler_ctor tc false st = Fault out_of_range /\
  construct tc (mains ++ [false]) initial_state = Fault out_of_range.
Proof.
  intros Htc Hlen Hrun.
  assert (Hc : thread_locked_scheduler_ctor tc false st = Fault out_of_range).
  { destruct (constructed tc mains ps st Htc Hlen Hrun)
      as [(_ & -> & ->)|Hreg]; [reflexivity|].
    now apply (ctor_full tc (workers_from 0 mains)). }
  split; [exact Hc|].
  clear Htc Hlen. revert ps Hrun. generalize initial_state.
  induction mains as [|m mains IH]; intros st0 ps Hrun.
  - cbn in Hrun. inversion Hrun; subst. cbn.
    now rewrite (bind_fault _ _ _ _ Hc).
  - cbn in Hrun. apply bind_inv in Hrun as (p & st1 & Hp & Hrun).
    apply bind_inv in Hrun as (ps' & st2 & Hps & Hret).
    inversion Hret; subst. cbn.
    rewrite (bind_done _ _ _ _ _ Hp).
    now rewrite (bind_fault _ _ _ _ (IH _ _ Hps)).
Qed.

Lemma ctor_one_worker_too_many_witness :
  thread_locked_scheduler_ctor 3 false example_pool = Fault out_of_range /\
  construct 3 [false; true; false; false] initial_state
    = Fault out_of_range.
Proof.
  apply (ctor_one_worker_too_many 3 [false; true; false]
           [0%nat; 1%nat; 2%nat] example_pool);
    [lia | reflexivity | reflexivity].
Defined.

(** X11.  Only the first constructor's thread count matters: once the
    worker list and the barrier exist, a constructor does the same
    whatever count it is given, so a later caller with another count
    silently works with the list and the barrier of the first. *)
Theorem ctor_later_count_ignored tc tc' m st :
  flag st = true ->
  is_Some (barrier st) ->
  thread_locked_scheduler_ctor tc m st
    = thread_locked_scheduler_ctor tc' m st.
Proof.
  intros Ho [b Hb].
  unfold thread_locked_scheduler_ctor, allocate_policy, barrier_init,
    call_once.
  run. now rewrite Hb, Ho.
Qed.

Lemma ctor_later_count_ignored_witness :
  exists st st',
    thread_locked_scheduler_ctor 3 true initial_state = Done 0%nat st /\
    thread_locked_scheduler_ctor 3 false st = Done 1%nat st' /\
    thread_locked_scheduler_ctor 7 false st = Done 1%nat st' /\
    length (s_schedulers st') = 2%nat.
Proof.
  assert (H1 : exists st,
            thread_locked_scheduler_ctor 3 true initial_state = Done 0%nat st /\
            flag st = true /\ is_Some (barrier st) /\
            exists st',
              thread_locked_scheduler_ctor 3 false st = Done 1%nat st' /\
              length (s_schedulers st') = 2%nat).
  { eexists. split; [vm_compute; reflexivity|].
    split; [reflexivity|]. split; [eexists; reflexivity|].
    eexists. split; [vm_compute; reflexivity | reflexivity]. }
  destruct H1 as (st & Hc & Ho & Hb & st' & Hc' & Hl).
  exists st, st'. split; [exact Hc|]. split; [exact Hc'|].
  split; [|exact Hl].
  now rewrite <- (ctor_later_count_ignored 3 7 false st Ho Hb).
Defined.

(** X12.  What the barrier is there to prevent: in a pool in which at
    least two workers have still to register, a first wake of a context
    that is not pinned moves the cursor to a slot that is still null and
    calls [accept] through it. *)
Theorem dispatch_before_registration tc ws st self ctx props :
  1 <= tc < 2 ^ 32 ->
  registering tc ws st ->
  (length ws + 1 < Z.to_nat (tc - 1))%nat ->
  is_pinned_context ctx = false ->
  was_previously_awakened props = false ->
  awakened self ctx props st = Fault null_pointer.
Proof.
  intros Htc [Hmx Ho [b Hb] Hc Hsl Hbd Hlv Hnd Hhp Hw Hr] Hlen Hpin Hprev.
  assert (Hl : Z.of_nat (length (s_schedulers st)) = tc - 1).
  { rewrite Hsl, length_app, length_fmap, length_replicate. lia. }
  unfold awakened. rewrite Hpin, Hprev. run_with Hmx.
  rewrite (to_size_t_small (s_current_scheduler st + 1))
    by (unfold size_t_modulus; lia).
  rewrite Hl. destruct (Z.eqb_spec (tc - 1) 0) as [?|_]; [lia|]. run.
  rewrite Hc, Z.mod_small by lia.
  rewrite Hsl, lookup_app_r by (rewrite length_fmap; lia).
  rewrite length_fmap, lookup_replicate_2 by lia. reflexivity.
Qed.

Lemma dispatch_before_registration_witness :
  exists st,
    construct 4 [true; false] initial_state = Done [0%nat; 1%nat] st /\
    awakened 0 example_fiber thread_locked_props_ctor st
      = Fault null_pointer.
Proof.
  destruct (construct_initial 4 true [false]) as (ps & st & Hrun & Hreg);
    [lia | cbn; lia |].
  assert (Hps : ps = [0%nat; 1%nat]).
  { assert (H : exists st0,
              construct 4 [true; false] initial_state
                = Done [0%nat; 1%nat] st0)
      by (eexists; vm_compute; reflexivity).
    destruct H as (st0 & H). rewrite H in Hrun. now inversion Hrun. }
  subst ps. exists st. split; [exact Hrun|].
  apply (dispatch_before_registration 4 (workers_from 0 [true; false]));
    [lia | exact Hreg | cbn; lia | reflexivity | reflexivity].
Defined.

(** X13.  Registration after dispatch has begun.  The constructor takes
    its slot from the counter that dispatch moves; so in a complete pool
    whose cursor a dispatch has brought back into the list, the
    constructor of a further worker does not fault: it overwrites the
    registered worker in the slot under the cursor, which is in the list
    no longer, and moves the cursor on. *)
Theorem ctor_after_dispatch_overwrites tc ws st w :
  dispatching ws st ->
  Z.of_nat (length ws) < 2 ^ 32 ->
  flag st = true ->
  is_Some (barrier st) ->
  ws !! Z.to_nat (s_current_scheduler st) = Some w ->
  exists st',
    thread_locked_scheduler_ctor tc false st = Done (length (heap st)) st' /\
    s_schedulers st' =
      <[Z.to_nat (s_current_scheduler st) := Some (length (heap st))]>
        (s_schedulers st) /\
    s_schedulers st' !! Z.to_nat (s_current_scheduler st)
      = Some (Some (length (heap st))) /\
    (Some w ∉ s_schedulers st') /\
    s_current_scheduler st' = s_current_scheduler st + 1.
Proof.
  intros [Hm Hs Hlv Hnd Hc] Hlen Ho [b Hb] Hw.
  assert (Hlt : (Z.to_nat (s_current_scheduler st) < length ws)%nat)
    by (eapply lookup_lt_Some; eauto).
  assert (Hlook : s_schedulers st !! Z.to_nat (s_current_scheduler st)
                  = Some (Some w))
    by now rewrite Hs, list_lookup_fmap, Hw.
  unfold thread_locked_scheduler_ctor, allocate_policy, barrier_init,
    call_once, barrier_wait.
  run. rewrite Hb, Ho. run. rewrite Hlook. run.
  assert (Hwl : (w < length (heap st))%nat).
  { rewrite Forall_forall in Hlv. apply Hlv.
    eapply list_elem_of_lookup_2; eauto. }
  eexists. split; [reflexivity|]. cbn.
  split; [reflexivity|]. split.
  { apply list_lookup_insert_eq. rewrite Hs, length_fmap. exact Hlt. }
  split.
  - rewrite Hs. intros Hin. apply list_elem_of_lookup in Hin as [i Hi].
    destruct (decide (i = Z.to_nat (s_current_scheduler st))) as [->|Hne].
    + rewrite list_lookup_insert_eq in Hi by (rewrite length_fmap; exact Hlt).
      inversion Hi. lia.
    + rewrite list_lookup_insert_ne in Hi by congruence.
      rewrite list_lookup_fmap in Hi.
      destruct (ws !! i) as [w'|] eqn:E; cbn in Hi; [|discriminate].
      inversion Hi; subst w'.
      pose proof (NoDup_lookup _ _ _ _ Hnd E Hw). congruence.
  - apply to_size_t_small. unfold size_t_modulus. lia.
Qed.

Lemma ctor_after_dispatch_overwrites_witness :
  exists st',
    thread_locked_scheduler_ctor 3 false running_pool = Done 3%nat st' /\
    s_schedulers running_pool = [Some 0%nat; Some 2%nat] /\
    s_schedulers st' = [Some 0%nat; Some 3%nat] /\
    s_current_scheduler st' = 2.
Proof.
  destruct (ctor_after_dispatch_overwrites 3 [0%nat; 2%nat] running_pool
              2%nat)
    as (st' & Hrun & Hs & _ & _ & Hc).
  - constructor; cbn; [reflexivity | reflexivity | repeat constructor
      | | lia].
    apply NoDup_cons. split; [|apply NoDup_singleton].
    intros Hin. apply list_elem_of_singleton in Hin. discriminate.
  - cbn. lia.
  - reflexivity.
  - eexists; reflexivity.
  - reflexivity.
  - exists st'. split; [exact Hrun|]. split; [reflexivity|].
    split; [exact Hs | exact Hc].
Defined.

(** * The demonstration program *)

Lemma printed_app o1 o2 : printed (o1 ++ o2) = printed o1 ++ printed o2.
Proof.
  induction o1 as [|e o1 IH]; [reflexivity|].
  destruct e; cbn; now rewrite ?IH.
Qed.

Lemma notifications_app o1 o2 :
  notifications (o1 ++ o2) = (notifications o1 + notifications o2)%nat.
Proof.
  induction o1 as [|e o1 IH]; [reflexivity|].
  destruct e; cbn; now rewrite ?IH.
Qed.

Lemma printed_Printed l : printed (Printed <$> l) = l.
Proof. induction l as [|s l IH]; cbn; [reflexivity | now rewrite IH]. Qed.

Lemma notifications_Printed l : notifications (Printed <$> l) = 0%nat.
Proof. induction l as [|s l IH]; cbn; [reflexivity | exact IH]. Qed.

Lemma get_thread_local_spec t w :
  ids_distinct w ->
  current_id w < size_t_modulus - 1 ->
  exists id w',
    get_thread_local t w = (id, w') /\
    ids_distinct w' /\
    thread_local_obj w' !! t = Some id /\
    get_thread_local t w' = (id, w') /\
    (forall t', t' <> t ->
       thread_local_obj w' !! t' = thread_local_obj w !! t') /\
    (forall t' id', t' <> t ->
       thread_local_obj w' !! t' = Some id' -> id' <> id) /\
    (is_Some (thread_local_obj w !! t) -> w' = w) /\
    current_id w <= current_id w' <= current_id w + 1 /\
    fiber_count w' = fiber_count w /\
    outputs w' = outputs w.
Proof.
  intros [Hb Hi Hr] Hcap. unfold get_thread_local.
  destruct (thread_local_obj w !! t) as [id|] eqn:Ht.
  - exists id, w. rewrite Ht.
    repeat split; auto; try lia; try (eapply Hb; eauto).
    intros t' id' Hne Ht' ->. apply Hne. eauto.
  - cbn. rewrite (to_size_t_small (current_id w + 1))
      by (unfold size_t_modulus in *; lia).
    eexists _, _. split; [reflexivity|]. cbn.
    split; [constructor; cbn|].
    + intros t0 id. rewrite lookup_insert.
      destruct (decide (t = t0)); intros H.
      * inversion H. lia.
      * apply Hb in H. lia.
    + intros t0 t1 id. rewrite !lookup_insert.
      destruct (decide (t = t0)), (decide (t = t1)); intros H0 H1;
        try congruence.
      * inversion H0; subst. apply Hb in H1. lia.
      * inversion H1; subst. apply Hb in H0. lia.
      * eauto.
    + lia.
    + rewrite lookup_insert_eq.
      split; [reflexivity|]. split; [reflexivity|].
      split; [intros t' Hne; now rewrite lookup_insert_ne by congruence|].
      split.
      { intros t' id' Hne. rewrite lookup_insert_ne by congruence.
        intros H. apply Hb in H. lia. }
      split; [intros [? ?]; discriminate|].
      repeat split; lia.
Qed.

(** X14.  Every thread has its own thread-local object: while the id
    counter has not wrapped, [get_thread_local] yields on each thread an id
    that no other thread's object has, constructs the object on the first
    call only, and yields the same id, changing nothing, on every later
    call from that thread. *)
Theorem get_thread_local_per_thread t w :
  ids_distinct w ->
  current_id w < size_t_modulus - 1 ->
  exists id w',
    get_thread_local t w = (id, w') /\
    get_thread_local t w' = (id, w') /\
    ids_distinct w' /\
    (forall t' id' w'',
       t' <> t -> get_thread_local t' w' = (id', w'') -> id' <> id) /\
    (forall t', t' <> t ->
       thread_local_obj w' !! t' = thread_local_obj w !! t') /\
    outputs w' = outputs w.
Proof.
  intros Hd Hcap.
  destruct (get_thread_local_spec t w Hd Hcap)
    as (id & w' & Hg & Hd' & Ht & Hg' & Hoth & Hne & _ & Hcur & _ & Ho).
  exists id, w'. split; [exact Hg|]. split; [exact Hg'|].
  split; [exact Hd'|]. split; [|split; [exact Hoth | exact Ho]].
  intros t' id' w'' Hneq Hg''. unfold get_thread_local in Hg''.
  destruct (thread_local_obj w' !! t') as [i|] eqn:E.
  - inversion Hg''; subst. eapply Hne; eauto.
  - cbn in Hg''. inversion Hg''; subst.
    apply (ids_below _ Hd') in Ht. lia.
Qed.

Lemma get_thread_local_per_thread_witness :
  exists w1,
    get_thread_local 4 (program_start 100) = (0, w1) /\
    get_thread_local 4 w1 = (0, w1) /\
    forall id' w2, get_thread_local 9 w1 = (id', w2) -> id' <> 0.
Proof.
  assert (Hstart : ids_distinct (program_start 100)).
  { constructor; cbn; [| |lia]; intros; simplify_map_eq. }
  destruct (get_thread_local_per_thread 4 (program_start 100) Hstart)
    as (id & w1 & Hg & Hg' & _ & Hne & _); [cbn; unfold size_t_modulus; lia|].
  assert (id = 0) as -> by (cbn in Hg; now inversion Hg).
  exists w1. split; [exact Hg|]. split; [exact Hg'|].
  intros id' w2. apply Hne. discriminate.
Defined.

Lemma fiber_iteration_spec fiber_id t loc w :
  ids_distinct w ->
  current_id w < size_t_modulus - 1 ->
  locals_agree loc w ->
  exists id loc' w',
    fiber_iteration fiber_id t loc w = (loc', w') /\
    ids_distinct w' /\
    locals_agree loc' w' /\
    loc' = {| my_local_id := id; my_thread_id := t |} /\
    (t = my_thread_id loc -> id = my_local_id loc /\ loc' = loc) /\
    (t <> my_thread_id loc -> id <> my_local_id loc) /\
    printed (outputs w') =
      printed (outputs w) ++ foo_line fiber_id id ++
        (if bool_decide (t = my_thread_id loc) then []
         else [migrated_warning; wrong_local_warning]) /\
    notifications (outputs w') = notifications (outputs w) /\
    fiber_count w' = fiber_count w /\
    current_id w <= current_id w' <= current_id w + 1 /\
    (is_Some (thread_local_obj w !! t) -> current_id w' = current_id w).
Proof.
  intros Hd Hcap Hloc.
  destruct (get_thread_local_spec t w Hd Hcap)
    as (id & w1 & Hg & Hd1 & Ht & _ & Hoth & Hne & Hsame & Hcur & Hfc & Ho).
  unfold fiber_iteration. rewrite Hg. cbn [foo].
  assert (Hcases :
    (t = my_thread_id loc /\ id = my_local_id loc) \/
    (t <> my_thread_id loc /\ id <> my_local_id loc)).
  { destruct (decide (t = my_thread_id loc)) as [->|Hneq].
    - left. split; [reflexivity|].
      unfold locals_agree in Hloc.
      assert (Hw : w1 = w) by (apply Hsame; rewrite Hloc; eauto).
      rewrite Hw in Ht. congruence.
    - right. split; [exact Hneq|]. intros E.
      unfold locals_agree in Hloc.
      assert (Hneq' : my_thread_id loc <> t) by congruence.
      rewrite <- (Hoth _ Hneq') in Hloc.
      exact (Hne _ _ Hneq' Hloc (eq_sym E)). }
  exists id.
  destruct Hcases as [[Ht0 Hid]|[Ht0 Hid]].
  - rewrite (bool_decide_false (t <> my_thread_id loc)) by tauto.
    rewrite (bool_decide_false (id <> my_local_id loc)) by tauto.
    rewrite (bool_decide_true (t = my_thread_id loc)) by exact Ht0.
    eexists _, _. split; [reflexivity|]. cbn.
    split; [destruct Hd1; constructor; assumption|].
    split; [unfold locals_agree; cbn; congruence|].
    split; [now rewrite Hid, Ht0|].
    split; [intros _; split; [exact Hid | destruct loc; cbn in *; congruence]|].
    split; [tauto|].
    rewrite Ho, !printed_app, !notifications_app. cbn.
    repeat split; try lia.
    intros Hs. now rewrite (Hsame Hs).
  - rewrite (bool_decide_true (t <> my_thread_id loc)) by exact Ht0.
    rewrite (bool_decide_true (id <> my_local_id loc)) by exact Hid.
    rewrite (bool_decide_false (t = my_thread_id loc)) by exact Ht0.
    eexists _, _. split; [reflexivity|]. cbn.
    split; [destruct Hd1; constructor; assumption|].
    split; [exact Ht|].
    split; [reflexivity|].
    split; [tauto|].
    split; [tauto|].
    rewrite Ho, !printed_app, !notifications_app. cbn.
    rewrite <- ?app_assoc. cbn. repeat split; try lia.
    intros Hs. now rewrite (Hsame Hs).
Qed.

(** X15.  The two warnings of a fiber come together and only on a change
    of thread.  A turn of the loop of [fiber_function] that finds the fiber
    on the thread its locals name prints the [foo] line with that thread's
    object id and nothing else; a turn that finds it on another thread
    prints the [foo] line with the other object's id, then the migration
    warning, then the wrong-thread-local warning, and makes the locals
    name the new thread and its object. *)
Theorem fiber_iteration_warnings fiber_id t loc w :
  ids_distinct w ->
  current_id w < size_t_modulus - 1 ->
  locals_agree loc w ->
  exists id loc' w',
    fiber_iteration fiber_id t loc w = (loc', w') /\
    ids_distinct w' /\
    locals_agree loc' w' /\
    loc' = {| my_local_id := id; my_thread_id := t |} /\
    (t = my_thread_id loc -> id = my_local_id loc /\ loc' = loc) /\
    (t <> my_thread_id loc -> id <> my_local_id loc) /\
    printed (outputs w') =
      printed (outputs w) ++ foo_line fiber_id id ++
        (if bool_decide (t = my_thread_id loc) then []
         else [migrated_warning; wrong_local_warning]) /\
    notifications (outputs w') = notifications (outputs w) /\
    fiber_count w' = fiber_count w /\
    current_id w <= current_id w' <= current_id w + 1 /\
    (is_Some (thread_local_obj w !! t) -> current_id w' = current_id w).
Proof. apply fiber_iteration_spec. Qed.

Lemma fiber_iteration_warnings_witness :
  exists loc' w',
    fiber_iteration 3 9 {| my_local_id := 0; my_thread_id := 4 |}
      {| current_id := 1; thread_local_obj := {[ 4%nat := 0 ]};
         fiber_count := 1; outputs := [] |} = (loc', w') /\
    loc' = {| my_local_id := 1; my_thread_id := 9 |} /\
    printed (outputs w') =
      foo_line 3 1 ++ [migrated_warning; wrong_local_warning].
Proof.
  destruct (fiber_iteration_warnings 3 9
              {| my_local_id := 0; my_thread_id := 4 |}
              {| current_id := 1; thread_local_obj := {[ 4%nat := 0 ]};
                 fiber_count := 1; outputs := [] |})
    as (id & loc' & w' & Hrun & _ & Hag & Hloc & _ & _ & Hp & _).
  - constructor; cbn; [| |lia].
    + intros t id H. apply lookup_singleton_Some in H as [_ <-]. lia.
    + intros t t' id H H'.
      apply lookup_singleton_Some in H as [<- _].
      apply lookup_singleton_Some in H' as [<- _]. reflexivity.
  - cbn. unfold size_t_modulus. lia.
  - reflexivity.
  - assert (id = 1) as ->.
    { subst loc'. pose proof Hrun as H. vm_compute in H.
      injection H as Hid _. exact (eq_sym Hid). }
    exists loc', w'. split; [exact Hrun|]. split; [exact Hloc | exact Hp].
Defined.

Lemma fold_resumed fiber_id (resumed : nat -> nat) l : forall lw,
  foldl (fun '(loc, w) jj => fiber_iteration fiber_id (resumed jj) loc w)
    lw l = turns fiber_id (resumed <$> l) lw.
Proof.
  unfold turns. induction l as [|jj l IH]; intros lw; [reflexivity|].
  cbn [foldl fmap list_fmap]. rewrite IH. now destruct lw.
Qed.

Lemma turns_spec fiber_id ts : forall loc w,
  ids_distinct w ->
  current_id w + Z.of_nat (length ts) < size_t_modulus ->
  locals_agree loc w ->
  exists loc' w' extra,
    turns fiber_id ts (loc, w) = (loc', w') /\
    ids_distinct w' /\
    locals_agree loc' w' /\
    printed (outputs w') = printed (outputs w) ++ extra /\
    notifications (outputs w') = notifications (outputs w) /\
    fiber_count w' = fiber_count w /\
    (Forall (fun t => t = my_thread_id loc) ts ->
       extra =
         concat (replicate (length ts) (foo_line fiber_id (my_local_id loc)))
       /\ loc' = loc) /\
    (Exists (fun t => t <> my_thread_id loc) ts ->
       migrated_warning ∈ extra /\ wrong_local_warning ∈ extra).
Proof.
  induction ts as [|t ts IH]; intros loc w Hd Hcap Hloc.
  - exists loc, w, []. cbn. rewrite app_nil_r.
    split; [reflexivity|]. split; [exact Hd|]. split; [exact Hloc|].
    split; [reflexivity|]. split; [reflexivity|]. split; [reflexivity|].
    split; [intros _; split; reflexivity|].
    intros Hx. inversion Hx.
  - cbn [length] in Hcap.
    destruct (fiber_iteration_spec fiber_id t loc w Hd
                ltac:(unfold size_t_modulus in *; lia) Hloc)
      as (id & loc1 & w1 & Hrun & Hd1 & Hag1 & Hloc1 & Hsame & Hdiff & Hp1
          & Hn1 & Hf1 & Hc1 & _).
    destruct (IH loc1 w1 Hd1 ltac:(lia) Hag1)
      as (loc2 & w2 & extra & Hrun2 & Hd2 & Hag2 & Hp2 & Hn2 & Hf2 & Hall
          & Hex).
    exists loc2, w2. eexists. split.
    { unfold turns in *. cbn [foldl]. rewrite Hrun. exact Hrun2. }
    split; [exact Hd2|]. split; [exact Hag2|].
    split; [rewrite Hp2, Hp1, <- !app_assoc; reflexivity|].
    split; [congruence|]. split; [congruence|]. split.
    + intros Hts. inversion Hts as [|? ? Ht Hts']; subst.
      destruct (Hsame eq_refl) as [-> Hl]. rewrite Hl in *.
      destruct (Hall Hts') as [-> ->].
      rewrite bool_decide_true by reflexivity. cbn. auto.
    + intros Hts. destruct (decide (t = my_thread_id loc)) as [Ht|Ht].
      * destruct (Hsame Ht) as [_ Hl]. rewrite Hl in *.
        inversion Hts as [? ? Hbad|? ? Hts']; subst; [congruence|].
        destruct (Hex Hts') as [Hm Hw].
        split; rewrite !elem_of_app; auto.
      * rewrite (bool_decide_false _ Ht).
        split; rewrite !elem_of_app; right; left;
          [apply list_elem_of_here
          | apply list_elem_of_further, list_elem_of_here].
Qed.

Lemma fiber_done_printed w : printed (outputs (fiber_done w)) = printed (outputs w).
Proof.
  unfold fiber_done, emit. cbn -[Z.eqb to_size_t].
  destruct (0 =? to_size_t (fiber_count w - 1)); cbn -[Z.eqb to_size_t];
    rewrite !printed_app; cbn; now rewrite !app_nil_r.
Qed.

(** X16.  What a whole fiber prints.  A fiber that finds itself on its
    first thread after every sleep prints its six [foo] lines, all with
    that thread's object id, and no warning; a fiber that finds itself on
    another thread after some sleep prints both the migration warning and
    the wrong-thread-local warning. *)
Theorem fiber_function_output fiber_id start resumed w :
  ids_distinct w ->
  current_id w + 6 < size_t_modulus ->
  ((forall jj, (jj < 5)%nat -> resumed jj = start) ->
     printed (outputs (fiber_function fiber_id start resumed w)) =
       printed (outputs w) ++
         concat (replicate 6
                   (foo_line fiber_id (get_thread_local start w).1))) /\
  ((exists jj, (jj < 5)%nat /\ resumed jj <> start) ->
     migrated_warning
       ∈ printed (outputs (fiber_function fiber_id start resumed w)) /\
     wrong_local_warning
       ∈ printed (outputs (fiber_function fiber_id start resumed w))).
Proof.
  intros Hd Hcap.
  destruct (get_thread_local_spec start w Hd
              ltac:(unfold size_t_modulus in *; lia))
    as (id & w1 & Hg & Hd1 & Ht & _ & _ & _ & _ & Hcur & _ & Ho).
  unfold fiber_function. rewrite Hg. cbn [foo fst].
  rewrite fold_resumed.
  set (w2 := locked_print _ w1).
  assert (Hd2 : ids_distinct w2) by (destruct Hd1; constructor; assumption).
  destruct (turns_spec fiber_id (resumed <$> seq 0 5)
              {| my_local_id := id; my_thread_id := start |} w2 Hd2)
    as (loc' & w3 & extra & Hrun & _ & _ & Hp & _ & _ & Hall & Hex).
  { rewrite length_fmap, length_seq. cbn. lia. }
  { exact Ht. }
  rewrite Hrun, fiber_done_printed, Hp.
  assert (Hp2 : printed (outputs w2)
                = printed (outputs w) ++ foo_line fiber_id id).
  { unfold w2, locked_print. cbn. rewrite Ho, !printed_app. cbn.
    now rewrite ?app_nil_r. }
  rewrite Hp2. split.
  - intros Hsame. destruct Hall as [-> _].
    { apply Forall_fmap, Forall_forall. intros jj Hjj. cbn.
      apply Hsame. apply elem_of_seq in Hjj. lia. }
    rewrite length_fmap, length_seq. cbn. now rewrite <- !app_assoc.
  - intros (jj & Hjj & Hne). destruct Hex as [Hm Hw].
    { apply Exists_exists. exists (resumed jj). split; [|exact Hne].
      apply list_elem_of_fmap. exists jj. split; [reflexivity|].
      apply elem_of_seq. lia. }
    split; rewrite elem_of_app; right; assumption.
Qed.

Lemma fiber_function_output_witness :
  printed (outputs (fiber_function 3 4 (fun _ => 4%nat) (program_start 1)))
    = concat (replicate 6 (foo_line 3 0)) /\
  migrated_warning
    ∈ printed (outputs (fiber_function 3 4
                          (fun jj => if (jj =? 2)%nat then 9%nat else 4%nat)
                          (program_start 1))).
Proof.
  assert (Hstart : ids_distinct (program_start 1)).
  { constructor; cbn; [| |lia]; intros; simplify_map_eq. }
  split.
  - apply (proj1 (fiber_function_output 3 4 (fun _ => 4%nat)
                    (program_start 1) Hstart eq_refl)).
    reflexivity.
  - apply (proj2 (fiber_function_output 3 4
                    (fun jj => if (jj =? 2)%nat then 9%nat else 4%nat)
                    (program_start 1) Hstart eq_refl)).
    exists 2%nat. split; [lia | discriminate].
Defined.

Lemma fiber_iteration_count fiber_id t loc w :
  fiber_count (fiber_iteration fiber_id t loc w).2 = fiber_count w /\
  notifications (outputs (fiber_iteration fiber_id t loc w).2)
    = notifications (outputs w).
Proof.
  unfold fiber_iteration, get_thread_local.
  destruct (thread_local_obj w !! t); cbn;
    repeat (destruct (bool_decide _); cbn);
    rewrite ?notifications_app; cbn; split; (reflexivity || lia).
Qed.

Lemma turns_count fiber_id ts : forall lw,
  fiber_count (turns fiber_id ts lw).2 = fiber_count lw.2 /\
  notifications (outputs (turns fiber_id ts lw).2)
    = notifications (outputs lw.2).
Proof.
  unfold turns. induction ts as [|t ts IH]; intros [loc w]; [auto|].
  cbn [foldl]. destruct (IH (fiber_iteration fiber_id t loc w)) as [-> ->].
  apply fiber_iteration_count.
Qed.

Lemma fiber_function_count fiber_id start resumed w :
  fiber_count (fiber_function fiber_id start resumed w)
    = to_size_t (fiber_count w - 1) /\
  notifications (outputs (fiber_function fiber_id start resumed w))
    = (notifications (outputs w)
       + if (0 =? to_size_t (fiber_count w - 1))%Z then 1 else 0)%nat.
Proof.
  unfold fiber_function.
  destruct (get_thread_local start w) as [obj w1] eqn:Hg.
  assert (Hw1 : fiber_count w1 = fiber_count w /\
                notifications (outputs w1) = notifications (outputs w)).
  { unfold get_thread_local in Hg.
    destruct (thread_local_obj w !! start); cbn in Hg;
      inversion Hg; subst; split; reflexivity. }
  destruct Hw1 as [Hf1 Hn1]. cbn [foo].
  rewrite fold_resumed.
  set (lw := (_, locked_print _ w1)).
  destruct (turns_count fiber_id (resumed <$> seq 0 5) lw) as [Hf Hn].
  destruct (turns fiber_id (resumed <$> seq 0 5) lw) as [loc' w3].
  cbn [snd] in Hf, Hn. unfold lw in Hf, Hn. cbn in Hf, Hn.
  rewrite !notifications_app in Hn. cbn in Hn.
  unfold fiber_done, emit. cbn -[Z.eqb to_size_t]. rewrite Hf, Hf1.
  destruct (0 =? to_size_t (fiber_count w - 1)); cbn -[Z.eqb to_size_t];
    rewrite !notifications_app, Hn, Hn1; cbn; split; (reflexivity || lia).
Qed.

Lemma run_fibers_count fs : forall w,
  Z.of_nat (length fs) <= fiber_count w < size_t_modulus ->
  fiber_count (run_fibers fs w) = fiber_count w - Z.of_nat (length fs) /\
  notifications (outputs (run_fibers fs w)) =
    (notifications (outputs w)
     + if (fiber_count w =? Z.of_nat (length fs))%Z
          && negb (Nat.eqb (length fs) 0)
       then 1 else 0)%nat.
Proof.
  unfold run_fibers.
  induction fs as [|[[fiber_id start] resumed] fs IH]; intros w Hfc.
  - cbn. rewrite andb_false_r. split; lia.
  - cbn [foldl length] in *.
    destruct (fiber_function_count fiber_id start resumed w) as [Hf Hn].
    rewrite to_size_t_small in Hf, Hn by lia.
    destruct (IH (fiber_function fiber_id start resumed w)) as [Hf' Hn'];
      [rewrite Hf; lia|].
    rewrite Hf', Hn', Hf, Hn. split; [lia|].
    cbn [Nat.eqb negb]. rewrite andb_true_r.
    destruct (Z.eqb_spec 0 (fiber_count w - 1)),
             (Z.eqb_spec (fiber_count w - 1) (Z.of_nat (length fs))),
             (Z.eqb_spec (fiber_count w) (Z.of_nat (S (length fs))));
      destruct fs; cbn in *; lia.
Qed.

(** X17.  The count of running fibers.  Every fiber ends by decrementing
    [fiber_count], and notifies [cnd_count] when that brings it to zero.
    So when the count is the number of fibers, the fibers bring it to zero
    and [cnd_count] is notified exactly once, not before the last of them
    has ended.  A fiber more than were counted finds the count at zero and
    wraps it to the largest [std::size_t], without a notification. *)
Theorem fibers_count_down fs w :
  fs <> [] ->
  fiber_count w = Z.of_nat (length fs) ->
  Z.of_nat (length fs) < size_t_modulus ->
  fiber_count (run_fibers fs w) = 0 /\
  notifications (outputs (run_fibers fs w)) = S (notifications (outputs w)) /\
  (forall fs1 fs2,
     fs = fs1 ++ fs2 -> fs2 <> [] ->
     notifications (outputs (run_fibers fs1 w)) = notifications (outputs w)) /\
  (forall f,
     fiber_count (run_fibers (fs ++ [f]) w) = size_t_modulus - 1 /\
     notifications (outputs (run_fibers (fs ++ [f]) w))
       = S (notifications (outputs w))).
Proof.
  intros Hne Hfc Hlen.
  destruct (run_fibers_count fs w ltac:(lia)) as [Hf Hn].
  rewrite Hfc, Z.eqb_refl in Hn.
  assert (Hnz : Nat.eqb (length fs) 0 = false)
    by (destruct fs; [congruence | reflexivity]).
  rewrite Hnz in Hn. cbn in Hn.
  split; [lia|]. split; [lia|]. split.
  - intros fs1 fs2 -> Hne2.
    rewrite length_app in Hfc, Hlen.
    assert (0 < length fs2)%nat by (destruct fs2; [congruence | cbn; lia]).
    destruct (run_fibers_count fs1 w ltac:(lia)) as [_ ->].
    destruct (Z.eqb_spec (fiber_count w) (Z.of_nat (length fs1))); [lia|].
    cbn. lia.
  - intros [[fiber_id start] resumed].
    unfold run_fibers in *. rewrite foldl_app. cbn [foldl].
    destruct (fiber_function_count fiber_id start resumed
                (foldl (fun w '(fiber_id, start, resumed) =>
                          fiber_function fiber_id start resumed w) w fs))
      as [-> ->].
    rewrite Hf, Hfc, Z.sub_diag.
    change (to_size_t (0 - 1)) with (size_t_modulus - 1).
    change (0 =? size_t_modulus - 1) with false.
    split; [reflexivity | lia].
Qed.

Lemma fibers_count_down_witness :
  fiber_count
    (run_fibers [(0, 4%nat, fun _ => 4%nat); (1, 9%nat, fun _ => 9%nat)]
       (program_start 2)) = 0 /\
  notifications
    (outputs
       (run_fibers [(0, 4%nat, fun _ => 4%nat); (1, 9%nat, fun _ => 9%nat)]
          (program_start 2))) = 1%nat /\
  notifications
    (outputs (run_fibers [(0, 4%nat, fun _ => 4%nat)] (program_start 2)))
    = 0%nat.
Proof.
  destruct (fibers_count_down
              [(0, 4%nat, fun _ => 4%nat); (1, 9%nat, fun _ => 9%nat)]
              (program_start 2))
    as (Hf & Hn & Hpre & _);
    [discriminate | reflexivity | cbn; unfold size_t_modulus; lia |].
  split; [exact Hf|]. split; [exact Hn|].
  apply (Hpre [(0, 4%nat, fun _ => 4%nat)] [(1, 9%nat, fun _ => 9%nat)]);
    [reflexivity | discriminate].
Defined.


(** * The fiber property, again *)

Lemma props_fold calls : forall props,
  notified props = (if m_previously_awakened props then 1 else 0)%nat ->
  let props' := foldl (fun p c => run_props_call c p) props calls in
  (m_previously_awakened props' = true <->
     m_previously_awakened props = true \/
     call_set_previously_awakened ∈ calls) /\
  notified props' = (if m_previously_awakened props' then 1 else 0)%nat.
Proof.
  induction calls as [|c calls IH]; intros props Hn; cbn.
  - split; [|exact Hn]. split; [auto|]. intros [H|H]; [exact H|].
    now apply elem_of_nil in H.
  - destruct (IH (run_props_call c props)) as [Hiff Hn'].
    { destruct c; cbn; [exact Hn|].
      unfold set_previously_awakened.
      destruct (m_previously_awakened props) eqn:E; cbn;
        rewrite ?E; lia. }
    split; [|exact Hn']. rewrite Hiff, elem_of_cons.
    destruct c; cbn.
    + split; [intros [H|H]; auto | intros [H|[H|H]]; auto; discriminate].
    + assert (Hset : m_previously_awakened (set_previously_awakened props)
                     = true).
      { unfold set_previously_awakened.
        now destruct (m_previously_awakened props) eqn:E. }
      rewrite Hset. split; [intros _; right; now left | intros _; now left].
Qed.

(** X18.  A property notifies its scheduler once in its life.  After any
    sequence of calls on a new property, it counts as awakened exactly
    when [set_previously_awakened] was among them, and the base class's
    [notify] has then been called once, and not at all otherwise. *)
Theorem props_notifies_once calls :
  let props := foldl (fun p c => run_props_call c p)
                 thread_locked_props_ctor calls in
  (was_previously_awakened props = true <->
     call_set_previously_awakened ∈ calls) /\
  notified props = (if was_previously_awakened props then 1 else 0)%nat.
Proof.
  destruct (props_fold calls thread_locked_props_ctor eq_refl) as [Hiff Hn].
  split; [|exact Hn]. unfold was_previously_awakened. rewrite Hiff. cbn.
  split; [intros [H|H]; [discriminate | exact H] | auto].
Qed.

(** * Overlapping dispatches, and timed waits *)

Lemma bind_assoc {A B C} (m : M A) (k : A -> M B) (h : B -> M C) st :
  bind (bind m k) h st = bind m (fun a => bind (k a) h) st.
Proof. unfold bind. now destruct (m st). Qed.

Lemma awakened_halves self ctx props st :
  is_pinned_context ctx = false ->
  was_previously_awakened props = false ->
  awakened self ctx props st =
    (dispatch_select ctx ;; dispatch_deliver ctx props) st.
Proof.
  intros Hpin Hprev. unfold awakened, dispatch_select, dispatch_deliver.
  rewrite Hpin, Hprev. unfold bind.
  destruct (lock st) as [[] st1|]; [|reflexivity].
  destruct (detach ctx st1) as [[] st2|]; [|reflexivity].
  destruct (pre_increment st2) as [v st3|]; [|reflexivity].
  destruct (size_schedulers st3) as [n st4|]; [|reflexivity].
  destruct (rem v n st4) as [r st5|]; [|reflexivity].
  destruct (store_current_scheduler r st5) as [[] st6|]; [|reflexivity].
  destruct (unlock st6) as [[] st7|]; reflexivity.
Qed.

Lemma dispatch_select_run ctx st :
  s_mutex st = false ->
  0 <= s_current_scheduler st < size_t_modulus - 1 ->
  s_schedulers st <> [] ->
  exists st',
    dispatch_select ctx st = Done tt st' /\
    s_mutex st' = false /\
    s_current_scheduler st' =
      (s_current_scheduler st + 1) mod Z.of_nat (length (s_schedulers st)) /\
    s_schedulers st' = s_schedulers st /\
    heap st' = heap st /\
    scheduler_ st' = delete (ctx_id ctx) (scheduler_ st).
Proof.
  intros Hm Hc Hs. unfold dispatch_select. run_with Hm.
  rewrite (to_size_t_small (s_current_scheduler st + 1)) by lia.
  destruct (Z.eqb_spec (Z.of_nat (length (s_schedulers st))) 0) as [E|_].
  { destruct (s_schedulers st); [congruence | cbn in E; lia]. }
  run. eexists. split; [reflexivity|]. cbn. repeat split.
Qed.

Lemma dispatch_deliver_run ctx props st t s_t :
  s_mutex st = false ->
  s_schedulers st !! Z.to_nat (s_current_scheduler st) = Some (Some t) ->
  heap st !! t = Some s_t ->
  exists st',
    dispatch_deliver ctx props st
      = Done (set_previously_awakened props) st' /\
    s_mutex st' = false /\
    s_current_scheduler st' = s_current_scheduler st /\
    s_schedulers st' = s_schedulers st /\
    heap st' =
      <[t := {| m_local_queue := m_local_queue s_t ++ [ctx];
                m_flag := m_flag s_t; m_suspend := m_suspend s_t |}]>
        (heap st) /\
    scheduler_ st' = scheduler_ st.
Proof.
  intros Hm Hslot Ht. unfold dispatch_deliver. run. rewrite Hslot.
  run_with Hm. run_with Ht. eexists. split; [reflexivity|].
  cbn. repeat split.
Qed.

(** X19.  Two first wakes that overlap pick the same worker.  The
    first-wake branch of [awakened] is its part under the mutex followed by
    its part after [lock.unlock()], and the second part reads the cursor
    anew.  So when a second first wake runs its locked part between the two
    parts of the first, the cursor has moved twice before either reads it:
    both contexts end in the queue of the worker two slots on, and the
    worker one slot on gets neither. *)
Theorem overlapping_dispatches_collide ws st ctx1 props1 ctx2 props2 t1 t2 :
  dispatching ws st ->
  2 <= Z.of_nat (length ws) < 2 ^ 32 ->
  is_pinned_context ctx1 = false ->
  was_previously_awakened props1 = false ->
  is_pinned_context ctx2 = false ->
  was_previously_awakened props2 = false ->
  ws !! Z.to_nat ((s_current_scheduler st + 1) mod Z.of_nat (length ws))
    = Some t1 ->
  ws !! Z.to_nat ((s_current_scheduler st + 2) mod Z.of_nat (length ws))
    = Some t2 ->
  (forall self st0,
     awakened self ctx1 props1 st0 =
       (dispatch_select ctx1 ;; dispatch_deliver ctx1 props1) st0) /\
  exists st',
    (dispatch_select ctx1 ;;
     dispatch_select ctx2 ;;
     dispatch_deliver ctx1 props1 ;;
     dispatch_deliver ctx2 props2) st
      = Done (set_previously_awakened props2) st' /\
    t1 <> t2 /\
    local_queue t2 st' = local_queue t2 st ++ [ctx1; ctx2] /\
    local_queue t1 st' = local_queue t1 st.
Proof.
  intros [Hm Hs Hlv Hnd Hc] Hlen Hp1 Hf1 Hp2 Hf2 Ht1 Ht2.
  split; [intros self st0; now apply awakened_halves|].
  set (L := Z.of_nat (length ws)) in *.
  assert (Hl : Z.of_nat (length (s_schedulers st)) = L)
    by (rewrite Hs, length_fmap; reflexivity).
  assert (Hne : s_schedulers st <> [])
    by (intros E; rewrite E in Hl; cbn in Hl; lia).
  pose proof (Z.mod_pos_bound (s_current_scheduler st + 1) L ltac:(lia)) as Hb1.
  destruct (dispatch_select_run ctx1 st Hm
              ltac:(unfold size_t_modulus; lia) Hne)
    as (sa & Ha & Hma & Hca & Hsa & Hha & Hoa).
  rewrite Hl in Hca.
  destruct (dispatch_select_run ctx2 sa Hma
              ltac:(unfold size_t_modulus; lia) ltac:(congruence))
    as (sb & Hb & Hmb & Hcb & Hsb & Hhb & Hob).
  rewrite Hsa, Hl, Hca in Hcb.
  assert (Hcb' : s_current_scheduler sb = (s_current_scheduler st + 2) mod L).
  { rewrite Hcb, Z.add_mod_idemp_l by lia. f_equal. lia. }
  assert (Ht2l : (t2 < length (heap st))%nat).
  { rewrite Forall_forall in Hlv. apply Hlv.
    eapply list_elem_of_lookup_2; eauto. }
  destruct (lookup_lt_is_Some_2 _ _ Ht2l) as [s2 Hs2].
  destruct (dispatch_deliver_run ctx1 props1 sb t2 s2 Hmb)
    as (sc & Hcrun & Hmc & Hcc & Hsc & Hhc & Hoc).
  { now rewrite Hsb, Hsa, Hs, Hcb', list_lookup_fmap, Ht2. }
  { now rewrite Hhb, Hha. }
  destruct (dispatch_deliver_run ctx2 props2 sc t2
              {| m_local_queue := m_local_queue s2 ++ [ctx1];
                 m_flag := m_flag s2; m_suspend := m_suspend s2 |} Hmc)
    as (sd & Hdrun & Hmd & Hcd & Hsd & Hhd & Hod).
  { now rewrite Hsc, Hcc, Hsb, Hsa, Hs, Hcb', list_lookup_fmap, Ht2. }
  { rewrite Hhc, Hhb, Hha. now apply list_lookup_insert_eq. }
  assert (Hneq : t1 <> t2).
  { intros ->.
    pose proof (NoDup_lookup _ _ _ _ Hnd Ht1 Ht2) as E.
    pose proof (Z.mod_pos_bound (s_current_scheduler st + 2) L ltac:(lia)).
    assert (E' : (s_current_scheduler st + 1) mod L
                 = (s_current_scheduler st + 2) mod L) by lia.
    replace (s_current_scheduler st + 2)
      with ((s_current_scheduler st + 1) + 1) in E' by lia.
    rewrite <- (Z.add_mod_idemp_l (s_current_scheduler st + 1) 1) in E'
      by lia.
    set (r := (s_current_scheduler st + 1) mod L) in *.
    destruct (Z.eq_dec (r + 1) L) as [Er|Er].
    - rewrite Er, Z.mod_same in E' by lia. lia.
    - rewrite Z.mod_small in E' by lia. lia. }
  exists sd. split.
  { rewrite (bind_done _ _ _ _ _ Ha), (bind_done _ _ _ _ _ Hb).
    now rewrite (bind_done _ _ _ _ _ Hcrun). }
  split; [exact Hneq|].
  unfold local_queue. rewrite Hhd, Hhc, Hhb, Hha, list_insert_insert_eq.
  split.
  - rewrite list_lookup_insert_eq by exact Ht2l. rewrite Hs2. cbn.
    now rewrite <- app_assoc.
  - now rewrite list_lookup_insert_ne by congruence.
Qed.

Lemma overlapping_dispatches_collide_witness :
  exists st',
    (dispatch_select example_fiber ;;
     dispatch_select {| ctx_id := 8; is_pinned_context := false |} ;;
     dispatch_deliver example_fiber thread_locked_props_ctor ;;
     dispatch_deliver {| ctx_id := 8; is_pinned_context := false |}
       thread_locked_props_ctor) quiet_pool
      = Done (set_previously_awakened thread_locked_props_ctor) st' /\
    local_queue 0 st' =
      [example_fiber; {| ctx_id := 8; is_pinned_context := false |}] /\
    local_queue 2 st' = [].
Proof.
  destruct (overlapping_dispatches_collide [0%nat; 2%nat] quiet_pool
              example_fiber thread_locked_props_ctor
              {| ctx_id := 8; is_pinned_context := false |}
              thread_locked_props_ctor 2%nat 0%nat)
    as (_ & st' & Hrun & _ & Hq2 & Hq1);
    try reflexivity.
  - constructor; cbn; [reflexivity | reflexivity | repeat constructor
      | | lia].
    apply NoDup_cons. split; [|apply NoDup_singleton].
    intros Hin. apply list_elem_of_singleton in Hin. discriminate.
  - cbn. lia.
  - exists st'. split; [exact Hrun|]. split; [exact Hq2 | exact Hq1].
Defined.

Lemma cv_wait_quiet w st :
  quiet w ->
  s_mutex st = true ->
  cv_wait w st =
    Done tt (log EvLock (set_mutex true (log EvUnlock (set_mutex false st)))).
Proof.
  intros Hq Hm. unfold cv_wait. rewrite Hq. run_with Hm. reflexivity.
Qed.

Lemma same_but_trace_relock st :
  s_mutex st = true ->
  same_but_trace st
    (log EvLock (set_mutex true (log EvUnlock (set_mutex false st)))).
Proof. intros Hm. repeat split. cbn. now rewrite Hm. Qed.

Lemma wait_until_times_out p tp s pre w rest : forall st,
  s_mutex st = true ->
  heap st !! p = Some s ->
  m_flag s = false ->
  Forall (fun w' => quiet w' /\ clock w' < tp) pre ->
  quiet w ->
  tp <= clock w ->
  exists st',
    wait_until p tp (pre ++ w :: rest) st = Done (Some rest) st' /\
    same_but_trace st st'.
Proof.
  induction pre as [|w0 pre IH]; intros st Hm Hs Hf Hpre Hq Hto.
  - cbn [app wait_until].
    assert (Hd : deref p st = Done s st) by (unfold deref; now rewrite Hs).
    rewrite (bind_done _ _ _ _ _ Hd), Hf.
    assert (Hw : cv_wait_until tp w st
                 = Done true (log EvLock (set_mutex true
                                (log EvUnlock (set_mutex false st))))).
    { unfold cv_wait_until.
      rewrite (bind_done _ _ _ _ _ (cv_wait_quiet w st Hq Hm)).
      unfold ret. f_equal. now apply Z.leb_le. }
    rewrite (bind_done _ _ _ _ _ Hw). eexists. split; [reflexivity|].
    now apply same_but_trace_relock.
  - inversion Hpre as [|? ? [Hq0 Hlt] Hpre']; subst.
    cbn [app wait_until].
    assert (Hd : deref p st = Done s st) by (unfold deref; now rewrite Hs).
    rewrite (bind_done _ _ _ _ _ Hd), Hf.
    assert (Hw : cv_wait_until tp w0 st
                 = Done false (log EvLock (set_mutex true
                                 (log EvUnlock (set_mutex false st))))).
    { unfold cv_wait_until.
      rewrite (bind_done _ _ _ _ _ (cv_wait_quiet w0 st Hq0 Hm)).
      unfold ret. f_equal. apply Z.leb_gt. lia. }
    rewrite (bind_done _ _ _ _ _ Hw).
    destruct (IH (log EvLock (set_mutex true
                    (log EvUnlock (set_mutex false st)))))
      as (st' & Hrun & Hsame); try assumption; [reflexivity|].
    exists st'. split; [exact Hrun|].
    eapply same_but_trace_trans; [|exact Hsame].
    now apply same_but_trace_relock.
Qed.

(** X20.  Time-outs and spurious wake-ups.  With the flag clear and no
    other thread calling anything, [suspend_until] with a deadline goes
    back to wait after every wake-up before the deadline and returns at the
    first wake-up at or past it, with the mutex released, the flag still
    clear and nothing changed but the trace. *)
Theorem suspend_until_times_out p tp s pre w rest st :
  s_mutex st = false ->
  heap st !! p = Some s ->
  m_flag s = false ->
  tp <> time_point_max ->
  Forall (fun w' => quiet w' /\ clock w' < tp) pre ->
  quiet w ->
  tp <= clock w ->
  exists st',
    suspend_until p tp (pre ++ w :: rest) st = Done (Some rest) st' /\
    same_but_trace st st'.
Proof.
  intros Hm Hs Hf Hne Hpre Hq Hto.
  set (st0 := log EvLock (set_mutex true st)).
  assert (Hs0 : heap st0 !! p = Some s) by exact Hs.
  destruct (wait_until_times_out p tp s pre w rest st0 eq_refl Hs0 Hf
              Hpre Hq Hto) as (st1 & Hrun & Hsame).
  rewrite suspend_until_unfold by exact Hm.
  destruct (Z.eqb_spec time_point_max tp) as [E|_]; [congruence|].
  fold st0. rewrite (bind_done _ _ _ _ _ Hrun).
  destruct Hsame as (Hm1 & Hc1 & Hs1 & Ho1 & Hb1 & Hh1 & Hw1).
  unfold finish. run. rewrite Hh1. run_with Hs. rewrite Hm1. run.
  eexists. split; [reflexivity|].
  unfold same_but_trace. cbn.
  rewrite Hc1, Hs1, Ho1, Hb1, Hh1, Hw1. cbn.
  repeat split; [now rewrite Hm|].
  apply list_insert_id. rewrite Hs. destruct s; cbn in *. now rewrite Hf.
Qed.

Lemma suspend_until_times_out_witness :
  exists st',
    suspend_until 0 10
      ([ {| meanwhile := []; clock := 3 |};
         {| meanwhile := []; clock := 7 |} ] ++
       {| meanwhile := []; clock := 10 |} ::
       [ {| meanwhile := []; clock := 20 |} ]) quiet_pool
    = Done (Some [ {| meanwhile := []; clock := 20 |} ]) st' /\
    same_but_trace quiet_pool st'.
Proof.
  apply (suspend_until_times_out 0 10
           {| m_local_queue := []; m_flag := false; m_suspend := false |}).
  - reflexivity.
  - reflexivity.
  - reflexivity.
  - vm_compute. discriminate.
  - repeat constructor.
  - reflexivity.
  - vm_compute. discriminate.
Defined.

(** * The mutexes of the example *)

Lemma replay_app o1 : forall held o2,
  replay held (o1 ++ o2) =
    match replay held o1 with
    | Some held' => replay held' o2
    | None => None
    end.
Proof.
  induction o1 as [|x o1 IH]; intros held o2; [reflexivity|].
  cbn [app replay]. destruct (replay_step held x); [apply IH | reflexivity].
Qed.

Lemma disciplined_refl w : disciplined w w.
Proof. exists []. split; [now rewrite app_nil_r | reflexivity]. Qed.

Lemma disciplined_trans w1 w2 w3 :
  disciplined w1 w2 -> disciplined w2 w3 -> disciplined w1 w3.
Proof.
  intros (o1 & H1 & R1) (o2 & H2 & R2). exists (o1 ++ o2). split.
  - now rewrite H2, H1, app_assoc.
  - now rewrite replay_app, R1.
Qed.

Lemma locked_print_disciplined args w : disciplined w (locked_print args w).
Proof.
  eexists. split; [reflexivity|]. cbn.
  induction args as [|a args IH]; [reflexivity | exact IH].
Qed.

Lemma get_thread_local_outputs t w :
  outputs (get_thread_local t w).2 = outputs w.
Proof.
  unfold get_thread_local. now destruct (thread_local_obj w !! t).
Qed.

Lemma get_thread_local_disciplined t w :
  disciplined w (get_thread_local t w).2.
Proof.
  exists []. split; [|reflexivity].
  now rewrite get_thread_local_outputs, app_nil_r.
Qed.

Lemma fiber_iteration_disciplined fiber_id t loc w :
  disciplined w (fiber_iteration fiber_id t loc w).2.
Proof.
  unfold fiber_iteration.
  pose proof (get_thread_local_disciplined t w) as Hg.
  destruct (get_thread_local t w) as [obj w1]. cbn [snd] in Hg.
  unfold foo.
  set (w2 := locked_print _ w1).
  assert (H2 : disciplined w w2)
    by (eapply disciplined_trans; [exact Hg | apply locked_print_disciplined]).
  destruct (bool_decide (t <> my_thread_id loc));
    destruct (bool_decide (obj <> my_local_id loc)); cbn [snd].
  - eapply disciplined_trans; [|apply locked_print_disciplined].
    eapply disciplined_trans; [|apply locked_print_disciplined].
    exact H2.
  - eapply disciplined_trans; [|apply locked_print_disciplined]. exact H2.
  - eapply disciplined_trans; [|apply locked_print_disciplined]. exact H2.
  - exact H2.
Qed.

Lemma turns_disciplined fiber_id ts : forall loc w,
  disciplined w (turns fiber_id ts (loc, w)).2.
Proof.
  unfold turns.
  induction ts as [|t ts IH]; intros loc w; [apply disciplined_refl|].
  cbn [foldl].
  pose proof (fiber_iteration_disciplined fiber_id t loc w) as H1.
  destruct (fiber_iteration fiber_id t loc w) as [loc1 w1].
  eapply disciplined_trans; [exact H1 | apply IH].
Qed.

Lemma fiber_done_disciplined w : disciplined w (fiber_done w).
Proof.
  unfold fiber_done, emit. cbn -[Z.eqb to_size_t].
  destruct (0 =? to_size_t (fiber_count w - 1))%Z; cbn [outputs].
  - exists [Locked mtx_count; Unlocked mtx_count; NotifiedAll].
    split; [now rewrite <- app_assoc | reflexivity].
  - exists [Locked mtx_count; Unlocked mtx_count].
    split; [now rewrite <- app_assoc | reflexivity].
Qed.

(** X21.  The locking discipline of a fiber.  Whatever threads it runs
    on, what [fiber_function] does starts and ends with no mutex held, and
    in between it never locks a mutex while it holds one, prints only
    while it holds [print_mtx], and notifies [cnd_count] only after it has
    released [mtx_count]. *)
Theorem fiber_function_lock_discipline fiber_id start resumed w :
  exists o,
    outputs (fiber_function fiber_id start resumed w) = outputs w ++ o /\
    replay None o = Some None.
Proof.
  change (disciplined w (fiber_function fiber_id start resumed w)).
  unfold fiber_function.
  pose proof (get_thread_local_disciplined start w) as Hg.
  destruct (get_thread_local start w) as [obj w1]. cbn [snd] in Hg.
  unfold foo.
  set (w2 := locked_print _ w1).
  assert (H2 : disciplined w w2)
    by (eapply disciplined_trans; [exact Hg | apply locked_print_disciplined]).
  rewrite fold_resumed.
  pose proof (turns_disciplined fiber_id (resumed <$> seq 0 5)
                {| my_local_id := obj; my_thread_id := start |} w2) as H3.
  destruct (turns _ _ _) as [loc3 w3]. cbn [snd] in H3.
  eapply disciplined_trans; [exact H2|].
  eapply disciplined_trans; [exact H3 | apply fiber_done_disciplined].
Qed.
